(** * Universal AI Gateway: dispatch-engine properties

    A shallow embedding of the credential pool ([core/providers/key_manager.py]),
    the rotation index ([core/providers/rotation_manager.py]), the router and
    execution engine ([core/api/services.py], [core/api/routes/chat.py],
    [core/engine/manager.py]), message normalization
    ([core/providers/utils/normalization.py]) and the response-cache validator
    ([core/common/cache_validator.py]), with the properties the specification
    states about them.

    Modelling conventions.
    - Python [str] is [string]; [dict]s whose iteration order reaches the
      behaviour are insertion-ordered association lists, the others are [gmap]s.
    - [asyncio] tasks are cooperative: each pool operation runs to completion
      between two suspension points, so a pool operation is one state
      transition.  A [get] on a queue that is empty and that nobody refills
      reaches its deadline.
    - [time.time()] is an integer clock reading passed in by the environment.
    - A raised exception is a value of the result type. *)

From Stdlib Require Import ZArith Lia Bool List Permutation Ascii String QArith.
From Stdlib Require Import DecimalString.
From stdpp Require Import gmap strings.
Import ListNotations.
Local Open Scope string_scope.
Local Open Scope Z_scope.
Local Open Scope list_scope.

(** ** Insertion-ordered dictionaries with string keys *)

Module PyDict.
Section Dict.
Context {V : Type}.

(** [k in d] *)
Fixpoint mem (k : string) (d : list (string * V)) : bool :=
  match d with
  | [] => false
  | (k', _) :: d' => if String.eqb k k' then true else mem k d'
  end.

(** [d.get(k)] *)
Fixpoint get (k : string) (d : list (string * V)) : option V :=
  match d with
  | [] => None
  | (k', v) :: d' => if String.eqb k k' then Some v else get k d'
  end.

(** [d[k] = v]: an existing key keeps its position, a new one goes last. *)
Fixpoint set (k : string) (v : V) (d : list (string * V)) : list (string * V) :=
  match d with
  | [] => [(k, v)]
  | (k', v') :: d' =>
      if String.eqb k k' then (k, v) :: d' else (k', v') :: set k v d'
  end.

(** [del d[k]] *)
Fixpoint del (k : string) (d : list (string * V)) : list (string * V) :=
  match d with
  | [] => []
  | (k', v') :: d' =>
      if String.eqb k k' then del k d' else (k', v') :: del k d'
  end.

Definition keys (d : list (string * V)) : list string := map fst d.
End Dict.
End PyDict.

(** ** Python strings

    A [string] is read as a sequence of code points below 256. *)

Module PyStr.

(** [c.isspace()] on that range. *)
Definition is_space (c : ascii) : bool :=
  let n := N_of_ascii c in
  ((9 <=? n) && (n <=? 13) || (28 <=? n) && (n <=? 32)
   || (n =? 133) || (n =? 160))%N.

(** [s.lstrip()], [s.rstrip()], [s.strip()] *)
Fixpoint lstrip (s : string) : string :=
  match s with
  | EmptyString => EmptyString
  | String c s' => if is_space c then lstrip s' else s
  end.

Fixpoint rstrip (s : string) : string :=
  match s with
  | EmptyString => EmptyString
  | String c s' =>
      match rstrip s' with
      | EmptyString => if is_space c then EmptyString else String c EmptyString
      | r => String c r
      end
  end.

Definition strip (s : string) : string := lstrip (rstrip s).

(** Truth value of a string: non-empty. *)
Definition truthy (s : string) : bool :=
  match s with
  | EmptyString => false
  | _ => true
  end.

(** [s.startswith(p)], [s.endswith(p)], [p in s] *)
Definition startswith (p s : string) : bool := String.prefix p s.

Definition endswith (p s : string) : bool :=
  (String.length p <=? String.length s)%nat
  && String.eqb (substring (String.length s - String.length p) (String.length p) s) p.

Fixpoint contains (p s : string) : bool :=
  String.prefix p s
  || match s with
     | EmptyString => false
     | String _ s' => contains p s'
     end.

(** [str(n)] for an integer. *)
Definition of_int (n : Z) : string := NilZero.string_of_int (Z.to_int n).

(** Every character is white space (so is the empty string). *)
Fixpoint blank (s : string) : bool :=
  match s with
  | EmptyString => true
  | String c s' => is_space c && blank s'
  end.

End PyStr.

(** ** Exceptions and results *)

Module Errors.

(** What an adapter ([proxy_function]) can raise: an [httpx.HTTPStatusError]
    with the status code and the parsed error message, the gateway's
    [LLMBadRequestError], or any other [Exception].  The adapters do not call
    the key manager and do not raise the engine's own errors. *)
Inductive AdapterError :=
| HTTPStatusError (status_code : Z) (message : string)
| LLMBadRequestError (detail : string)
| OtherError (detail : string).

Definition adapter_message (e : AdapterError) : string :=
  match e with
  | HTTPStatusError _ message => message
  | LLMBadRequestError detail => detail
  | OtherError detail => detail
  end.

(** What [json.loads] raises besides its [JSONDecodeError]: a [ValueError]
    (an integer literal longer than the digit limit of [int]) or a
    [RecursionError] (a text nested too deep), each with its message. *)
Inductive LoadsError :=
| ValueError (detail : string)
| RecursionError (detail : string).

Definition loads_message (e : LoadsError) : string :=
  match e with
  | ValueError detail => detail
  | RecursionError detail => detail
  end.

(** [GetKeyTimeoutError] carries the provider its message names. *)
Inductive exn :=
| FromAdapter (e : AdapterError)
| FromLoads (e : LoadsError)
| TypeError
| IndexError
| KeyError (key : string)
| GetKeyTimeoutError (provider : string)
| ProviderUnavailableError (detail : string)
| HTTPException (status_code : Z) (detail : string).

(** [str(e)], as the messages of the engine quote it. *)
Definition str (e : option exn) : string :=
  match e with
  | None => "None"
  | Some (FromAdapter a) => adapter_message a
  | Some (FromLoads e) => loads_message e
  | Some TypeError => "'NoneType' object is not subscriptable"
  | Some IndexError => "list index out of range"
  | Some (KeyError key) => key
  | Some (GetKeyTimeoutError provider) => "Timeout waiting for key from " ++ provider
  | Some (ProviderUnavailableError detail) => detail
  | Some (HTTPException _ detail) => detail
  end.

Inductive Outcome (A : Type) :=
| Return (a : A)
| Raise (e : exn).
Arguments Return {A} a.
Arguments Raise {A} e.

Definition is_unavailable (e : exn) : bool :=
  match e with
  | ProviderUnavailableError _ => true
  | _ => false
  end.

End Errors.

(** ** Credential pool: [core/providers/key_manager.py] *)

Module KeyManager.

Definition ENABLE_QUARANTINE : bool := true.
Definition GET_KEY_TIMEOUT_SECONDS : Z := 15.
Definition QUARANTINE_DURATION_SECONDS : Z := 300.

(** The value stored in [pool["quarantined"][key]]. *)
Record QuarantineInfo := { reason : string; end_time : Z }.

(** One entry of [ApiKeyManager._pools].  [available] is the content of the
    [asyncio.Queue], next key out first. *)
Record Pool := {
  available : list string;
  quarantined : list (string * QuarantineInfo);
  retired : list (string * string);
  total_keys : Z;
  free_keys : list string;
  paid_keys : list string
}.

Definition with_available (q : list string) (p : Pool) : Pool :=
  {| available := q; quarantined := quarantined p; retired := retired p;
     total_keys := total_keys p; free_keys := free_keys p;
     paid_keys := paid_keys p |}.

Definition with_quarantined (d : list (string * QuarantineInfo)) (p : Pool) : Pool :=
  {| available := available p; quarantined := d; retired := retired p;
     total_keys := total_keys p; free_keys := free_keys p;
     paid_keys := paid_keys p |}.

Definition with_retired (d : list (string * string)) (n : Z) (p : Pool) : Pool :=
  {| available := available p; quarantined := quarantined p; retired := d;
     total_keys := n; free_keys := free_keys p; paid_keys := paid_keys p |}.

(** The pool [__init__] and [_init_provider_pool] create. *)
Definition empty_pool : Pool :=
  {| available := []; quarantined := []; retired := []; total_keys := 0;
     free_keys := []; paid_keys := [] |}.

(** [ApiKeyManager]: the [_pools] dictionary. *)
Record ApiKeyManager := { pools : gmap string Pool }.

Definition set_pool (provider : string) (p : Pool) (m : ApiKeyManager) : ApiKeyManager :=
  {| pools := <[provider := p]> (pools m) |}.

(** [provider.startswith("local")] *)
Definition is_local (provider : string) : bool := String.prefix "local" provider.

(** The loading phase of [load_all_keys] for one provider: the queue is
    emptied and refilled with [shuffled], the outcome of [random.shuffle] on
    [free ++ paid]; quarantined and retired entries are left as they are. *)
Definition load_keys (free paid shuffled : list string) (p : Pool) : Pool :=
  {| available := shuffled; quarantined := quarantined p; retired := retired p;
     total_keys := Z.of_nat (length (free ++ paid));
     free_keys := free; paid_keys := paid |}.

(** What [get_key] gives its caller. *)
Inductive KeyResult :=
| GotKey (key : string)
| NoKey                    (* returns [None] *)
| KeyTimeout.              (* raises [GetKeyTimeoutError] *)

(** The queue side of [get_key]: keys found retired are dropped and the
    call starts over; an empty queue means the wait runs into its deadline. *)
Fixpoint take_key (ret : list (string * string)) (q : list string)
  : option string * list string :=
  match q with
  | [] => (None, [])
  | k :: q' => if PyDict.mem k ret then take_key ret q' else (Some k, q')
  end.

Definition get_key (m : ApiKeyManager) (provider : string)
  : KeyResult * ApiKeyManager :=
  if is_local provider then (GotKey "local-key-placeholder", m)
  else match pools m !! provider with
       | None => (NoKey, m)
       | Some pool =>
           match take_key (retired pool) (available pool) with
           | (Some k, q') => (GotKey k, set_pool provider (with_available q' pool) m)
           | (None, q') => (KeyTimeout, set_pool provider (with_available q' pool) m)
           end
       end.

Definition release_key (m : ApiKeyManager) (provider key : string) : ApiKeyManager :=
  if is_local provider then m
  else match pools m !! provider with
       | None => m
       | Some pool =>
           if PyDict.mem key (retired pool) || PyDict.mem key (quarantined pool)
           then m
           else set_pool provider (with_available (available pool ++ [key]) pool) m
       end.

(** [now] is the reading of [time.time()] inside the call. *)
Definition quarantine_key (m : ApiKeyManager) (provider key rsn : string)
    (duration now : Z) : ApiKeyManager :=
  if is_local provider then m
  else if negb ENABLE_QUARANTINE then release_key m provider key
  else match pools m !! provider with
       | None => m
       | Some pool =>
           set_pool provider
             (with_quarantined
                (PyDict.set key {| reason := rsn; end_time := now + duration |}
                   (quarantined pool)) pool) m
       end.

Definition retire_key (m : ApiKeyManager) (provider key rsn : string) : ApiKeyManager :=
  if is_local provider then m
  else match pools m !! provider with
       | None => m
       | Some pool =>
           if PyDict.mem key (retired pool) then m
           else
             let q := if PyDict.mem key (quarantined pool)
                      then PyDict.del key (quarantined pool)
                      else quarantined pool in
             set_pool provider
               (with_retired (PyDict.set key rsn (retired pool))
                  (Z.max 0 (total_keys pool - 1))
                  (with_quarantined q pool)) m
       end.

(** One round of [_check_quarantine] on one pool at clock reading [now]. *)
Definition keys_to_release (now : Z) (p : Pool) : list string :=
  map fst (List.filter (fun kv => end_time (snd kv) <=? now) (quarantined p)).

Definition sweep_pool (now : Z) (p : Pool) : Pool :=
  let ks := keys_to_release now p in
  with_available (available p ++ ks)
    (with_quarantined (fold_left (fun d k => PyDict.del k d) ks (quarantined p)) p).

Definition _check_quarantine (m : ApiKeyManager) (now : Z) : ApiKeyManager :=
  {| pools :=
       map_imap (fun provider pool =>
                   Some (if is_local provider
                         then pool
                         else match quarantined pool with
                              | [] => pool
                              | _ => sweep_pool now pool
                              end)) (pools m) |}.

(** One entry of [get_full_status]. *)
Definition status_total_keys (m : ApiKeyManager) (provider : string) : Z :=
  match pools m !! provider with
  | Some pool => total_keys pool
  | None => 0
  end.

(** *** Callers of the pool

    An operation a caller can issue, and the manager after it. *)
Inductive Op :=
| Acquire (provider : string)
| Release (provider key : string)
| Quarantine (provider key rsn : string) (duration now : Z)
| Retire (provider key rsn : string)
| Sweep (now : Z).

Definition apply_op (m : ApiKeyManager) (o : Op) : ApiKeyManager :=
  match o with
  | Acquire p => snd (get_key m p)
  | Release p k => release_key m p k
  | Quarantine p k r d now => quarantine_key m p k r d now
  | Retire p k r => retire_key m p k r
  | Sweep now => _check_quarantine m now
  end.

Definition run_ops (ops : list Op) (m : ApiKeyManager) : ApiKeyManager :=
  fold_left apply_op ops m.

(** The manager keeps no record of the keys that are checked out.  [Tracked]
    puts that record, [held], next to it: a pair (provider, key) enters on a
    successful [get_key] from a pool and leaves when its holder hands the key
    back through [release_key], [quarantine_key] or [retire_key]. *)
Record Tracked := { mgr : ApiKeyManager; held : list (string * string) }.

Definition same_entry (p k : string) (e : string * string) : bool :=
  String.eqb p (fst e) && String.eqb k (snd e).

Definition holds (t : Tracked) (p k : string) : bool :=
  existsb (same_entry p k) (held t).

Fixpoint drop_entry (p k : string) (h : list (string * string))
  : list (string * string) :=
  match h with
  | [] => []
  | e :: h' => if same_entry p k e then h' else e :: drop_entry p k h'
  end.

(** The keys checked out of [provider]'s pool. *)
Definition keys_of (provider : string) (h : list (string * string)) : list string :=
  map snd (List.filter (fun e => String.eqb provider (fst e)) h).

Definition held_out (t : Tracked) (provider : string) : list string :=
  keys_of provider (held t).

(** A hand-back by a caller that holds the key; [None] when the caller does
    not hold it.  Local providers have no pool keys: their placeholder is
    never tracked and every hand-back is the no-op of the code. *)
Definition hand_back (t : Tracked) (p k : string) (m' : ApiKeyManager)
  : option Tracked :=
  if is_local p then Some {| mgr := m'; held := held t |}
  else if holds t p k
       then Some {| mgr := m'; held := drop_entry p k (held t) |}
       else None.

Definition tracked_step (t : Tracked) (o : Op) : option Tracked :=
  match o with
  | Acquire p =>
      let (r, m') := get_key (mgr t) p in
      Some {| mgr := m';
              held := match r with
                      | GotKey k => if is_local p then held t else (p, k) :: held t
                      | _ => held t
                      end |}
  | Release p k => hand_back t p k (apply_op (mgr t) o)
  | Quarantine p k _ _ _ => hand_back t p k (apply_op (mgr t) o)
  | Retire p k _ => hand_back t p k (apply_op (mgr t) o)
  | Sweep _ => Some {| mgr := apply_op (mgr t) o; held := held t |}
  end.

Fixpoint run_tracked (ops : list Op) (t : Tracked) : option Tracked :=
  match ops with
  | [] => Some t
  | o :: ops' =>
      match tracked_step t o with
      | Some t' => run_tracked ops' t'
      | None => None
      end
  end.

(** Key conservation in one pool: the keys in the queue, in quarantine,
    checked out and retired are, together, the keys that were loaded, and
    [total_keys] counts the loaded keys that are not retired. *)
Definition pool_keys (pool : Pool) (out : list string) : list string :=
  available pool ++ PyDict.keys (quarantined pool) ++ out
  ++ PyDict.keys (retired pool).

Definition conserved (keys0 : list string) (pool : Pool) (out : list string) : Prop :=
  Permutation (pool_keys pool out) keys0
  /\ total_keys pool = Z.of_nat (length keys0) - Z.of_nat (length (retired pool)).

Definition tracked_conserved (provider : string) (keys0 : list string)
    (t : Tracked) : Prop :=
  exists pool, pools (mgr t) !! provider = Some pool
               /\ conserved keys0 pool (held_out t provider).

(** The balance as the specification writes it, and as the pool keeps it. *)
Definition stated_balance (pool : Pool) (out : list string) : Prop :=
  Z.of_nat (length (available pool) + length (quarantined pool)
            + length (retired pool))
  = total_keys pool + Z.of_nat (length out).

Definition kept_balance (pool : Pool) (out : list string) : Prop :=
  Z.of_nat (length (available pool) + length (quarantined pool) + length out)
  = total_keys pool.

(** A manager right after [load_all_keys] found [free] and [paid] for
    [provider] and nothing is checked out. *)
Definition loaded (provider : string) (free paid shuffled : list string)
    (t : Tracked) : Prop :=
  pools (mgr t) !! provider = Some (load_keys free paid shuffled empty_pool)
  /\ Permutation shuffled (free ++ paid)
  /\ held t = [].

(** Sample data: a provider with three keys, one of them paid. *)
Definition groq_start : Tracked :=
  {| mgr := {| pools := {[ "groq" :=
                 load_keys ["gsk-a"; "gsk-b"] ["gsk-c"]
                   ["gsk-b"; "gsk-c"; "gsk-a"] empty_pool ]} |};
     held := [] |}.

Definition groq_day : list Op :=
  [ Acquire "groq"; Acquire "groq"; Quarantine "groq" "gsk-b" "HTTP 429" 300 1000;
    Retire "groq" "gsk-c" "HTTP 401"; Acquire "groq"; Sweep 1400;
    Release "groq" "gsk-a"; Acquire "missing"; Acquire "local-llm" ].

Definition after (ops : list Op) (t : Tracked) : Tracked :=
  match run_tracked ops t with
  | Some t' => t'
  | None => t
  end.

Definition groq_later : list Op :=
  [ Release "groq" "gsk-c"; Acquire "groq"; Sweep 5000; Release "groq" "gsk-b";
    Acquire "groq"; Acquire "groq"; Release "groq" "gsk-c"; Release "groq" "gsk-a" ].

(** A retired key that is out of the queue and out of quarantine. *)
Definition put_away (k : string) (pool : Pool) : Prop :=
  PyDict.mem k (retired pool) = true
  /\ PyDict.mem k (quarantined pool) = false
  /\ ~ In k (available pool).

(** The operations that hand nothing over to quarantine or retirement. *)
Definition passive (o : Op) : bool :=
  match o with
  | Acquire _ | Release _ _ | Sweep _ => true
  | _ => false
  end.

End KeyManager.


(** ** Rotation index: [core/providers/rotation_manager.py] *)

Module Rotation.

(** The store behind [redis_client].  [INCR] is the command as Redis
    documents it: a missing key counts as 0, the new value is stored and
    returned, and a value that would leave the signed 64-bit range is an
    error.  A client whose server is out of reach raises on every call.
    [None] stands for the raised exception. *)
Record Redis := {
  counters : gmap string Z;
  entries : gmap string string;
  reachable : bool
}.

Definition i64_max : Z := 2 ^ 63 - 1.

(** [d.get(k, 0)], and the value Redis reads for a missing counter. *)
Definition get_or_0 (d : gmap string Z) (k : string) : Z :=
  match d !! k with
  | Some v => v
  | None => 0
  end.

Definition incr (r : Redis) (key : string) : option Z * Redis :=
  if reachable r then
    let v := get_or_0 (counters r) key in
    if v <? i64_max
    then (Some (v + 1),
          {| counters := <[key := v + 1]> (counters r); entries := entries r;
             reachable := true |})
    else (None, r)
  else (None, r).

(** [GET] and [SET] on the string entries; the time to live of an entry is
    not modelled. *)
Definition redis_get (r : Redis) (key : string) : option (option string) :=
  if reachable r then Some (entries r !! key) else None.

Definition redis_set (r : Redis) (key value : string) : option Redis :=
  if reachable r
  then Some {| counters := counters r; entries := <[key := value]> (entries r);
               reachable := true |}
  else None.

Definition rotation_key (alias_name : string) : string :=
  ("rotation:index:" ++ alias_name)%string.

(** The part of [ModelRotationManager] the index uses
    ([_agent_rotation_state]) and the client handed to the call. *)
Record Rotor := {
  agent_rotation_state : gmap string Z;
  redis_client : option Redis
}.

(** The in-process counter, lines 107-112. *)
Definition memory_index (st : gmap string Z) (alias_name : string) (pool_size : Z)
  : Z * gmap string Z :=
  let current_index := get_or_0 st alias_name in
  let next_index := (current_index + 1) mod pool_size in
  (current_index, <[alias_name := next_index]> st).

Definition get_rotation_index (ro : Rotor) (alias_name : string) (pool_size : Z)
  : Z * Rotor :=
  if pool_size <=? 1 then (0, ro)
  else
    let in_memory (rc : option Redis) :=
      let (i, st) := memory_index (agent_rotation_state ro) alias_name pool_size in
      (i, {| agent_rotation_state := st; redis_client := rc |}) in
    match redis_client ro with
    | Some r =>
        match incr r (rotation_key alias_name) with
        | (Some val, r') =>
            (val mod pool_size,
             {| agent_rotation_state := agent_rotation_state ro;
                redis_client := Some r' |})
        | (None, r') => in_memory (Some r')
        end
    | None => in_memory None
    end.

(** [n] calls in a row for one alias and pool size. *)
Fixpoint rotation_run (n : nat) (ro : Rotor) (alias_name : string) (pool_size : Z)
  : list Z :=
  match n with
  | O => []
  | S n' =>
      let (i, ro') := get_rotation_index ro alias_name pool_size in
      i :: rotation_run n' ro' alias_name pool_size
  end.

(** The two backends as the process starts: nothing counted yet. *)
Definition memory_backend : Rotor :=
  {| agent_rotation_state := ∅; redis_client := None |}.

Definition durable_backend : Rotor :=
  {| agent_rotation_state := ∅;
     redis_client := Some {| counters := ∅; entries := ∅; reachable := true |} |}.

(** A backend that serves [n] more calls for the alias by itself: the
    in-process counter holds a slot of the pool, the durable counter has
    room for [n] increments. *)
Definition single_backend (ro : Rotor) (alias_name : string) (pool_size : Z)
    (n : nat) : Prop :=
  match redis_client ro with
  | None => 0 <= get_or_0 (agent_rotation_state ro) alias_name < pool_size
  | Some r =>
      reachable r = true
      /\ get_or_0 (counters r) (rotation_key alias_name) + Z.of_nat n <= i64_max
  end.

(** Successive slots of a pool of [m], from slot [x]. *)
Fixpoint cycle (m : Z) (n : nat) (x : Z) : list Z :=
  match n with
  | O => []
  | S n' => x :: cycle m n' ((x + 1) mod m)
  end.

(** Calls still to come before slot [j] is handed out, at slot [x]. *)
Definition wait_for (m x j : Z) : Z := if x <=? j then j - x else j - x + m.

(** The integers below and above [n / m]. *)
Definition floor_div (n m : Z) : Z := n / m.
Definition ceil_div (n m : Z) : Z := (n + m - 1) / m.

(** How often slot [j] was handed out. *)
Definition times (j : Z) (l : list Z) : Z := Z.of_nat (count_occ Z.eq_dec l j).

End Rotation.

(** ** Cache admission: [core/common/cache_validator.py] *)

Module CacheValidator.
Import Errors.

(** What [json.loads] returns. *)
#[local] Unset Elimination Schemes.
Inductive Json :=
| JNull
| JBool (b : bool)
| JInt (n : Z)
| JFloat (x : Q)
| JInfinity (negative : bool)
| JNaN
| JString (s : string)
| JList (items : list Json)
| JDict (fields : list (string * Json)).
#[local] Set Elimination Schemes.

(** [v >= 400]: a comparison for numbers ([True] and [False] count as 1 and
    0; [nan] compares false), a [TypeError] ([None] here) for everything
    else. *)
Definition ge_400 (v : Json) : option bool :=
  match v with
  | JInt n => Some (400 <=? n)
  | JFloat x => Some (Qle_bool (400 # 1) x)
  | JInfinity negative => Some (negb negative)
  | JNaN => Some false
  | JBool _ => Some false
  | JNull | JString _ | JList _ | JDict _ => None
  end.

Definition error_signatures : list string :=
  [ "httpx.ConnectError";
    "httpx.ConnectTimeout";
    "Traceback (most recent call last)";
    "Internal Server Error";
    "Rate limit reached";
    "Quota exceeded";
    "Parsing failed. The model generated output that could not be parsed" ].

(** What a call of [json.loads] comes to: the value read, the
    [JSONDecodeError] the validator catches, or another exception, which it
    does not catch. *)
Inductive Loaded :=
| Parsed (value : Json)
| JSONDecodeError
| LoadsRaised (e : LoadsError).

(** [json_loads] is [json.loads]. *)
Definition is_content_safe_to_cache (json_loads : string -> Loaded)
    (content : string) : Outcome bool :=
  if negb (PyStr.truthy content) || negb (PyStr.truthy (PyStr.strip content))
  then Return false
  else if existsb (fun sig => PyStr.contains sig content) error_signatures
  then Return false
  else
    let stripped := PyStr.strip content in
    if PyStr.startswith "{" stripped && PyStr.endswith "}" stripped then
      match json_loads stripped with
      | Parsed (JDict data) =>
          if PyDict.mem "error" data then Return false
          else match PyDict.get "status_code" data with
               | Some v =>
                   match ge_400 v with
                   | Some true => Return false
                   | Some false => Return true
                   | None => Raise TypeError
                   end
               | None => Return true
               end
      | Parsed _ => Return true
      | JSONDecodeError => Return true
      | LoadsRaised e => Raise (FromLoads e)
      end
    else Return true.

(** *** The admission rules, in the words of the specification

    Section 4.6 of the specification: content must be non-empty and
    non-whitespace, must not match a known error signature, and, if it is
    JSON-parseable and an object, must have neither an [error] field nor a
    [status_code] of 400 or more.  The definitions below state these rules
    on their own, with their own texts and their own bound; they are what
    the validator above is compared with. *)

Definition non_blank (content : string) : Prop :=
  content <> "" /\ PyStr.blank content = false.

(** [sig] occurs somewhere in [content]. *)
Definition occurs_in (sig content : string) : Prop :=
  exists before after, content = (before ++ sig ++ after)%string.

(** The known error signatures.  The specification names stack-trace
    markers and "Rate limit reached" and leaves the list open; these are the
    texts by which a failure of the gateway's HTTP client, of its own server
    or of a provider is known. *)
Definition known_error_signature (sig : string) : Prop :=
  sig = "Traceback (most recent call last)"
  \/ sig = "Rate limit reached"
  \/ sig = "Quota exceeded"
  \/ sig = "Internal Server Error"
  \/ sig = "httpx.ConnectError"
  \/ sig = "httpx.ConnectTimeout"
  \/ sig = "Parsing failed. The model generated output that could not be parsed".

Definition no_error_signature (content : string) : Prop :=
  forall sig, known_error_signature sig -> ~ occurs_in sig content.

(** [status_code ≥ 400], for a JSON value: true of the numbers from 400 on. *)
Definition at_least_400 (v : Json) : Prop :=
  match v with
  | JInt n => 400 <= n
  | JFloat x => (400 # 1 <= x)%Q
  | JInfinity negative => negative = false
  | _ => False
  end.

Definition no_json_error (json_loads : string -> Loaded) (content : string) : Prop :=
  forall data,
    json_loads (PyStr.strip content) = Parsed (JDict data) ->
    ~ In "error" (PyDict.keys data)
    /\ forall v, PyDict.get "status_code" data = Some v -> ~ at_least_400 v.

Definition admissible (json_loads : string -> Loaded) (content : string) : Prop :=
  non_blank content /\ no_error_signature content /\ no_json_error json_loads content.

(** What [json.loads] can be relied on for: a text it reads as an object
    starts with an opening and ends with a closing brace, once the white space
    around it is stripped. *)
Definition objects_in_braces (json_loads : string -> Loaded) : Prop :=
  forall s data,
    json_loads (PyStr.strip s) = Parsed (JDict data) ->
    PyStr.startswith "{" (PyStr.strip s) = true
    /\ PyStr.endswith "}" (PyStr.strip s) = true.

End CacheValidator.

(** ** Message normalization: [core/providers/utils/normalization.py] *)

Module Normalization.
Import Errors.

(** A content part, a [dict]: its ["type"] and ["text"] entries (texts are
    strings) and everything else it carries. *)
Record Part := {
  part_type : option string;
  part_text : option string;
  part_rest : list (string * string)
}.

(** [m.get("content")]: missing or [None], a string, a list of parts, or
    some other value. *)
Inductive Content :=
| CNone
| CStr (s : string)
| CList (parts : list Part)
| COther (repr : string).

(** A message, a [dict]: [m.get("role")], its content and its other entries. *)
Record Message := {
  role : option string;
  content : Content;
  others : list (string * string)
}.

Definition with_content (c : Content) (m : Message) : Message :=
  {| role := role m; content := c; others := others m |}.

Definition text_part (s : string) : Part :=
  {| part_type := Some "text"; part_text := Some s; part_rest := [] |}.

Definition _to_content_list (c : Content) : list Part :=
  match c with
  | CStr s => [text_part s]
  | CList parts => parts
  | _ => []
  end.

Definition is_text (p : Part) : bool :=
  match part_type p with
  | Some t => String.eqb t "text"
  | None => false
  end.

(** [p['text']] *)
Definition text_of (p : Part) : Outcome string :=
  match part_text p with
  | Some s => Return s
  | None => Raise (KeyError "text")
  end.

Definition newline : string := String "010" EmptyString.

(** [f"{a}\n{b}"] *)
Definition join_lines (a b : string) : string :=
  (a ++ newline ++ b)%string.

(** [l[-1]] when there is one. *)
Fixpoint last_item {A : Type} (l : list A) : option A :=
  match l with
  | [] => None
  | [x] => Some x
  | _ :: l' => last_item l'
  end.

Definition _merge_contents (content_a content_b : Content) : Outcome Content :=
  match content_a, content_b with
  | CStr a, CStr b => Return (CStr (join_lines a b))
  | _, _ =>
      let list_a := _to_content_list content_a in
      let list_b := _to_content_list content_b in
      match last_item list_a, list_b with
      | Some last_a, first_b :: rest_b =>
          if is_text last_a && is_text first_b then
            match text_of last_a, text_of first_b with
            | Return ta, Return tb =>
                Return (CList (removelast list_a
                               ++ [text_part (join_lines ta tb)] ++ rest_b))
            | Raise e, _ => Raise e
            | _, Raise e => Raise e
            end
          else Return (CList (list_a ++ list_b))
      | _, _ => Return (CList (list_a ++ list_b))
      end
  end.

(** The filter both normalizers start with. *)
Definition has_content (m : Message) : bool :=
  match content m with
  | CNone => false
  | CStr s => PyStr.truthy (PyStr.strip s)
  | _ => true
  end.

Definition same_role (a b : Message) : bool :=
  match role a, role b with
  | Some x, Some y => String.eqb x y
  | None, None => true
  | _, _ => false
  end.

(** The merge loop: [merged] is [merged_messages] so far. *)
Fixpoint merge_loop (merged cleaned : list Message) : Outcome (list Message) :=
  match cleaned with
  | [] => Return merged
  | msg :: rest =>
      match last_item merged with
      | None => merge_loop (merged ++ [msg]) rest
      | Some last_msg =>
          if same_role msg last_msg then
            match _merge_contents (content last_msg) (content msg) with
            | Return c =>
                merge_loop (removelast merged ++ [with_content c last_msg]) rest
            | Raise e => Raise e
            end
          else merge_loop (merged ++ [msg]) rest
      end
  end.

Definition normalize_for_openai (messages : list Message) : Outcome (list Message) :=
  match List.filter has_content messages with
  | [] => Return []
  | cleaned => merge_loop [] cleaned
  end.

Definition dummy_user : Message :=
  {| role := Some "user"; content := CStr "..."; others := [] |}.

Definition has_role (r : string) (m : Message) : bool :=
  match role m with
  | Some x => String.eqb x r
  | None => false
  end.

(** The second loop of [normalize_for_gemini]. *)
Fixpoint start_correction (conversation_started : bool) (merged : list Message)
  : list Message :=
  match merged with
  | [] => []
  | msg :: rest =>
      if has_role "system" msg then msg :: start_correction conversation_started rest
      else if conversation_started then msg :: start_correction true rest
      else if has_role "assistant" msg
           then dummy_user :: msg :: start_correction true rest
           else msg :: start_correction true rest
  end.

Definition normalize_for_gemini (messages : list Message) : Outcome (list Message) :=
  match List.filter has_content messages with
  | [] => Return []
  | cleaned =>
      match merge_loop [] cleaned with
      | Return merged => Return (start_correction false merged)
      | Raise e => Raise e
      end
  end.

(** The merge loop read from the front: [cur] is the last merged message. *)
Fixpoint merge_from (cur : Message) (rest : list Message) : Outcome (list Message) :=
  match rest with
  | [] => Return [cur]
  | msg :: rest' =>
      if same_role msg cur then
        match _merge_contents (content cur) (content msg) with
        | Return c => merge_from (with_content c cur) rest'
        | Raise e => Raise e
        end
      else
        match merge_from msg rest' with
        | Return l => Return (cur :: l)
        | Raise e => Raise e
        end
  end.

Definition user (s : string) : Message :=
  {| role := Some "user"; content := CStr s; others := [] |}.
Definition assistant (s : string) : Message :=
  {| role := Some "assistant"; content := CStr s; others := [] |}.
Definition system (s : string) : Message :=
  {| role := Some "system"; content := CStr s; others := [] |}.

Definition prepend (init : list Message) (o : Outcome (list Message))
  : Outcome (list Message) :=
  match o with
  | Return l => Return (init ++ l)
  | Raise e => Raise e
  end.

(** [f(f(x))], an exception of the first call being the result. *)
Definition twice (f : list Message -> Outcome (list Message)) (x : list Message)
  : Outcome (list Message) :=
  match f x with
  | Return y => f y
  | Raise e => Raise e
  end.

(** No two neighbours with the same role. *)
Fixpoint alternating (l : list Message) : bool :=
  match l with
  | a :: ((b :: _) as l') => negb (same_role b a) && alternating l'
  | _ => true
  end.

End Normalization.

(** ** Router and execution engine: [core/api/services.py] *)

Module Engine.
Import Errors KeyManager Rotation CacheValidator.

(** *** Configuration, requests, upstream *)

(** An entry of [model_list]. *)
Record ModelConfig := {
  model_name : string;
  provider : string;
  reasoning_mode : option string
}.

(** An entry of [agent_metadata]: [meta.get("main_length")]. *)
Record Metadata := { main_length : option Z }.

Record Config := {
  model_list : list ModelConfig;
  model_group_alias : gmap string (list string);
  agent_metadata : gmap string Metadata
}.

(** [core.common.utils.get_model_config_by_name] *)
Definition get_model_config_by_name (cfg : Config) (internal_model_name : string)
  : option ModelConfig :=
  List.find (fun item => String.eqb (model_name item) internal_model_name)
    (model_list cfg).

(** The chat request: the alias asked for, [stream], and whether [tools] is
    given. *)
Record ChatRequest := { model : string; stream : bool; tools : bool }.

(** A [ChatCompletionResponse]: the message contents of its choices
    ([None] read as the empty string) and its [model_dump_json()]. *)
Record Response := { choices : list string; dump : string }.

(** What a unary adapter call comes back with. *)
Inductive Reply :=
| Answer (result : Response)
| Failure (e : AdapterError).

(** What an adapter's stream will do: yield [chunks], then finish or raise. *)
Inductive StreamEnd :=
| Finished
| Broken (e : AdapterError).

Record ProviderStream := { chunks : list string; ending : StreamEnd }.

(** Everything outside the gateway, for one request.  The adapters are asked
    with the profile, the key and the number of adapter calls made so far;
    [create_cache_key] is [cache_manager.create_cache_key] for the request
    and the given primary profile; [json_loads] is [json.loads], and
    [model_validate_json] the library call of this name, [None] standing
    for its exception. *)
Record Upstream := {
  chat : string -> string -> nat -> Reply;
  chat_stream : string -> string -> nat -> ProviderStream;
  create_cache_key : string -> option string;
  json_loads : string -> Loaded;
  model_validate_json : string -> option Response;
  pattern_found : string -> bool
}.

(** The state of the process a request runs in.  [calls] is a record of the
    adapter calls made, latest first, each with its profile and key; the
    code keeps no such record. *)
Record World := {
  key_manager : ApiKeyManager;
  rotor : Rotor;
  clock : Z;
  calls : list (string * string)
}.

Definition with_keys (f : ApiKeyManager -> ApiKeyManager) (w : World) : World :=
  {| key_manager := f (key_manager w); rotor := rotor w; clock := clock w;
     calls := calls w |}.

Definition with_rotor (ro : Rotor) (w : World) : World :=
  {| key_manager := key_manager w; rotor := ro; clock := clock w;
     calls := calls w |}.

Definition called (profile api_key : string) (w : World) : World :=
  {| key_manager := key_manager w; rotor := rotor w; clock := clock w;
     calls := (profile, api_key) :: calls w |}.

(** The number an adapter call gets. *)
Definition call_number (w : World) : nat := length (calls w).

Definition release (provider api_key : string) : World -> World :=
  with_keys (fun m => release_key m provider api_key).

Definition quarantine (provider api_key rsn : string) (w : World) : World :=
  with_keys (fun m => quarantine_key m provider api_key rsn
                        QUARANTINE_DURATION_SECONDS (clock w)) w.

Definition retire (provider api_key rsn : string) : World -> World :=
  with_keys (fun m => retire_key m provider api_key rsn).

(** [f"HTTP {code}: {message}"] *)
Definition http_reason (code : Z) (message : string) : string :=
  ("HTTP " ++ PyStr.of_int code ++ ": " ++ message)%string.

(** [user.provider_keys[provider]] when the user has a non-empty key for it. *)
Definition user_key_for (provider_keys : list (string * string)) (provider : string)
  : option string :=
  match PyDict.get provider provider_keys with
  | Some k => if PyStr.truthy k then Some k else None
  | None => None
  end.

(** [total_keys + 1 if not provider.startswith("local") else 1] *)
Definition max_attempts_for (w : World) (provider : string) : Z :=
  if is_local provider then 1
  else status_total_keys (key_manager w) provider + 1.

(** *** Unary execution: [_handle_request_execution], [is_streaming=False]

    The rotation of model aliases inside a provider ([get_next_model]) only
    changes the model name handed to the adapter and is part of [chat]. *)

Fixpoint unary_attempts (up : Upstream) (profile provider : string)
    (max_attempts : Z) (left : nat) (last_exception : option exn) (w : World)
  : Outcome Response * World :=
  match left with
  | O =>
      (Raise (ProviderUnavailableError
                ("Failed to execute request to '" ++ provider ++ "' after "
                 ++ PyStr.of_int max_attempts ++ " attempts. Last error: "
                 ++ str last_exception)%string), w)
  | S left' =>
      let again := unary_attempts up profile provider max_attempts left' in
      let (got, km) := get_key (key_manager w) provider in
      let w := with_keys (fun _ => km) w in
      match got with
      | KeyTimeout => again (Some (GetKeyTimeoutError provider)) w
      | NoKey =>
          (* [api_key[:4]] on [None]; the last handler finds no key to release *)
          again (Some TypeError) w
      | GotKey api_key =>
          match chat up profile api_key (call_number w) with
          | Answer result =>
              (Return result, release provider api_key (called profile api_key w))
          | Failure (HTTPStatusError status_code message as e) =>
              let w := called profile api_key w in
              let rsn := http_reason status_code message in
              if (status_code =? 401) || (status_code =? 403) then
                again (Some (FromAdapter e)) (retire provider api_key rsn w)
              else if status_code =? 429 then
                (Raise (ProviderUnavailableError ("HTTP 429: " ++ message)%string),
                 quarantine provider api_key rsn w)
              else if existsb (Z.eqb status_code) [500; 502; 503; 504] then
                again (Some (FromAdapter e)) (quarantine provider api_key rsn w)
              else
                again (Some (FromAdapter e)) (release provider api_key w)
          | Failure e =>
              let w := called profile api_key w in
              again (Some (FromAdapter e))
                (if PyStr.truthy api_key then release provider api_key w else w)
          end
      end
  end.

Definition execute_request_with_key_rotation (up : Upstream)
    (model_config : ModelConfig) (provider_keys : list (string * string))
    (w : World) : Outcome Response * World :=
  let provider := provider model_config in
  match user_key_for provider_keys provider with
  | Some user_key =>
      match chat up (model_name model_config) user_key (call_number w) with
      | Answer result => (Return result, called (model_name model_config) user_key w)
      | Failure e =>
          (Raise (ProviderUnavailableError
                    ("User key failed for '" ++ provider ++ "': "
                     ++ adapter_message e)%string),
           called (model_name model_config) user_key w)
      end
  | None =>
      let max_attempts := max_attempts_for w provider in
      unary_attempts up (model_name model_config) provider max_attempts
        (Z.to_nat max_attempts) None w
  end.

(** *** Streaming execution: [rotation_aware_stream_wrapper]

    An async generator is a state and a function that, asked for the next
    item, yields a chunk, stops, or raises. *)

Inductive Event :=
| Yield (chunk : string)
| StopIteration
| Raised (e : exn).

(** [__anext__] of an adapter's stream. *)
Definition stream_next (s : ProviderStream) : Event * ProviderStream :=
  match chunks s, ending s with
  | c :: cs, _ => (Yield c, {| chunks := cs; ending := ending s |})
  | [], Finished => (StopIteration, {| chunks := []; ending := Finished |})
  | [], Broken e => (Raised (FromAdapter e), {| chunks := []; ending := Finished |})
  end.

(** The wrapper is not yet started, is suspended at [yield chunk] inside an
    attempt, or is over. *)
Inductive Wrapper :=
| NotStarted
| Streaming (api_key : string) (rest : ProviderStream)
| Over.

(** "Handle Key Lifecycle" (lines 180-215). *)
Definition key_lifecycle (provider api_key : string) (e : AdapterError) (w : World)
  : World :=
  if PyStr.truthy api_key then
    match e with
    | HTTPStatusError code error_msg =>
        if code =? 429 then
          quarantine provider api_key ("HTTP 429: " ++ error_msg)%string w
        else if (code =? 401) || (code =? 403) then
          retire provider api_key (http_reason code error_msg) w
        else if 500 <=? code then
          quarantine provider api_key (http_reason code error_msg) w
        else release provider api_key w
    | _ => release provider api_key w
    end
  else w.

(** What the handler raises when the stream has not started: a rate limit
    on a held key turns into [ProviderUnavailableError], anything else lets
    the loop go on ([None]). *)
Definition raised_before_start (api_key : string) (e : AdapterError) : option exn :=
  match e with
  | HTTPStatusError code error_msg =>
      if PyStr.truthy api_key && (code =? 429)
      then Some (ProviderUnavailableError ("HTTP 429: " ++ error_msg)%string)
      else None
  | _ => None
  end.

(** The attempts loop up to its first [yield], its [return] or its [raise]. *)
Fixpoint stream_attempts (up : Upstream) (profile provider : string)
    (max_attempts : Z) (left : nat) (last_exception : option exn) (w : World)
  : Event * Wrapper * World :=
  match left with
  | O =>
      (Raised (ProviderUnavailableError
                 ("Streaming failed after " ++ PyStr.of_int max_attempts
                  ++ " attempts. Last error: " ++ str last_exception)%string),
       Over, w)
  | S left' =>
      let again := stream_attempts up profile provider max_attempts left' in
      let (got, km) := get_key (key_manager w) provider in
      let w := with_keys (fun _ => km) w in
      match got with
      | KeyTimeout => again (Some (GetKeyTimeoutError provider)) w
      | NoKey => again (Some TypeError) w
      | GotKey api_key =>
          let s := chat_stream up profile api_key (call_number w) in
          let w := called profile api_key w in
          match chunks s, ending s with
          | c :: cs, _ =>
              (Yield c, Streaming api_key {| chunks := cs; ending := ending s |}, w)
          | [], Finished => (StopIteration, Over, release provider api_key w)
          | [], Broken e =>
              let w := key_lifecycle provider api_key e w in
              match raised_before_start api_key e with
              | Some x => (Raised x, Over, w)
              | None => again (Some (FromAdapter e)) w
              end
          end
      end
  end.

(** [__anext__] of the wrapper.  Once a chunk has been yielded
    ([stream_started]), both raising sites of the handler re-raise the error
    of the adapter. *)
Definition rotation_aware_stream_wrapper (up : Upstream) (profile provider : string)
    (st : Wrapper) (w : World) : Event * Wrapper * World :=
  match st with
  | NotStarted =>
      let max_attempts := max_attempts_for w provider in
      stream_attempts up profile provider max_attempts (Z.to_nat max_attempts)
        None w
  | Streaming api_key s =>
      match chunks s, ending s with
      | c :: cs, _ =>
          (Yield c, Streaming api_key {| chunks := cs; ending := ending s |}, w)
      | [], Finished => (StopIteration, Over, release provider api_key w)
      | [], Broken e =>
          (Raised (FromAdapter e), Over, key_lifecycle provider api_key e w)
      end
  | Over => (StopIteration, Over, w)
  end.

(** What [execute_streaming_request_with_key_rotation] returns: the wrapper,
    or with a user key the adapter's own generator. *)
Inductive Generator :=
| Rotating (profile provider : string) (st : Wrapper)
| Direct (s : ProviderStream).

Definition generator_next (up : Upstream) (g : Generator) (w : World)
  : Event * Generator * World :=
  match g with
  | Rotating profile provider st =>
      let '(ev, st', w') := rotation_aware_stream_wrapper up profile provider st w in
      (ev, Rotating profile provider st', w')
  | Direct s => let (ev, s') := stream_next s in (ev, Direct s', w)
  end.

Definition execute_streaming_request_with_key_rotation (up : Upstream)
    (model_config : ModelConfig) (provider_keys : list (string * string))
    (w : World) : Generator * World :=
  match user_key_for provider_keys (provider model_config) with
  | Some user_key =>
      (Direct (chat_stream up (model_name model_config) user_key (call_number w)),
       called (model_name model_config) user_key w)
  | None => (Rotating (model_name model_config) (provider model_config) NotStarted, w)
  end.

(** [chained_generator]: the chunk peeked, if it is a non-empty one, then the
    rest of the iterator. *)
Record Chained := { first_chunk : option string; iterator : Generator }.

Definition chained_generator (up : Upstream) (c : Chained) (w : World)
  : Event * Chained * World :=
  let relay :=
    let '(ev, g, w') := generator_next up (iterator c) w in
    (ev, {| first_chunk := None; iterator := g |}, w') in
  match first_chunk c with
  | Some chunk =>
      if PyStr.truthy chunk
      then (Yield chunk, {| first_chunk := None; iterator := iterator c |}, w)
      else relay
  | None => relay
  end.

(** What the HTTP layer sees of a generator it iterates [fuel] times at most:
    the chunks, and how the iteration ended ([None]: still going). *)
Fixpoint consume (up : Upstream) (fuel : nat) (c : Chained) (w : World)
  : list string * option Event * World :=
  match fuel with
  | O => ([], None, w)
  | S fuel' =>
      match chained_generator up c w with
      | (Yield chunk, c', w') =>
          let '(cs, fin, w'') := consume up fuel' c' w' in (chunk :: cs, fin, w'')
      | (ev, _, w') => ([], Some ev, w')
      end
  end.

(** *** Routing: [route_request] *)

(** [l[:n]], [l[n:]] and [l[i]] with Python's reading of negative numbers;
    [None] is [IndexError]. *)
Definition py_len {A : Type} (l : list A) : Z := Z.of_nat (length l).

Definition py_take {A : Type} (n : Z) (l : list A) : list A :=
  firstn (Z.to_nat (if n <? 0 then py_len l + n else n)) l.

Definition py_drop {A : Type} (n : Z) (l : list A) : list A :=
  skipn (Z.to_nat (if n <? 0 then py_len l + n else n)) l.

Definition py_index {A : Type} (l : list A) (i : Z) : option A :=
  let j := if i <? 0 then py_len l + i else i in
  if j <? 0 then None else nth_error l (Z.to_nat j).

(** "Pick One, Fail to Fallback" (lines 425-437). *)
Definition select_chain (priority_chain : list string) (pool_size start_index : Z)
  : Outcome (list string) :=
  if pool_size <=? py_len priority_chain then
    let main_pool := py_take pool_size priority_chain in
    let fallbacks := py_drop pool_size priority_chain in
    if start_index <? py_len main_pool then
      match py_index main_pool start_index with
      | Some selected_model => Return (selected_model :: fallbacks)
      | None => Raise IndexError
      end
    else Return priority_chain
  else Return priority_chain.

(** Lines 398-437: the chain the loops below iterate. *)
Definition load_balance (cfg : Config) (requested_alias : string)
    (priority_chain : list string) (w : World) : Outcome (list string) * World :=
  match agent_metadata cfg !! requested_alias with
  | Some {| main_length := Some pool_size |} =>
      let (start_index, ro) :=
        get_rotation_index (rotor w) requested_alias pool_size in
      (select_chain priority_chain pool_size start_index, with_rotor ro w)
  | _ => (Return priority_chain, w)
  end.

(** Lines 440-471: the response served from the cache, if any, and
    [cache_key]. *)
Definition cache_read (up : Upstream) (cfg : Config) (priority_chain : list string)
    (w : World) : option Response * option string :=
  match redis_client (rotor w), priority_chain with
  | Some r, primary_model_name :: _ =>
      match get_model_config_by_name cfg primary_model_name with
      | Some _ =>
          match create_cache_key up primary_model_name with
          | Some cache_key =>
              if PyStr.truthy cache_key then
                match redis_get r cache_key with
                | Some (Some cached_response) =>
                    if PyStr.truthy cached_response then
                      match is_content_safe_to_cache (json_loads up) cached_response with
                      | Return true =>
                          (model_validate_json up cached_response, Some cache_key)
                      | _ => (None, Some cache_key)
                      end
                    else (None, Some cache_key)
                | _ => (None, Some cache_key)
                end
              else (None, Some cache_key)
          | None => (None, None)
          end
      | None => (None, None)
      end
  | _, _ => (None, None)
  end.

(** Lines 557-588: the write after a provider answered.  What the validator
    raises is not caught. *)
Definition cache_write (up : Upstream) (cache_key : option string)
    (result : Response) (w : World) : Outcome unit * World :=
  match redis_client (rotor w), cache_key with
  | Some r, Some key =>
      if PyStr.truthy key then
        match choices result with
        | content :: _ =>
            match is_content_safe_to_cache (json_loads up) content with
            | Return true =>
                match redis_set r key (dump result) with
                | Some r' =>
                    (Return tt,
                     with_rotor {| agent_rotation_state := agent_rotation_state (rotor w);
                                   redis_client := Some r' |} w)
                | None => (Return tt, w)
                end
            | Return false => (Return tt, w)
            | Raise e => (Raise e, w)
            end
        | [] => (Return tt, w)
        end
      else (Return tt, w)
  | _, _ => (Return tt, w)
  end.

(** How [route_request] ends: with the generator handed to the HTTP layer,
    with a response (from the cache or from a provider), or with an error. *)
Inductive Routed :=
| Streamed (profile : string) (body : Chained)
| Replied (result : Response) (from_cache : bool)
| Failed (e : exn).

Definition all_unavailable (requested_alias : string) (last_provider_error : option exn)
  : exn :=
  HTTPException 503
    ("All providers for '" ++ requested_alias ++ "' are unavailable. Last error: "
     ++ str last_provider_error)%string.

(** The loop over the chain, [is_streaming] set (lines 474-550, 591-602). *)
Fixpoint stream_chain (up : Upstream) (cfg : Config) (provider_map : list string)
    (provider_keys : list (string * string)) (requested_alias : string)
    (chain : list string) (last_provider_error : option exn) (w : World)
  : Routed * World :=
  match chain with
  | [] => (Failed (all_unavailable requested_alias last_provider_error), w)
  | internal_model_name :: rest =>
      let next := stream_chain up cfg provider_map provider_keys requested_alias rest in
      match get_model_config_by_name cfg internal_model_name with
      | None => next last_provider_error w
      | Some model_config =>
          if negb (existsb (String.eqb (provider model_config)) provider_map)
          then next last_provider_error w
          else
            let (generator, w) :=
              execute_streaming_request_with_key_rotation up model_config
                provider_keys w in
            match generator_next up generator w with
            | (Yield chunk, iterator, w) =>
                (Streamed internal_model_name
                   {| first_chunk := Some chunk; iterator := iterator |}, w)
            | (StopIteration, iterator, w) =>
                (Streamed internal_model_name
                   {| first_chunk := None; iterator := iterator |}, w)
            | (Raised e, _, w) =>
                let e :=
                  if is_unavailable e then e
                  else ProviderUnavailableError
                         ("Stream startup failed: " ++ str (Some e))%string in
                next (Some e) w
            end
      end
  end.

(** The loop over the chain, [is_streaming] not set (lines 474-485, 552-602). *)
Fixpoint unary_chain (up : Upstream) (cfg : Config) (provider_map : list string)
    (provider_keys : list (string * string)) (requested_alias : string)
    (cache_key : option string) (chain : list string)
    (last_provider_error : option exn) (w : World) : Routed * World :=
  match chain with
  | [] => (Failed (all_unavailable requested_alias last_provider_error), w)
  | internal_model_name :: rest =>
      let next :=
        unary_chain up cfg provider_map provider_keys requested_alias cache_key rest in
      match get_model_config_by_name cfg internal_model_name with
      | None => next last_provider_error w
      | Some model_config =>
          if negb (existsb (String.eqb (provider model_config)) provider_map)
          then next last_provider_error w
          else
            match execute_request_with_key_rotation up model_config provider_keys w with
            | (Return result, w) =>
                match cache_write up cache_key result w with
                | (Return _, w) => (Replied result false, w)
                | (Raise e, w) => (Failed e, w)
                end
            | (Raise e, w) =>
                if is_unavailable e then next (Some e) w else (Failed e, w)
            end
      end
  end.

Definition route_request (up : Upstream) (cfg : Config) (provider_map : list string)
    (provider_keys : list (string * string)) (req : ChatRequest) (w : World)
  : Routed * World :=
  let requested_alias := model req in
  match model_group_alias cfg !! requested_alias with
  | None | Some [] =>
      (Failed (HTTPException 404
                 ("Model alias '" ++ requested_alias ++ "' not found.")%string), w)
  | Some priority_chain =>
      match load_balance cfg requested_alias priority_chain w with
      | (Raise e, w) => (Failed e, w)
      | (Return priority_chain, w) =>
          if stream req then
            stream_chain up cfg provider_map provider_keys requested_alias
              priority_chain None w
          else
            match cache_read up cfg priority_chain w with
            | (Some cached, _) => (Replied cached true, w)
            | (None, cache_key) =>
                unary_chain up cfg provider_map provider_keys requested_alias
                  cache_key priority_chain None w
            end
      end
  end.

(** *** The agent's LLM step: [StreamingManager._execute_llm_step]

    The step is a generator that the drivers iterate to its end; it is
    given here by what it has yielded when it ends and by how it ends. *)

(** The adapters [_execute_llm_step] knows. *)
Definition step_provider_map : list string :=
  [ "google"; "openai"; "mistral"; "deepseek"; "anthropic"; "local"; "groq";
    "cerebras"; "sambanova"; "cohere" ].

Definition bad_request (detail : string) : exn :=
  FromAdapter (LLMBadRequestError detail).

(** The system-key attempts of one profile (lines 398-447): the chunks
    yielded, and [Some] outcome when the step ends here, [None] when the
    chain goes on with [last_error_for_chain]. *)
Fixpoint step_attempts (up : Upstream) (profile provider : string) (left : nat)
    (last_error_for_chain : option exn) (w : World)
  : list string * option (Outcome unit) * option exn * World :=
  match left with
  | O => ([], None, last_error_for_chain, w)
  | S left' =>
      let (got, km) := get_key (key_manager w) provider in
      let w := with_keys (fun _ => km) w in
      let api_key :=
        match got with
        | GotKey k => if PyStr.truthy k then Some k else None
        | _ => None
        end in
      match got, api_key with
      | KeyTimeout, _ =>
          ([], Some (Raise (GetKeyTimeoutError provider)), last_error_for_chain, w)
      | _, None =>
          ([], None,
           Some (ProviderUnavailableError ("No keys for '" ++ provider ++ "'")%string),
           w)
      | _, Some api_key =>
          let s := chat_stream up profile api_key (call_number w) in
          let w := called profile api_key w in
          match ending s with
          | Finished =>
              (chunks s, Some (Return tt), last_error_for_chain,
               release provider api_key w)
          | Broken (HTTPStatusError code message as e) =>
              if code =? 400 then
                (chunks s,
                 Some (Raise (bad_request
                                ("Provider returned 400 Bad Request: " ++ message)%string)),
                 last_error_for_chain, release provider api_key w)
              else
                let '(cs, fin, last, w) :=
                  step_attempts up profile provider left' (Some (FromAdapter e))
                    (quarantine provider api_key message w) in
                (chunks s ++ cs, fin, last, w)
          | Broken (LLMBadRequestError detail as e) =>
              (chunks s, Some (Raise (FromAdapter e)), last_error_for_chain,
               release provider api_key w)
          | Broken (OtherError detail as e) =>
              let '(cs, fin, last, w) :=
                step_attempts up profile provider left' (Some (FromAdapter e))
                  (quarantine provider api_key detail w) in
              (chunks s ++ cs, fin, last, w)
          end
      end
  end.

(** The loop over [self.priority_chain] (lines 243-450).  [pattern_found]
    tells whether the pattern of a profile with a reasoning mode other than
    native tool calling could be loaded. *)
Fixpoint _execute_llm_step (up : Upstream) (cfg : Config)
    (provider_keys : list (string * string)) (chain : list string)
    (last_error_for_chain : option exn) (w : World)
  : list string * Outcome unit * World :=
  match chain with
  | [] =>
      ([], Raise (ProviderUnavailableError
                    ("All providers failed. Last error: "
                     ++ str last_error_for_chain)%string), w)
  | model_name :: rest =>
      let next := _execute_llm_step up cfg provider_keys rest in
      match get_model_config_by_name cfg model_name with
      | None => next last_error_for_chain w
      | Some model_config =>
          let provider := provider model_config in
          if negb (existsb (String.eqb provider) step_provider_map)
          then next last_error_for_chain w
          else if negb (pattern_found up model_name)
          then next last_error_for_chain w
          else
            match user_key_for provider_keys provider with
            | Some user_key =>
                let s := chat_stream up model_name user_key (call_number w) in
                let w := called model_name user_key w in
                match ending s with
                | Finished => (chunks s, Return tt, w)
                | Broken (HTTPStatusError code message as e) =>
                    if code =? 400 then
                      (chunks s,
                       Raise (bad_request ("Provider returned 400: " ++ message)%string),
                       w)
                    else
                      let '(cs, fin, w) := next (Some (FromAdapter e)) w in
                      (chunks s ++ cs, fin, w)
                | Broken e =>
                    let '(cs, fin, w) := next (Some (FromAdapter e)) w in
                    (chunks s ++ cs, fin, w)
                end
            | None =>
                match step_attempts up model_name provider 3 last_error_for_chain w with
                | (cs, Some fin, _, w) => (cs, fin, w)
                | (cs, None, last, w) =>
                    let '(cs', fin, w) := next last w in (cs ++ cs', fin, w)
                end
            end
      end
  end.

(** *** The dispatcher: [handle_unified_chat_completions]
    ([core/api/routes/chat.py]) *)

(** [deque.rotate(-k)] for [k >= 0] *)
Definition rotate_left {A : Type} (k : Z) (l : list A) : list A :=
  match l with
  | [] => []
  | _ => let r := Z.to_nat (k mod py_len l) in skipn r l ++ firstn r l
  end.

(** "Runtime Load Balancing" (lines 94-113): the rotation index comes from
    the in-process counter, no client being passed. *)
Definition rotate_chain (cfg : Config) (requested_alias : string)
    (priority_chain : list string) (w : World) : list string * World :=
  match agent_metadata cfg !! requested_alias with
  | Some meta =>
      let main_length := match main_length meta with Some n => n | None => 0 end in
      if 1 <? main_length then
        let (rotation_index, ro) :=
          get_rotation_index
            {| agent_rotation_state := agent_rotation_state (rotor w);
               redis_client := None |} requested_alias main_length in
        (rotate_left rotation_index (py_take main_length priority_chain)
         ++ py_drop main_length priority_chain,
         with_rotor {| agent_rotation_state := agent_rotation_state ro;
                       redis_client := redis_client (rotor w) |} w)
      else (priority_chain, w)
  | None => (priority_chain, w)
  end.

(** Where a chat request goes: to an agent driver, whose LLM steps iterate
    [priority_chain], or through [route_request]. *)
Inductive Dispatched :=
| ToAgent (priority_chain : list string)
| ToEngine (r : Routed)
| Rejected (e : exn).

(** [session_cfg] is the configuration with the user's overrides, [cfg] the
    one of the application; [stream_map] and [chat_map] are
    [PROVIDER_MAP_CHAT_STREAM] and [PROVIDER_MAP_CHAT]. *)
Definition handle_unified_chat_completions (up : Upstream)
    (session_cfg cfg : Config) (stream_map chat_map : list string)
    (provider_keys : list (string * string)) (req : ChatRequest) (w : World)
  : Dispatched * World :=
  let requested_alias := model req in
  match model_group_alias session_cfg !! requested_alias with
  | None | Some [] =>
      (Rejected (HTTPException 404
                   ("Model alias '" ++ requested_alias
                    ++ "' not found in router_settings.")%string), w)
  | Some priority_chain =>
      let (priority_chain, w) :=
        rotate_chain session_cfg requested_alias priority_chain w in
      let mode :=
        match priority_chain with
        | primary :: _ =>
            match get_model_config_by_name session_cfg primary with
            | Some primary_model_config => reasoning_mode primary_model_config
            | None => None
            end
        | [] => None
        end in
      let is_agent :=
        match mode with
        | Some m => PyStr.truthy m
        | None => false
        end || tools req in
      if is_agent then (ToAgent priority_chain, w)
      else
        let (r, w) :=
          route_request up cfg (if stream req then stream_map else chat_map)
            provider_keys req w in
        (ToEngine r, w)
  end.

(** *** A generator that has yielded *)

(** The generator is past its first item: the wrapper is inside an attempt
    or over, the adapter's own generator is what it is. *)
Definition committed (g : Generator) : bool :=
  match g with
  | Rotating _ _ NotStarted => false
  | _ => true
  end.


(** *** Sample deployment *)

Definition profile (name prov : string) (mode : option string) : ModelConfig :=
  {| model_name := name; provider := prov; reasoning_mode := mode |}.

Definition sample_cfg : Config :=
  {| model_list :=
       [ profile "groq-p" "groq" None; profile "cerebras-p" "cerebras" None;
         profile "sambanova-p" "sambanova" None; profile "mistral-p" "mistral" None;
         profile "groq-react" "groq" (Some "linear_react");
         profile "cerebras-react" "cerebras" (Some "linear_react");
         profile "sambanova-react" "sambanova" (Some "linear_react");
         profile "mistral-react" "mistral" (Some "linear_react") ];
     model_group_alias :=
       {[ "fast_chat" := ["groq-p"; "cerebras-p"; "sambanova-p"; "mistral-p"];
          "coding_agent" :=
            ["groq-react"; "cerebras-react"; "sambanova-react"; "mistral-react"] ]};
     agent_metadata :=
       {[ "fast_chat" := {| main_length := Some 3 |};
          "coding_agent" := {| main_length := Some 3 |} ]} |}.

Definition pool_with (keys : list string) : Pool :=
  load_keys keys [] keys empty_pool.

(** Pools for three providers; sambanova has none. *)
Definition sample_keys : ApiKeyManager :=
  {| pools := {[ "groq" := pool_with ["gsk-1"; "gsk-2"; "gsk-3"];
                 "cerebras" := pool_with ["csk-1"];
                 "mistral" := pool_with ["msk-1"] ]} |}.

Definition sample_world : World :=
  {| key_manager := sample_keys; rotor := memory_backend; clock := 1000; calls := [] |}.

Definition providers : list string :=
  ["google"; "mistral"; "cerebras"; "groq"; "sambanova"; "cohere"].

Definition hello : Response := {| choices := ["Hello"]; dump := "Hello" |}.

Definition quiet : Upstream :=
  {| chat := fun _ _ _ => Answer hello;
     chat_stream := fun _ _ _ => {| chunks := ["Hel"; "lo"]; ending := Finished |};
     create_cache_key := fun _ => None;
     json_loads := fun _ => JSONDecodeError;
     model_validate_json := fun _ => None;
     pattern_found := fun _ => true |}.

Definition on_groq (name : string) : bool :=
  String.eqb name "groq-p" || String.eqb name "groq-react".

(** groq answers every call with the given status. *)
Definition groq_fails (code : Z) : Upstream :=
  {| chat := fun name _ _ =>
               if on_groq name then Failure (HTTPStatusError code "refused")
               else Answer hello;
     chat_stream := fun name _ _ =>
               if on_groq name
               then {| chunks := []; ending := Broken (HTTPStatusError code "refused") |}
               else {| chunks := ["Hel"; "lo"]; ending := Finished |};
     create_cache_key := fun _ => None;
     json_loads := fun _ => JSONDecodeError;
     model_validate_json := fun _ => None;
     pattern_found := fun _ => true |}.

(** groq yields one chunk and then the connection resets. *)
Definition groq_resets : Upstream :=
  {| chat := fun _ _ _ => Answer hello;
     chat_stream := fun name _ _ =>
               if on_groq name
               then {| chunks := ["Hel"]; ending := Broken (OtherError "reset") |}
               else {| chunks := ["Hel"; "lo"]; ending := Finished |};
     create_cache_key := fun _ => None;
     json_loads := fun _ => JSONDecodeError;
     model_validate_json := fun _ => None;
     pattern_found := fun _ => true |}.

Definition ask (alias : string) (streaming : bool) : ChatRequest :=
  {| model := alias; stream := streaming; tools := false |}.

(** *** Sample cache *)

Definition quote : string := String "034" EmptyString.

(** The texts [{"id": 1}], [{"error": "boom"}] and [{"status_code": 500}]. *)
Definition good_text : string := ("{" ++ quote ++ "id" ++ quote ++ ": 1}")%string.
Definition error_text : string :=
  ("{" ++ quote ++ "error" ++ quote ++ ": " ++ quote ++ "boom" ++ quote ++ "}")%string.
Definition status_text : string :=
  ("{" ++ quote ++ "status_code" ++ quote ++ ": 500}")%string.

(** [json.loads] on these three texts; every other text is refused. *)
Definition sample_loads (s : string) : Loaded :=
  if String.eqb s good_text then Parsed (JDict [("id", JInt 1)])
  else if String.eqb s error_text then Parsed (JDict [("error", JString "boom")])
  else if String.eqb s status_text then Parsed (JDict [("status_code", JInt 500)])
  else JSONDecodeError.

Definition cached_hello : Response := {| choices := ["Hello"]; dump := good_text |}.

Definition caching : Upstream :=
  {| chat := fun _ _ _ => Answer hello;
     chat_stream := fun _ _ _ => {| chunks := ["Hel"; "lo"]; ending := Finished |};
     create_cache_key := fun _ => Some "magic_proxy:cache:0a1b";
     json_loads := sample_loads;
     model_validate_json :=
       fun s => if String.eqb s good_text then Some cached_hello else None;
     pattern_found := fun _ => true |}.

(** A world whose cache holds [text] for the request. *)
Definition world_caching (text : string) : World :=
  {| key_manager := sample_keys;
     rotor := {| agent_rotation_state := ∅;
                 redis_client :=
                   Some {| counters := ∅;
                           entries := {[ "magic_proxy:cache:0a1b" := text ]};
                           reachable := true |} |};
     clock := 1000; calls := [] |}.

(** An alias without load balancing. *)
Definition plain_cfg : Config :=
  {| model_list := [profile "groq-p" "groq" None; profile "mistral-p" "mistral" None];
     model_group_alias := {[ "plain" := ["groq-p"; "mistral-p"] ]};
     agent_metadata := ∅ |}.

End Engine.

(** ** Loading and inspecting the pools: [core/providers/key_manager.py] *)

Module KeyLoading.
Import KeyManager.

(** What the process finds under [keys_pool/]: [listing] are the base names
    of the paths [glob.glob("keys_pool/*_*.env")] returns (none when the
    directory does not exist), [read] gives the lines of a file as iterating
    over it yields them, [None] for a path that does not exist or cannot be
    read. *)
Record KeysPool := {
  listing : list string;
  read : string -> option (list string)
}.

Definition kept_line (line : string) : bool :=
  PyStr.truthy (PyStr.strip line) && negb (PyStr.startswith "#" line).

Definition _load_keys_from_file (env : KeysPool) (file_path : string) : list string :=
  match read env file_path with
  | None => []
  | Some lines => map PyStr.strip (List.filter kept_line lines)
  end.

(** [filename[:-9]] *)
Definition drop_last_9 (filename : string) : string :=
  substring 0 (String.length filename - 9) filename.

(** The discovery phase: the provider names the listing gives, one for each
    [{provider}_free.env] and [{provider}_paid.env]. *)
Definition discovered_providers (env : KeysPool) : list string :=
  flat_map (fun filename =>
              if PyStr.endswith "_free.env" filename then [drop_last_9 filename]
              else if PyStr.endswith "_paid.env" filename then [drop_last_9 filename]
              else [])
    (listing env).

Definition _init_provider_pool (pools : gmap string Pool) (provider : string)
  : gmap string Pool :=
  match pools !! provider with
  | Some _ => pools
  | None => <[provider := empty_pool]> pools
  end.

(** [ApiKeyManager(providers)] *)
Definition init (providers : list string) : ApiKeyManager :=
  {| pools := list_to_map (map (fun provider => (provider, empty_pool)) providers) |}.

Definition key_source_provider (provider : string) : string :=
  if existsb (String.eqb provider) ["google-embedding"; "google-stt"; "google-tts"]
  then "google" else provider.

(** The free and the paid keys of a provider, with the legacy file read when
    both are empty. *)
Definition found_keys (env : KeysPool) (provider : string) : list string * list string :=
  let source := key_source_provider provider in
  let free_keys := _load_keys_from_file env ("keys_pool/" ++ source ++ "_free.env")%string in
  let paid_keys := _load_keys_from_file env ("keys_pool/" ++ source ++ "_paid.env")%string in
  match free_keys, paid_keys with
  | [], [] =>
      (free_keys
       ++ _load_keys_from_file env ("keys_pool/keys_pool_" ++ source ++ ".env")%string,
       paid_keys)
  | _, _ => (free_keys, paid_keys)
  end.

(** [load_all_keys]: [shuffle provider] is what [random.shuffle] makes of the
    keys of [provider] in this run.  The order in which the providers are
    visited does not reach the pools; [key_metadata], which the repository
    writes here and reads nowhere, and the registration of the keys with the
    logging filter are left out. *)
Definition load_all_keys (env : KeysPool) (shuffle : string -> list string -> list string)
    (m : ApiKeyManager) : ApiKeyManager :=
  let known := fold_left _init_provider_pool (discovered_providers env) (pools m) in
  {| pools :=
       map_imap (fun provider pool =>
                   Some (if is_local provider then pool
                         else
                           let (free_keys, paid_keys) := found_keys env provider in
                           load_keys free_keys paid_keys
                             (shuffle provider (free_keys ++ paid_keys)) pool))
         known |}.

(** One entry of [get_full_status]. *)
Record Status := {
  status_available : Z;
  status_quarantined : Z;
  status_retired : Z;
  status_total : Z
}.

Definition get_full_status (m : ApiKeyManager) : gmap string Status :=
  (fun data => {| status_available := Z.of_nat (length (available data));
                  status_quarantined := Z.of_nat (length (quarantined data));
                  status_retired := Z.of_nat (length (retired data));
                  status_total := total_keys data |}) <$> pools m.

(** [get_verification_key]: [choice] is [random.choice] on a non-empty list. *)
Definition get_verification_key (choice : list string -> string) (m : ApiKeyManager)
    (provider : string) : option string :=
  match pools m !! provider with
  | None => None
  | Some pool =>
      match free_keys pool, paid_keys pool with
      | _ :: _, _ => Some (choice (free_keys pool))
      | [], _ :: _ => Some (choice (paid_keys pool))
      | [], [] => None
      end
  end.

(** A sample [keys_pool/]: groq has a free and a paid file, mistral only the
    legacy one. *)
Definition nl : string := String "010" EmptyString.

Definition sample_env : KeysPool :=
  {| listing := ["groq_free.env"; "groq_paid.env"; "keys_pool_mistral.env"];
     read := fun path =>
       if String.eqb path "keys_pool/groq_free.env"
       then Some [("# free tier" ++ nl)%string; ("gsk-a" ++ nl)%string; nl;
                  ("  gsk-b  " ++ nl)%string]
       else if String.eqb path "keys_pool/groq_paid.env"
       then Some ["gsk-c"]
       else if String.eqb path "keys_pool/keys_pool_mistral.env"
       then Some [("msk-a" ++ nl)%string]
       else None |}.

(** A pool with one key in the queue and two in quarantine. *)
Definition groq_waiting : Pool :=
  {| available := ["gsk-a"];
     quarantined := [("gsk-b", {| reason := "HTTP 429"; end_time := 1300 |});
                     ("gsk-c", {| reason := "HTTP 500"; end_time := 1500 |})];
     retired := []; total_keys := 3;
     free_keys := ["gsk-a"; "gsk-b"]; paid_keys := ["gsk-c"] |}.

Definition waiting : ApiKeyManager := {| pools := {[ "groq" := groq_waiting ]} |}.

End KeyLoading.

(** ** Model rotation inside a provider: [get_next_model]
    ([core/providers/rotation_manager.py]) *)

Module ModelRotation.

(** [_initialize_state]: for every provider of [aliases_config] the entry of
    [_rotation_state] is replaced by a fresh dictionary with a [deque] of the
    models of each alias; the entries of other providers stay. *)
Definition _initialize_state (aliases_config : gmap string (gmap string (list string)))
    (_rotation_state : gmap string (gmap string (list string)))
  : gmap string (gmap string (list string)) :=
  map_fold (fun provider aliases st =>
              <[provider :=
                  map_fold (fun alias_name models d => <[alias_name := models]> d)
                    ∅ aliases]> st)
    _rotation_state aliases_config.

(** [update_aliases] *)
Definition update_aliases (new_aliases : gmap string (gmap string (list string)))
    (_rotation_state : gmap string (gmap string (list string)))
  : gmap string (gmap string (list string)) :=
  _initialize_state new_aliases _rotation_state.

(** [get_next_model]: the model at the head of the queue, which is rotated by
    one ([model_queue.rotate(-1)]); the alias itself when nothing is known
    about it. *)
Definition get_next_model (_rotation_state : gmap string (gmap string (list string)))
    (provider alias_name : string)
  : string * gmap string (gmap string (list string)) :=
  match _rotation_state !! provider with
  | None => (alias_name, _rotation_state)
  | Some provider_state =>
      if bool_decide (provider_state = ∅) then (alias_name, _rotation_state)
      else
        match provider_state !! alias_name with
        | None | Some [] => (alias_name, _rotation_state)
        | Some (model :: rest) =>
            (model,
             <[provider := <[alias_name := rest ++ [model]]> provider_state]>
               _rotation_state)
        end
  end.

(** [n] calls in a row for one provider and alias. *)
Fixpoint next_models (n : nat) (st : gmap string (gmap string (list string)))
    (provider alias_name : string)
  : list string * gmap string (gmap string (list string)) :=
  match n with
  | O => ([], st)
  | S n' =>
      let (model, st') := get_next_model st provider alias_name in
      let (models, st'') := next_models n' st' provider alias_name in
      (model :: models, st'')
  end.

(** A [deque] after [k] calls of [rotate(-1)]. *)
Definition rotated (k : nat) (l : list string) : list string :=
  skipn (k mod length l) l ++ firstn (k mod length l) l.

Definition sample_aliases : gmap string (gmap string (list string)) :=
  {[ "groq" := {[ "llama" := ["llama-a"; "llama-b"; "llama-c"] ]} ]}.

End ModelRotation.

(** ** The engine as a caller of the pool *)

Module Discipline.
Import KeyManager Engine.

(** Every key waiting in a queue is a non-empty string, as the keys read
    from the key files are. *)
Definition usable (m : ApiKeyManager) : Prop :=
  forall p pool k,
    pools m !! p = Some pool -> In k (available pool) -> PyStr.truthy k = true.

(** The manager [m'] and the record of checked-out keys [h'] are reached
    from [m] and [h] by operations of callers that hand back only what they
    hold. *)
Definition reaches (m : ApiKeyManager) (h : list (string * string))
    (m' : ApiKeyManager) (h' : list (string * string)) : Prop :=
  exists ops,
    run_tracked ops {| mgr := m; held := h |} = Some {| mgr := m'; held := h' |}.

(** The key a generator has checked out while it is suspended inside an
    attempt. *)
Definition holding (g : Generator) : list (string * string) :=
  match g with
  | Rotating _ provider (Streaming api_key _) =>
      if is_local provider then [] else [(provider, api_key)]
  | _ => []
  end.

Definition key_in_hand (g : Generator) : Prop :=
  match g with
  | Rotating _ _ (Streaming api_key _) => PyStr.truthy api_key = true
  | _ => True
  end.

(** An event that ends the iteration. *)
Definition final (ev : Event) : bool :=
  match ev with
  | Yield _ => false
  | _ => true
  end.

End Discipline.

(** ** The response cache of a world *)

Module CacheState.
Import Rotation Engine.

(** The string entries of the store behind [redis_client]; nothing when
    there is no client. *)
Definition cache_of (w : World) : gmap string string :=
  match redis_client (rotor w) with
  | Some r => entries r
  | None => ∅
  end.

End CacheState.

(** ** An answer the validator cannot read *)

Module ValidatorSamples.
Import Errors KeyManager Rotation CacheValidator Engine.

(** A number of 4301 digits, one more than [int] converts from a text. *)
Definition long_number : string := string_of_list_ascii (repeat "9"%char 4301).

(** The text [{"n": 99...9}]. *)
Definition huge_text : string :=
  ("{" ++ quote ++ "n" ++ quote ++ ": " ++ long_number ++ "}")%string.

(** [json.loads] on that text; every other text is refused. *)
Definition huge_loads (s : string) : Loaded :=
  if String.eqb s huge_text
  then LoadsRaised (ValueError "Exceeds the limit (4300 digits) for integer string conversion")
  else JSONDecodeError.

Definition huge_answer : Response := {| choices := [huge_text]; dump := huge_text |}.

(** Every provider answers with that text. *)
Definition answering_huge : Upstream :=
  {| chat := fun _ _ _ => Answer huge_answer;
     chat_stream := fun _ _ _ => {| chunks := [huge_text]; ending := Finished |};
     create_cache_key := fun _ => Some "magic_proxy:cache:0a1b";
     json_loads := huge_loads;
     model_validate_json := fun _ => None;
     pattern_found := fun _ => true |}.

(** A world with a store and nothing cached. *)
Definition world_empty_cache : World :=
  {| key_manager := sample_keys;
     rotor := {| agent_rotation_state := ∅;
                 redis_client :=
                   Some {| counters := ∅; entries := ∅; reachable := true |} |};
     clock := 1000; calls := [] |}.

End ValidatorSamples.

(** ** Shapes of messages *)

Module MessageShapes.
Import Normalization.

(** The first message that is not a system message. *)
Definition first_non_system (l : list Message) : option Message :=
  List.find (fun m => negb (has_role "system" m)) l.





End MessageShapes.

(** ** Cache keys: [core/common/cache_manager.py] *)

Module CacheManager.
Import CacheValidator.

(** A rule of [cache_settings["rules"]]: [rule.get("model_names", [])] and
    [rule.get("include_in_key", [])]. *)
Record Rule := { model_names : list string; include_in_key : list string }.

(** [cache_settings]: the truth of [.get("enabled", False)], the rules and
    the entry under ["key_prefix"]: [None] when the dictionary has no such
    key, [Some None] when it has the key with the value [None], [Some (Some
    prefix)] when it has it with a string. *)
Record CacheConfig := {
  enabled : bool;
  rules : list Rule;
  key_prefix : option (option string)
}.

Definition applies_to (internal_model_name : string) (rule : Rule) : bool :=
  existsb (String.eqb "*") (model_names rule)
  || existsb (String.eqb internal_model_name) (model_names rule).

(** The loop over [include_in_key]. *)
Definition included (request_dict : list (string * Json)) (fields : list string)
  : gmap string Json :=
  fold_left (fun key_dict field =>
               match PyDict.get field request_dict with
               | Some v => <[field := v]> key_dict
               | None => key_dict
               end) fields ∅.

(** [create_cache_key].  [request_dict] is [request_data.model_dump(
    exclude_none=True)]; [dumps] is [json.dumps(key_dict, sort_keys=True)],
    which reads the dictionary by its sorted keys, [None] standing for its
    exception; [sha256_hex] is the digest of the encoded text.  The prefix
    is [cache_config.get("key_prefix", "magic_proxy:cache:")] as the
    f-string prints it: the default for a missing key only, the text [None]
    for the value [None].  The result [None] is the [None] of the code. *)
Definition create_cache_key (dumps : gmap string Json -> option string)
    (sha256_hex : string -> string) (request_dict : list (string * Json))
    (internal_model_name : string) (cache_config : option CacheConfig)
  : option string :=
  match cache_config with
  | None => None
  | Some cfg =>
      if negb (enabled cfg) then None
      else
        match List.find (applies_to internal_model_name) (rules cfg) with
        | None => None
        | Some matching_rule =>
            let key_dict :=
              <["internal_model_name" := JString internal_model_name]>
                (included request_dict (include_in_key matching_rule)) in
            if bool_decide (size key_dict = 1%nat) then None
            else
              match dumps key_dict with
              | None => None
              | Some json_dump =>
                  Some (match key_prefix cfg with
                        | None => "magic_proxy:cache:"
                        | Some None => "None"
                        | Some (Some prefix) => prefix
                        end ++ sha256_hex json_dump)%string
              end
        end
  end.

(** A sample configuration: one rule for every model. *)
Definition sample_cache_config : CacheConfig :=
  {| enabled := true;
     rules := [ {| model_names := ["*"]; include_in_key := ["messages"; "temperature"] |} ];
     key_prefix := None |}.

Definition sample_request (user_name : string) : list (string * Json) :=
  [ ("model", JString "fast_chat");
    ("messages", JList [JDict [("role", JString "user"); ("content", JString "Hello")]]);
    ("user", JString user_name) ].

End CacheManager.

(** ** Session leases: [core/engine/session.py] *)

Module Session.

Definition OWNER_LEASE_TTL_MS : Z := 60000.
Definition TASK_HASH_TTL_S : Z := 1800.

Definition _owner_key (task_id : string) : string := ("owner:" ++ task_id)%string.
Definition _task_key (task_id : string) : string := ("task:" ++ task_id)%string.

(** The Redis server behind [redis_client]: a key holds a string or a hash
    and may carry the time, in milliseconds, at which it expires.  [now] is
    the clock of the server when a command runs; a key whose time has come
    is gone.  The client decodes replies into [str]. *)
Inductive Value :=
| Str (s : string)
| Hash (fields : gmap string string).

Record Entry := { value : Value; expires : option Z }.

Definition live (now : Z) (e : Entry) : bool :=
  match expires e with
  | None => true
  | Some t => now <? t
  end.

Definition lookup_live (db : gmap string Entry) (key : string) (now : Z)
  : option Entry :=
  match db !! key with
  | Some e => if live now e then Some e else None
  | None => None
  end.

(** [SET key value PX px NX]: the reply is true when the key was set. *)
Definition set_nx_px (db : gmap string Entry) (key val : string) (px now : Z)
  : bool * gmap string Entry :=
  match lookup_live db key now with
  | Some _ => (false, db)
  | None => (true, <[key := {| value := Str val; expires := Some (now + px) |}]> db)
  end.

(** [HSET key field value ...]; [None] is the error Redis answers with when
    the key holds a string. *)
Definition hset (db : gmap string Entry) (key : string)
    (mapping : list (string * string)) (now : Z) : option (gmap string Entry) :=
  let write (fields : gmap string string) (exp : option Z) :=
    Some (<[key := {| value :=
                        Hash (fold_left (fun h kv => <[fst kv := snd kv]> h) mapping fields);
                      expires := exp |}]> db) in
  match lookup_live db key now with
  | Some {| value := Hash fields; expires := exp |} => write fields exp
  | Some {| value := Str _ |} => None
  | None => write ∅ None
  end.

(** [HGET key field] *)
Definition hget (db : gmap string Entry) (key field : string) (now : Z)
  : option (option string) :=
  match lookup_live db key now with
  | Some {| value := Hash fields |} => Some (fields !! field)
  | Some {| value := Str _ |} => None
  | None => Some None
  end.

(** [EXPIRE key seconds] *)
Definition expire (db : gmap string Entry) (key : string) (seconds now : Z)
  : gmap string Entry :=
  match lookup_live db key now with
  | Some e => <[key := {| value := value e; expires := Some (now + seconds * 1000) |}]> db
  | None => db
  end.

(** [EXISTS key] *)
Definition exists_key (db : gmap string Entry) (key : string) (now : Z) : bool :=
  match lookup_live db key now with
  | Some _ => true
  | None => false
  end.

(** The script of [release_lease]: [GET] the key and [DEL] it when it holds
    [arg]. *)
Definition delete_if_equal (db : gmap string Entry) (key arg : string) (now : Z)
  : option (gmap string Entry) :=
  match lookup_live db key now with
  | Some {| value := Str s |} => Some (if String.eqb s arg then delete key db else db)
  | Some {| value := Hash _ |} => None
  | None => Some db
  end.

(** The methods of [SessionStateStore], for a store with its [session_id]
    and [worker_id].  Each takes the client ([None] when the gateway runs
    without Redis) and returns its result, [None] when the call raised, with
    the server as the call left it.  The commands of one call run at one
    clock reading. *)
Definition acquire_lease (redis_client : option (gmap string Entry))
    (session_id worker_id generation_id created_at : string) (now : Z)
  : option bool * option (gmap string Entry) :=
  match redis_client with
  | None => (Some true, None)
  | Some db =>
      let (lease_acquired, db) :=
        set_nx_px db (_owner_key session_id) worker_id OWNER_LEASE_TTL_MS now in
      if lease_acquired then
        match hset db (_task_key session_id)
                [ ("status", "running"); ("owner", worker_id);
                  ("generation_id", generation_id); ("last_seq", "0");
                  ("created_at", created_at) ] now with
        | Some db =>
            (Some true, Some (expire db (_task_key session_id) TASK_HASH_TTL_S now))
        | None => (None, Some db)
        end
      else (Some false, Some db)
  end.

Definition release_lease (redis_client : option (gmap string Entry))
    (session_id worker_id : string) (now : Z)
  : option unit * option (gmap string Entry) :=
  match redis_client with
  | None => (Some tt, None)
  | Some db =>
      match delete_if_equal db (_owner_key session_id) worker_id now with
      | None => (None, Some db)
      | Some db =>
          match hset db (_task_key session_id) [("status", "done")] now with
          | Some db' => (Some tt, Some db')
          | None => (None, Some db)
          end
      end
  end.

Definition is_cancelled (redis_client : option (gmap string Entry))
    (session_id : string) (now : Z) : option bool :=
  match redis_client with
  | None => Some false
  | Some db =>
      match hget db (_task_key session_id) "status" now with
      | Some (Some status) => Some (String.eqb status "cancelled")
      | Some None => Some false
      | None => None
      end
  end.

(** [cancel_session], a static method: the client is the server. *)
Definition cancel_session (db : gmap string Entry) (session_id : string) (now : Z)
  : option bool * gmap string Entry :=
  if exists_key db (_task_key session_id) now then
    match hset db (_task_key session_id) [("status", "cancelled")] now with
    | Some db' => (Some true, db')
    | None => (None, db)
    end
  else (Some false, db).

Definition get_draft (redis_client : option (gmap string Entry))
    (session_id : string) (now : Z) : option string :=
  match redis_client with
  | None => Some ""
  | Some db =>
      match hget db (_task_key session_id) "draft" now with
      | Some (Some draft) => Some draft
      | Some None => Some ""
      | None => None
      end
  end.

Definition save_draft (redis_client : option (gmap string Entry))
    (session_id content : string) (now : Z)
  : option unit * option (gmap string Entry) :=
  match redis_client with
  | None => (Some tt, None)
  | Some db =>
      match hset db (_task_key session_id) [("draft", content)] now with
      | Some db' => (Some tt, Some db')
      | None => (None, Some db)
      end
  end.

(** *** Workers on one server *)

(** A call of another worker, with the clock reading at which it runs. *)
Inductive Call :=
| AcquireLease (session_id worker_id generation_id created_at : string) (now : Z)
| ReleaseLease (session_id worker_id : string) (now : Z)
| CancelSession (session_id : string) (now : Z)
| SaveDraft (session_id content : string) (now : Z).

Definition server_after (redis_client : option (gmap string Entry))
    (db : gmap string Entry) : gmap string Entry :=
  match redis_client with
  | Some db' => db'
  | None => db
  end.

Definition run_call (db : gmap string Entry) (c : Call) : gmap string Entry :=
  match c with
  | AcquireLease sid w g t now => server_after (snd (acquire_lease (Some db) sid w g t now)) db
  | ReleaseLease sid w now => server_after (snd (release_lease (Some db) sid w now)) db
  | CancelSession sid now => snd (cancel_session db sid now)
  | SaveDraft sid content now => server_after (snd (save_draft (Some db) sid content now)) db
  end.

Definition run_calls (calls : list Call) (db : gmap string Entry) : gmap string Entry :=
  fold_left run_call calls db.

Definition time_of (c : Call) : Z :=
  match c with
  | AcquireLease _ _ _ _ now | ReleaseLease _ _ now
  | CancelSession _ now | SaveDraft _ _ now => now
  end.

(** The call is [release_lease] of worker [w] for session [sid]. *)
Definition releases (sid w : string) (c : Call) : bool :=
  match c with
  | ReleaseLease sid' w' _ => String.eqb sid sid' && String.eqb w w'
  | _ => false
  end.

(** The server after worker-a has acquired the lease of session s1 on an
    empty server, at clock reading 1000. *)
Definition started : gmap string Entry :=
  server_after (snd (acquire_lease (Some ∅) "s1" "worker-a" "g" "0.5" 1000)) ∅.

End Session.

(** ** Merging user overrides into the configuration:
    [core/config/config_manager.py] *)

Module ConfigManager.
Import CacheValidator.

(** [deep_merge(base, overrides)], on dictionaries as lists of items in
    insertion order.  [overrides] is given as the value it is, so that the
    recursion into its nested dictionaries is structural; [copy.deepcopy] is
    the identity on values. *)
Fixpoint deep_merge_into (base : list (string * Json)) (overrides : Json) {struct overrides}
  : list (string * Json) :=
  match overrides with
  | JDict items =>
      (fix loop (items : list (string * Json)) (result : list (string * Json))
         {struct items} : list (string * Json) :=
         match items with
         | [] => result
         | (key, value) :: rest =>
             loop rest
               match PyDict.get key result, value with
               | Some (JDict sub), JDict _ =>
                   PyDict.set key (JDict (deep_merge_into sub value)) result
               | _, _ => PyDict.set key value result
               end
         end) items base
  | _ => base
  end.

Definition deep_merge (base overrides : list (string * Json)) : list (string * Json) :=
  deep_merge_into base (JDict overrides).

(** The value [deep_merge] stores under a key of [overrides]. *)
Definition merged_value (old : option Json) (value : Json) : Json :=
  match old, value with
  | Some (JDict sub), JDict items => JDict (deep_merge sub items)
  | _, _ => value
  end.

(** A global configuration and the overrides of a user. *)
Definition sample_global : list (string * Json) :=
  [ ("router_settings",
     JDict [ ("model_group_alias",
              JDict [ ("fast_chat", JList [JString "groq-p"; JString "mistral-p"]);
                      ("coder", JList [JString "cerebras-p"]) ]);
             ("agent_metadata", JDict []) ]);
    ("cache_settings", JDict [("enabled", JBool true)]) ].

Definition sample_overrides : list (string * Json) :=
  [ ("router_settings",
     JDict [ ("model_group_alias",
              JDict [ ("fast_chat", JList [JString "mistral-p"]) ]) ]);
    ("theme", JString "dark") ].

End ConfigManager.

(** ** Choice of a model for a tier: [core/engine/model_garage.py] *)

Module ModelGarage.
Import Errors.

(** An entry of [model_list] as [get_model_for_tier] reads it: [m.get("tier")],
    [m.get("provider")], [m.get("model_params", {}).get("model")] and the
    entry under ["model_name"], each absent or a string. *)
Record Profile := {
  tier : option string;
  provider : option string;
  raw_model : option string;
  model_name : option string
}.

(** [m.get("tier") == tier] *)
Definition of_tier (tier_name : string) (m : Profile) : bool :=
  match tier m with
  | Some t => String.eqb t tier_name
  | None => false
  end.

(** [raw_model in self.garage_data.get(provider, [])] *)
Definition verified (garage_data : gmap string (list string)) (candidate : Profile) : bool :=
  match provider candidate, raw_model candidate with
  | Some p, Some model =>
      match garage_data !! p with
      | Some verified_list => existsb (String.eqb model) verified_list
      | None => false
      end
  | _, _ => false
  end.

(** [candidate["model_name"]] *)
Definition name_of (candidate : Profile) : Outcome (option string) :=
  match model_name candidate with
  | Some n => Return (Some n)
  | None => Raise (KeyError "model_name")
  end.

(** [get_model_for_tier]; [shuffle] is the outcome of [random.shuffle]. *)
Definition get_model_for_tier (shuffle : list Profile -> list Profile)
    (garage_data : gmap string (list string)) (tier_name : string)
    (model_list : list Profile) : Outcome (option string) :=
  match List.filter (of_tier tier_name) model_list with
  | [] => Return None
  | candidates =>
      let candidates := shuffle candidates in
      match List.find (verified garage_data) candidates with
      | Some candidate => name_of candidate
      | None =>
          match candidates with
          | first :: _ => name_of first
          | [] => Return None
          end
      end
  end.

(** A garage and a list of profiles. *)
Definition sample_garage : gmap string (list string) :=
  {[ "groq" := ["llama-3.1-8b-instant"]; "google" := ["gemini-2.0-flash"] ]}.

Definition profile (tier_name provider_name model name : string) : Profile :=
  {| tier := Some tier_name; provider := Some provider_name;
     raw_model := Some model; model_name := Some name |}.

Definition sample_profiles : list Profile :=
  [ profile "lite" "mistral" "mistral-small" "mistral-lite";
    profile "pro" "google" "gemini-2.0-flash" "gemini-pro-profile";
    profile "lite" "groq" "llama-3.1-8b-instant" "groq-lite";
    profile "lite" "cerebras" "llama3.1-8b" "cerebras-lite" ].

End ModelGarage.
(** * Properties *)

(** ** Dictionaries *)

Module PyDictFacts.
Section Facts.
Context {V : Type}.
Implicit Types (d : list (string * V)) (k : string).

Lemma mem_true_iff k d : PyDict.mem k d = true <-> In k (PyDict.keys d).
Proof.
  induction d as [|[k' v] d IH]; simpl.
  - split; [discriminate | tauto].
  - destruct (String.eqb_spec k k') as [->|Hne].
    + split; auto.
    + rewrite IH. split; [auto | intros [Heq|Hin]; congruence].
Qed.

Lemma mem_false_iff k d : PyDict.mem k d = false <-> ~ In k (PyDict.keys d).
Proof.
  rewrite <- mem_true_iff. destruct (PyDict.mem k d); split; congruence.
Qed.

Lemma keys_set_fresh k (v : V) d :
  PyDict.mem k d = false -> PyDict.keys (PyDict.set k v d) = PyDict.keys d ++ [k].
Proof.
  induction d as [|[k' v'] d IH]; simpl; [reflexivity|].
  destruct (String.eqb k k'); [discriminate|].
  intros H. simpl. now rewrite IH.
Qed.

Lemma length_set_fresh k (v : V) d :
  PyDict.mem k d = false -> length (PyDict.set k v d) = S (length d).
Proof.
  induction d as [|[k' v'] d IH]; simpl; [reflexivity|].
  destruct (String.eqb k k'); [discriminate|].
  intros H. simpl. now rewrite IH.
Qed.

Lemma mem_set k k' (v : V) d :
  PyDict.mem k (PyDict.set k' v d) = String.eqb k k' || PyDict.mem k d.
Proof.
  induction d as [|[k2 v2] d IH]; simpl.
  - destruct (String.eqb k k'); reflexivity.
  - destruct (String.eqb_spec k' k2) as [->|Hne]; simpl.
    + destruct (String.eqb k k2); reflexivity.
    + rewrite IH. destruct (String.eqb_spec k k2) as [->|?];
        [now rewrite orb_true_r | reflexivity].
Qed.

Lemma keys_del k d :
  PyDict.keys (PyDict.del k d)
  = List.filter (fun x => negb (String.eqb k x)) (PyDict.keys d).
Proof.
  induction d as [|[k' v'] d IH]; simpl; [reflexivity|].
  destruct (String.eqb k k'); simpl; now rewrite IH.
Qed.

Lemma mem_del k k' d :
  PyDict.mem k (PyDict.del k' d) = negb (String.eqb k' k) && PyDict.mem k d.
Proof.
  induction d as [|[k2 v2] d IH]; simpl.
  - now rewrite andb_false_r.
  - destruct (String.eqb_spec k' k2) as [->|Hne]; simpl.
    + rewrite IH. destruct (String.eqb_spec k k2) as [->|?].
      * now rewrite String.eqb_refl.
      * reflexivity.
    + rewrite IH. destruct (String.eqb_spec k k2) as [->|?]; [|reflexivity].
      destruct (String.eqb_spec k' k2); [congruence | reflexivity].
Qed.

Lemma keys_del_all (ks : list string) d :
  PyDict.keys (fold_left (fun d k => PyDict.del k d) ks d)
  = List.filter (fun x => negb (existsb (fun k => String.eqb k x) ks))
      (PyDict.keys d).
Proof.
  revert d. induction ks as [|k ks IH]; intros d; simpl.
  - induction (PyDict.keys d) as [|x l IHl]; simpl; congruence.
  - rewrite IH, keys_del.
    induction (PyDict.keys d) as [|x l IHl]; simpl; [reflexivity|].
    destruct (String.eqb k x); simpl; [exact IHl|].
    destruct (existsb (fun k0 => String.eqb k0 x) ks); simpl; congruence.
Qed.

Lemma mem_del_all k (ks : list string) d :
  PyDict.mem k d = false ->
  PyDict.mem k (fold_left (fun d k => PyDict.del k d) ks d) = false.
Proof.
  revert d. induction ks as [|k' ks IH]; intros d H; simpl; [exact H|].
  apply IH. rewrite mem_del, H. apply andb_false_r.
Qed.

(** Removing the keys selected by [f] leaves the other keys, and the two
    groups together are the keys of the dictionary. *)
Lemma keys_partition (f : string * V -> bool) d :
  List.NoDup (PyDict.keys d) ->
  Permutation
    (map fst (List.filter f d)
     ++ PyDict.keys
          (fold_left (fun d k => PyDict.del k d) (map fst (List.filter f d)) d))
    (PyDict.keys d).
Proof.
  rewrite keys_del_all. unfold PyDict.keys.
  induction d as [|[k v] d IH]; simpl; intros Hnd; [constructor|].
  inversion Hnd as [|? ? Hnin Hnd']; subst.
  assert (Hext : forall ks,
             List.filter
               (fun x => negb (String.eqb k x || existsb (fun k0 => String.eqb k0 x) ks))
               (map fst d)
             = List.filter (fun x => negb (existsb (fun k0 => String.eqb k0 x) ks))
                 (map fst d)).
  { intros ks. apply filter_ext_in. intros x Hx. simpl.
    destruct (String.eqb_spec k x) as [Heq|?]; [subst x; contradiction | reflexivity]. }
  destruct (f (k, v)) eqn:Hf; simpl.
  - rewrite String.eqb_refl. simpl. rewrite Hext.
    constructor. now apply IH.
  - assert (Hk : existsb (fun k0 => String.eqb k0 k) (map fst (List.filter f d)) = false).
    { apply not_true_is_false. intros Hex. apply existsb_exists in Hex.
      destruct Hex as [x [Hx Heq]]. apply String.eqb_eq in Heq. subst x.
      apply Hnin. apply in_map_iff in Hx. destruct Hx as [[k' v'] [Hfst Hin]].
      apply filter_In in Hin. apply in_map_iff. exists (k', v'). tauto. }
    rewrite Hk. simpl.
    apply Permutation_sym, Permutation_cons_app, Permutation_sym. now apply IH.
Qed.
End Facts.
End PyDictFacts.

(** ** Credential pool *)

Module PoolFacts.
Import KeyManager.

Lemma set_pool_lookup p pool m : pools (set_pool p pool m) !! p = Some pool.
Proof. unfold set_pool; simpl. apply lookup_insert_eq. Qed.

Lemma set_pool_lookup_ne p q pool m :
  p <> q -> pools (set_pool p pool m) !! q = pools m !! q.
Proof. intros H. unfold set_pool; simpl. now apply lookup_insert_ne. Qed.

(** An operation on one provider leaves the pools of the others alone. *)
Lemma get_key_other m p q : p <> q -> pools (snd (get_key m p)) !! q = pools m !! q.
Proof.
  intros H. unfold get_key. destruct (is_local p); [reflexivity|].
  destruct (pools m !! p) as [pool|]; [|reflexivity].
  destruct (take_key _ _) as [[k|] q']; simpl; now apply lookup_insert_ne.
Qed.

Lemma release_key_other m p k q :
  p <> q -> pools (release_key m p k) !! q = pools m !! q.
Proof.
  intros H. unfold release_key. destruct (is_local p); [reflexivity|].
  destruct (pools m !! p) as [pool|]; [|reflexivity].
  destruct (_ || _); [reflexivity|]. now apply set_pool_lookup_ne.
Qed.

Lemma quarantine_key_other m p k r d now q :
  p <> q -> pools (quarantine_key m p k r d now) !! q = pools m !! q.
Proof.
  intros H. unfold quarantine_key. destruct (is_local p); [reflexivity|].
  simpl. destruct (pools m !! p) as [pool|]; [|reflexivity].
  now apply set_pool_lookup_ne.
Qed.

Lemma retire_key_other m p k r q :
  p <> q -> pools (retire_key m p k r) !! q = pools m !! q.
Proof.
  intros H. unfold retire_key. destruct (is_local p); [reflexivity|].
  destruct (pools m !! p) as [pool|]; [|reflexivity].
  destruct (PyDict.mem k (retired pool)); [reflexivity|].
  now apply set_pool_lookup_ne.
Qed.

Lemma sweep_pool_nothing now pool :
  quarantined pool = [] -> sweep_pool now pool = pool.
Proof.
  intros H. unfold sweep_pool, keys_to_release. rewrite H. simpl.
  rewrite app_nil_r. destruct pool; simpl in *. now subst.
Qed.

Lemma check_quarantine_lookup m now p :
  is_local p = false ->
  pools (_check_quarantine m now) !! p = sweep_pool now <$> pools m !! p.
Proof.
  intros Hloc. unfold _check_quarantine; simpl. rewrite map_lookup_imap.
  destruct (pools m !! p) as [pool|]; simpl; [|reflexivity].
  rewrite Hloc. destruct (quarantined pool) eqn:Hq; [|reflexivity].
  now rewrite sweep_pool_nothing.
Qed.

Lemma keys_of_cons P p k h :
  keys_of P ((p, k) :: h)
  = if String.eqb P p then k :: keys_of P h else keys_of P h.
Proof. unfold keys_of; simpl. destruct (String.eqb P p); reflexivity. Qed.

Lemma keys_of_drop_other P p k h :
  p <> P -> keys_of P (drop_entry p k h) = keys_of P h.
Proof.
  intros Hne. induction h as [|[p' k'] h IH]; simpl; [reflexivity|].
  unfold same_entry; simpl.
  destruct (String.eqb_spec p p') as [->|Hpp]; simpl.
  - destruct (String.eqb k k').
    + rewrite keys_of_cons.
      destruct (String.eqb_spec P p'); [congruence | reflexivity].
    + rewrite !keys_of_cons, IH. reflexivity.
  - rewrite !keys_of_cons, IH. reflexivity.
Qed.

Lemma keys_of_drop P k h :
  existsb (same_entry P k) h = true ->
  Permutation (keys_of P h) (k :: keys_of P (drop_entry P k h)).
Proof.
  induction h as [|[p' k'] h IH]; simpl; [discriminate|].
  unfold same_entry at 1 3; simpl. rewrite keys_of_cons.
  destruct (String.eqb_spec P p') as [->|Hpp]; simpl.
  - destruct (String.eqb_spec k k') as [->|Hkk]; simpl.
    + reflexivity.
    + intros H. rewrite keys_of_cons, String.eqb_refl.
      rewrite (IH H). apply perm_swap.
  - intros H. rewrite keys_of_cons.
    destruct (String.eqb_spec P p'); [congruence|]. now apply IH.
Qed.

Lemma holds_held_out t P k : holds t P k = true -> In k (held_out t P).
Proof.
  intros H. unfold held_out.
  eapply Permutation_in; [symmetry; apply keys_of_drop; exact H | now left].
Qed.

(** In a duplicate-free split into four parts a key sits in one part only. *)
Lemma sole_part (a b c d : list string) k :
  List.NoDup (a ++ b ++ c ++ d) ->
  (count_occ String.string_dec a k + count_occ String.string_dec b k
   + count_occ String.string_dec c k + count_occ String.string_dec d k <= 1)%nat.
Proof.
  intros H. rewrite (NoDup_count_occ String.string_dec) in H. specialize (H k).
  rewrite !count_occ_app in H. lia.
Qed.

Lemma conserved_nodup keys0 pool out :
  List.NoDup keys0 -> conserved keys0 pool out -> List.NoDup (pool_keys pool out).
Proof.
  intros Hnd [Hp _]. eapply Permutation_NoDup; [symmetry; exact Hp | exact Hnd].
Qed.

Lemma mem_count {V} k (d : list (string * V)) :
  PyDict.mem k d = false <-> count_occ String.string_dec (PyDict.keys d) k = 0%nat.
Proof. rewrite PyDictFacts.mem_false_iff. apply count_occ_not_In. Qed.

(** The queue of a conserving pool holds no retired key, so [get_key]
    drops nothing. *)
Lemma take_key_conserved keys0 pool out :
  List.NoDup keys0 -> conserved keys0 pool out ->
  take_key (retired pool) (available pool)
  = match available pool with
    | [] => (None, [])
    | k :: q => (Some k, q)
    end.
Proof.
  intros Hnd Hc. pose proof (conserved_nodup _ _ _ Hnd Hc) as Hn.
  unfold pool_keys in Hn. destruct (available pool) as [|k q]; [reflexivity|].
  simpl. pose proof (sole_part _ _ _ _ k Hn) as Hk. simpl in Hk.
  destruct (String.string_dec k k); [|congruence].
  assert (Hm : PyDict.mem k (retired pool) = false) by (apply mem_count; lia).
  now rewrite Hm.
Qed.

Lemma conserved_held keys0 pool out k :
  List.NoDup keys0 -> conserved keys0 pool out -> In k out ->
  PyDict.mem k (retired pool) = false
  /\ PyDict.mem k (quarantined pool) = false
  /\ ~ In k (available pool).
Proof.
  intros Hnd Hc Hin. pose proof (conserved_nodup _ _ _ Hnd Hc) as Hn.
  pose proof (sole_part _ _ _ _ k Hn) as Hk.
  apply (count_occ_In String.string_dec) in Hin.
  repeat split; try (apply mem_count; lia).
  apply (count_occ_not_In String.string_dec). lia.
Qed.

Lemma conserved_counts keys0 pool out :
  conserved keys0 pool out ->
  (length (available pool) + length (quarantined pool) + length out
   + length (retired pool) = length keys0)%nat.
Proof.
  intros [Hp _]. apply Permutation_length in Hp. unfold pool_keys, PyDict.keys in Hp.
  rewrite !length_app, !length_map in Hp. lia.
Qed.

Section Conservation.
Variable keys0 : list string.
Hypothesis keys0_nodup : List.NoDup keys0.

Lemma conserved_perm pool out out' :
  Permutation out out' -> conserved keys0 pool out -> conserved keys0 pool out'.
Proof.
  intros Hp [Hk Ht]. split; [|exact Ht].
  unfold pool_keys in *. now rewrite <- Hp.
Qed.

Lemma conserved_acquire pool out k q :
  available pool = k :: q -> conserved keys0 pool out ->
  conserved keys0 (with_available q pool) (k :: out).
Proof.
  intros Ha [Hk Ht]. split; [|exact Ht].
  unfold pool_keys in *; simpl. rewrite Ha in Hk. rewrite <- Hk.
  solve_Permutation.
Qed.

Lemma conserved_release pool out k :
  conserved keys0 pool (k :: out) ->
  conserved keys0 (with_available (available pool ++ [k]) pool) out.
Proof.
  intros [Hk Ht]. split; [|exact Ht].
  unfold pool_keys in *; simpl. rewrite <- Hk. solve_Permutation.
Qed.

Lemma conserved_quarantine pool out k info :
  conserved keys0 pool (k :: out) ->
  conserved keys0
    (with_quarantined (PyDict.set k info (quarantined pool)) pool) out.
Proof.
  intros Hc. destruct (conserved_held _ _ _ k keys0_nodup Hc) as (_ & Hq & _);
    [now left|].
  destruct Hc as [Hk Ht]. split; [|exact Ht].
  unfold pool_keys in *; simpl. rewrite PyDictFacts.keys_set_fresh by exact Hq.
  rewrite <- Hk. solve_Permutation.
Qed.

Lemma conserved_retire pool out k rsn :
  conserved keys0 pool (k :: out) ->
  conserved keys0
    (with_retired (PyDict.set k rsn (retired pool))
       (Z.max 0 (total_keys pool - 1)) pool) out.
Proof.
  intros Hc. destruct (conserved_held _ _ _ k keys0_nodup Hc) as (Hr & _ & _);
    [now left|].
  pose proof (conserved_counts _ _ _ Hc) as Hn. simpl in Hn.
  destruct Hc as [Hk Ht]. split.
  - unfold pool_keys in *; simpl. rewrite PyDictFacts.keys_set_fresh by exact Hr.
    rewrite <- Hk. solve_Permutation.
  - simpl. rewrite PyDictFacts.length_set_fresh by exact Hr. lia.
Qed.

Lemma conserved_sweep pool out now :
  conserved keys0 pool out -> conserved keys0 (sweep_pool now pool) out.
Proof.
  intros Hc. pose proof (conserved_nodup _ _ _ keys0_nodup Hc) as Hn.
  destruct Hc as [Hk Ht]. split; [|exact Ht].
  unfold pool_keys in *; simpl.
  assert (Hq : List.NoDup (PyDict.keys (quarantined pool))).
  { apply NoDup_app_remove_l in Hn. now apply NoDup_app_remove_r in Hn. }
  rewrite <- Hk.
  rewrite <- (PyDictFacts.keys_partition
                (fun kv => end_time (snd kv) <=? now) _ Hq) at 1.
  unfold keys_to_release. solve_Permutation.
Qed.
End Conservation.

Lemma with_quarantined_same pool : with_quarantined (quarantined pool) pool = pool.
Proof. now destruct pool. Qed.

Lemma hand_back_other P keys0 t p k m' t' :
  p <> P -> pools m' !! P = pools (mgr t) !! P ->
  hand_back t p k m' = Some t' ->
  tracked_conserved P keys0 t -> tracked_conserved P keys0 t'.
Proof.
  intros Hne Hm Hh (pool & Hl & Hc). unfold hand_back in Hh.
  assert (Hk : held_out t' P = held_out t P /\ mgr t' = m').
  { destruct (is_local p); [injection Hh as <-; auto|].
    destruct (holds t p k); [|discriminate]. injection Hh as <-.
    split; [|reflexivity]. unfold held_out; simpl. now apply keys_of_drop_other. }
  destruct Hk as [Hk Hmgr]. exists pool. rewrite Hk, Hmgr, Hm. auto.
Qed.

Lemma hand_back_same P t k m' t' :
  is_local P = false -> hand_back t P k m' = Some t' ->
  mgr t' = m' /\ Permutation (held_out t P) (k :: held_out t' P).
Proof.
  intros Hloc Hh. unfold hand_back in Hh. rewrite Hloc in Hh.
  destruct (holds t P k) eqn:Hholds; [|discriminate]. injection Hh as <-.
  split; [reflexivity|]. unfold held_out; simpl. now apply keys_of_drop.
Qed.

(** Every operation of a caller that holds what it hands back keeps the
    keys of a pool conserved. *)
Lemma tracked_step_conserved P keys0 t o t' :
  List.NoDup keys0 -> is_local P = false ->
  tracked_conserved P keys0 t -> tracked_step t o = Some t' ->
  tracked_conserved P keys0 t'.
Proof.
  intros Hnd Hloc Hinv Hstep.
  destruct o as [p|p k|p k r d now|p k r|now]; simpl in Hstep.
  - (* get_key *)
    destruct Hinv as (pool & Hl & Hc).
    destruct (get_key (mgr t) p) as [res m'] eqn:Hg. injection Hstep as <-.
    destruct (String.eqb_spec p P) as [->|Hne].
    + unfold get_key in Hg. rewrite Hloc, Hl in Hg.
      rewrite (take_key_conserved _ _ _ Hnd Hc) in Hg.
      destruct (available pool) as [|k q] eqn:Ha; injection Hg as <- <-.
      * exists (with_available [] pool). split; [apply set_pool_lookup|].
        unfold held_out; simpl.
        replace (with_available [] pool) with pool; [exact Hc|].
        destruct pool; simpl in *; now subst.
      * exists (with_available q pool). split; [apply set_pool_lookup|].
        unfold held_out; simpl. rewrite Hloc, keys_of_cons, String.eqb_refl.
        now apply conserved_acquire.
    + exists pool. split.
      * pose proof (get_key_other (mgr t) p P Hne) as Ho.
        rewrite Hg in Ho. simpl in *. now rewrite Ho.
      * unfold held_out; simpl.
        assert (Hk : forall k, keys_of P ((p, k) :: held t) = keys_of P (held t)).
        { intros k. rewrite keys_of_cons.
          destruct (String.eqb_spec P p); [congruence | reflexivity]. }
        destruct res; [destruct (is_local p)|..]; rewrite ?Hk; exact Hc.
  - (* release_key *)
    destruct (String.eqb_spec p P) as [->|Hne].
    + destruct Hinv as (pool & Hl & Hc).
      destruct (hand_back_same _ _ _ _ _ Hloc Hstep) as [Hm Hp].
      apply (conserved_perm _ _ _ _ Hp) in Hc.
      destruct (conserved_held _ _ _ k Hnd Hc) as (Hr & Hq & _); [now left|].
      unfold tracked_conserved. rewrite Hm. unfold release_key. rewrite Hloc, Hl, Hr, Hq. simpl.
      eexists. split; [apply set_pool_lookup|]. now apply conserved_release.
    + eapply (hand_back_other P keys0 t p k _ t' Hne); [|exact Hstep|exact Hinv].
      now apply release_key_other.
  - (* quarantine_key *)
    destruct (String.eqb_spec p P) as [->|Hne].
    + destruct Hinv as (pool & Hl & Hc).
      destruct (hand_back_same _ _ _ _ _ Hloc Hstep) as [Hm Hp].
      apply (conserved_perm _ _ _ _ Hp) in Hc.
      unfold tracked_conserved. rewrite Hm. unfold quarantine_key. rewrite Hloc, Hl. simpl.
      eexists. split; [apply set_pool_lookup|]. now apply conserved_quarantine.
    + eapply (hand_back_other P keys0 t p k _ t' Hne); [|exact Hstep|exact Hinv].
      now apply quarantine_key_other.
  - (* retire_key *)
    destruct (String.eqb_spec p P) as [->|Hne].
    + destruct Hinv as (pool & Hl & Hc).
      destruct (hand_back_same _ _ _ _ _ Hloc Hstep) as [Hm Hp].
      apply (conserved_perm _ _ _ _ Hp) in Hc.
      destruct (conserved_held _ _ _ k Hnd Hc) as (Hr & Hq & _); [now left|].
      unfold tracked_conserved. rewrite Hm. unfold retire_key. rewrite Hloc, Hl, Hr, Hq.
      rewrite with_quarantined_same.
      eexists. split; [apply set_pool_lookup|]. now apply conserved_retire.
    + eapply (hand_back_other P keys0 t p k _ t' Hne); [|exact Hstep|exact Hinv].
      now apply retire_key_other.
  - (* _check_quarantine *)
    destruct Hinv as (pool & Hl & Hc). injection Hstep as <-.
    exists (sweep_pool now pool). split.
    + change (pools (_check_quarantine (mgr t) now) !! P = Some (sweep_pool now pool)).
      rewrite check_quarantine_lookup by exact Hloc. now rewrite Hl.
    + unfold held_out; simpl. now apply conserved_sweep.
Qed.

Lemma run_tracked_conserved P keys0 ops : forall t t',
  List.NoDup keys0 -> is_local P = false ->
  tracked_conserved P keys0 t -> run_tracked ops t = Some t' ->
  tracked_conserved P keys0 t'.
Proof.
  induction ops as [|o ops IH]; intros t t' Hnd Hloc Hinv Hrun; simpl in Hrun.
  - now injection Hrun as <-.
  - destruct (tracked_step t o) as [t1|] eqn:Hs; [|discriminate].
    apply (IH t1 t' Hnd Hloc); [|exact Hrun].
    exact (tracked_step_conserved P keys0 t o t1 Hnd Hloc Hinv Hs).
Qed.

Example groq_day_runs :
  option_map (fun t => (held t, pools (mgr t) !! "groq")) (run_tracked groq_day groq_start)
  = Some ([],
          Some {| available := ["gsk-b"; "gsk-a"];
                  quarantined := [];
                  retired := [("gsk-c", "HTTP 401")];
                  total_keys := 2;
                  free_keys := ["gsk-a"; "gsk-b"]; paid_keys := ["gsk-c"] |}).
Proof. vm_compute. reflexivity. Qed.

Lemma loaded_conserved P free paid shuffled t :
  loaded P free paid shuffled t -> tracked_conserved P (free ++ paid) t.
Proof.
  intros (Hl & Hp & Hh). exists (load_keys free paid shuffled empty_pool).
  split; [exact Hl|]. unfold held_out. rewrite Hh. split.
  - unfold pool_keys; simpl. now rewrite app_nil_r.
  - simpl. lia.
Qed.

(** C2, as the specification writes the balance: it already fails after one
    [get_key] on a pool of three keys, where nothing is quarantined or
    retired, two keys are left in the queue, [total_keys] is still 3 and one
    key is checked out. *)
Lemma stated_balance_fails :
  exists t pool,
    run_tracked [Acquire "groq"] groq_start = Some t
    /\ pools (mgr t) !! "groq" = Some pool
    /\ ~ stated_balance pool (held_out t "groq").
Proof.
  eexists. eexists. split; [reflexivity|]. split; [reflexivity|].
  unfold stated_balance. vm_compute. discriminate.
Qed.

(** C2, amended: in a pool loaded with distinct keys, whatever callers do
    with the keys they hold (acquire, release, quarantine, retire) and
    whatever the sweeper does, the keys in the queue, in quarantine and
    checked out add up to [total_keys], and [total_keys] plus the retired
    keys is the number of keys loaded. *)
Theorem pool_balance P free paid shuffled ops t0 t :
  is_local P = false ->
  List.NoDup (free ++ paid) ->
  loaded P free paid shuffled t0 ->
  run_tracked ops t0 = Some t ->
  exists pool,
    pools (mgr t) !! P = Some pool
    /\ kept_balance pool (held_out t P)
    /\ total_keys pool + Z.of_nat (length (retired pool))
       = Z.of_nat (length (free ++ paid)).
Proof.
  intros Hloc Hnd Hload Hrun.
  destruct (run_tracked_conserved P (free ++ paid) ops t0 t Hnd Hloc
              (loaded_conserved _ _ _ _ _ Hload) Hrun) as (pool & Hl & Hc).
  exists pool. split; [exact Hl|].
  pose proof (conserved_counts _ _ _ Hc) as Hn. destruct Hc as [_ Ht].
  unfold kept_balance. lia.
Qed.

Lemma pool_balance_witness :
  exists pool,
    pools (mgr (after groq_day groq_start)) !! "groq" = Some pool
    /\ kept_balance pool (held_out (after groq_day groq_start) "groq")
    /\ total_keys pool + Z.of_nat (length (retired pool)) = 3.
Proof.
  apply (pool_balance "groq" ["gsk-a"; "gsk-b"] ["gsk-c"]
           ["gsk-b"; "gsk-c"; "gsk-a"] groq_day groq_start).
  - reflexivity.
  - repeat constructor; simpl; intuition discriminate.
  - split; [reflexivity|]. split; [|reflexivity].
    apply Permutation_sym.
    exact (Permutation_cons_append ["gsk-b"; "gsk-c"] "gsk-a").
  - vm_compute. reflexivity.
Defined.

(** *** Retired keys *)

Lemma take_key_sub ret q :
  forall x, In x (snd (take_key ret q)) -> In x q.
Proof.
  induction q as [|k q IH]; simpl; [tauto|].
  destruct (PyDict.mem k ret); simpl; auto.
Qed.

Lemma take_key_usable ret q k :
  fst (take_key ret q) = Some k -> PyDict.mem k ret = false /\ In k q.
Proof.
  induction q as [|k' q IH]; simpl; [discriminate|].
  destruct (PyDict.mem k' ret) eqn:Hm; simpl.
  - intros H. destruct (IH H). auto.
  - intros [= <-]. auto.
Qed.

Lemma check_quarantine_lookup_any m now p :
  pools (_check_quarantine m now) !! p
  = (fun pool => if is_local p then pool else sweep_pool now pool) <$> pools m !! p.
Proof.
  unfold _check_quarantine; simpl. rewrite map_lookup_imap.
  destruct (pools m !! p) as [pool|]; simpl; [|reflexivity].
  destruct (is_local p); [reflexivity|].
  destruct (quarantined pool) eqn:Hq; [|reflexivity].
  now rewrite sweep_pool_nothing.
Qed.

Lemma sweep_put_away k now pool : put_away k pool -> put_away k (sweep_pool now pool).
Proof.
  intros (Hr & Hq & Ha). unfold put_away, sweep_pool; simpl.
  split; [exact Hr|]. split; [now apply PyDictFacts.mem_del_all|].
  intros Hin. apply in_app_or in Hin. destruct Hin as [Hin|Hin]; [auto|].
  unfold keys_to_release in Hin. apply in_map_iff in Hin.
  destruct Hin as [[k' v] [Hk Hin]]. simpl in Hk. subst k'.
  apply filter_In in Hin. destruct Hin as [Hin _].
  apply PyDictFacts.mem_false_iff in Hq. apply Hq.
  apply in_map_iff. now exists (k, v).
Qed.

Lemma passive_step_put_away m o P pool k :
  passive o = true ->
  pools m !! P = Some pool -> put_away k pool ->
  exists pool', pools (apply_op m o) !! P = Some pool' /\ put_away k pool'.
Proof.
  intros Hpas Hl Hp.
  destruct o as [p|p k'|? ? ? ? ?|? ? ?|now]; try discriminate; cbn [apply_op].
  - (* get_key *)
    destruct (String.eqb_spec p P) as [->|Hne];
      [|exists pool; now rewrite get_key_other].
    unfold get_key. destruct (is_local P); [now exists pool|]. rewrite Hl.
    destruct Hp as (Hr & Hq & Ha).
    pose proof (take_key_sub (retired pool) (available pool)) as Hsub.
    destruct (take_key _ _) as [[k1|] q']; simpl in *;
      (eexists; split; [apply lookup_insert_eq|]);
      (split; [exact Hr | split; [exact Hq | intros Hin; auto]]).
  - (* release_key *)
    destruct (String.eqb_spec p P) as [->|Hne];
      [|exists pool; now rewrite release_key_other].
    unfold release_key. destruct (is_local P); [now exists pool|]. rewrite Hl.
    destruct (PyDict.mem k' (retired pool)) eqn:Hr'; simpl; [now exists pool|].
    destruct (PyDict.mem k' (quarantined pool)); simpl; [now exists pool|].
    eexists; split; [apply lookup_insert_eq|].
    destruct Hp as (Hr & Hq & Ha). split; [exact Hr|]. split; [exact Hq|]. simpl.
    intros Hin. apply in_app_or in Hin. destruct Hin as [Hin|[->|[]]]; [auto|].
    congruence.
  - (* _check_quarantine *)
    rewrite check_quarantine_lookup_any, Hl. simpl.
    destruct (is_local P); eexists; (split; [reflexivity|]); auto.
    now apply sweep_put_away.
Qed.

(** C3: a key that is retired and out of the queue and of the quarantine
    map stays so under every sequence of [release_key] (of any key),
    [get_key] and quarantine sweeps, on any provider. *)
Theorem retired_stays_out ops : forall m P pool k,
  forallb passive ops = true ->
  pools m !! P = Some pool ->
  PyDict.mem k (retired pool) = true ->
  PyDict.mem k (quarantined pool) = false ->
  ~ In k (available pool) ->
  exists pool',
    pools (run_ops ops m) !! P = Some pool'
    /\ PyDict.mem k (retired pool') = true
    /\ PyDict.mem k (quarantined pool') = false
    /\ ~ In k (available pool').
Proof.
  induction ops as [|o ops IH]; intros m P pool k Hall Hl Hr Hq Ha; simpl in *.
  - exists pool. auto.
  - apply andb_prop in Hall. destruct Hall as [Ho Hall].
    destruct (passive_step_put_away m o P pool k Ho Hl (conj Hr (conj Hq Ha)))
      as (pool1 & Hl1 & Hr1 & Hq1 & Ha1).
    exact (IH _ _ _ _ Hall Hl1 Hr1 Hq1 Ha1).
Qed.

Lemma retired_stays_out_witness :
  exists pool',
    pools (run_ops groq_later (mgr (after groq_day groq_start))) !! "groq" = Some pool'
    /\ PyDict.mem "gsk-c" (retired pool') = true
    /\ PyDict.mem "gsk-c" (quarantined pool') = false
    /\ ~ In "gsk-c" (available pool').
Proof.
  eapply (retired_stays_out groq_later (mgr (after groq_day groq_start)) "groq" _ "gsk-c").
  - reflexivity.
  - vm_compute. reflexivity.
  - reflexivity.
  - reflexivity.
  - simpl. intuition discriminate.
Defined.

(** [retire_key] is what puts a key away: called for a key that is not in
    the queue (its caller holds it) and not yet retired, it leaves the key
    retired and drops it from the quarantine map. *)
Lemma retire_key_puts_away m P pool k rsn :
  is_local P = false -> pools m !! P = Some pool ->
  PyDict.mem k (retired pool) = false -> ~ In k (available pool) ->
  exists pool', pools (retire_key m P k rsn) !! P = Some pool' /\ put_away k pool'.
Proof.
  intros Hloc Hl Hr Ha. unfold retire_key. rewrite Hloc, Hl, Hr.
  eexists. split; [apply set_pool_lookup|]. unfold put_away; simpl.
  split; [|split; [|exact Ha]].
  - rewrite PyDictFacts.mem_set, String.eqb_refl. reflexivity.
  - destruct (PyDict.mem k (quarantined pool)) eqn:Hq; [|exact Hq].
    rewrite PyDictFacts.mem_del, String.eqb_refl. reflexivity.
Qed.

(** *** Acquiring from a provider without a pool *)

Lemma get_key_unknown m p :
  is_local p = false -> pools m !! p = None -> get_key m p = (NoKey, m).
Proof. intros Hloc Hl. unfold get_key. now rewrite Hloc, Hl. Qed.

Lemma take_key_none ret q :
  fst (take_key ret q) = None <-> forall k, In k q -> PyDict.mem k ret = true.
Proof.
  induction q as [|k q IH]; simpl; [split; [intros _ ? [] | reflexivity]|].
  destruct (PyDict.mem k ret) eqn:Hm; simpl.
  - rewrite IH. split; [intros H x [<-|Hx]; auto | auto].
  - split; [discriminate|]. intros H. specialize (H k (or_introl eq_refl)). congruence.
Qed.

Lemma take_key_none_empty ret q : fst (take_key ret q) = None -> snd (take_key ret q) = [].
Proof.
  induction q as [|k q IH]; simpl; [reflexivity|].
  destruct (PyDict.mem k ret); simpl; [exact IH | discriminate].
Qed.

(** [GetKeyTimeoutError] comes from a configured pool whose queue holds no
    usable key, and from nowhere else. *)
Lemma get_key_timeout_iff m p :
  fst (get_key m p) = KeyTimeout
  <-> is_local p = false
      /\ exists pool, pools m !! p = Some pool
                      /\ forall k, In k (available pool) ->
                                   PyDict.mem k (retired pool) = true.
Proof.
  unfold get_key. destruct (is_local p); simpl.
  - split; [discriminate | intros [? _]; discriminate].
  - destruct (pools m !! p) as [pool|]; simpl.
    + pose proof (take_key_none (retired pool) (available pool)) as Hn.
      destruct (take_key _ _) as [[k|] q']; simpl in *.
      * split; [discriminate|]. intros [_ (pool' & [= <-] & H)].
        apply Hn in H. discriminate.
      * split; [|reflexivity]. intros _. split; [reflexivity|].
        exists pool. split; [reflexivity|]. now apply Hn.
    + split; [discriminate|]. intros [_ (pool & H & _)]. discriminate.
Qed.

End PoolFacts.

(** ** Rotation index *)

Module RotationFacts.
Import Rotation.

Example memory_first_calls :
  rotation_run 7 memory_backend "coding_agent" 3 = [0; 1; 2; 0; 1; 2; 0].
Proof. vm_compute. reflexivity. Qed.

Example durable_first_calls :
  rotation_run 7 durable_backend "coding_agent" 3 = [1; 2; 0; 1; 2; 0; 1].
Proof. vm_compute. reflexivity. Qed.

Lemma next_slot m x :
  0 <= x < m -> (x + 1) mod m = if x + 1 <? m then x + 1 else 0.
Proof.
  intros H. destruct (Z.ltb_spec (x + 1) m).
  - apply Z.mod_small. lia.
  - replace (x + 1) with m by lia. apply Z_mod_same_full.
Qed.

Lemma times_cons j x l :
  times j (x :: l) = (if Z.eq_dec x j then 1 else 0) + times j l.
Proof. unfold times. simpl. destruct (Z.eq_dec x j); lia. Qed.

(** Slot [j] comes up once every [m] calls: after [n] calls from slot [x],
    the calls made and the wait still ahead make up the first wait plus
    [m] for every time the slot was handed out. *)
Lemma cycle_balance m j n : forall x,
  0 <= x < m -> 0 <= j < m ->
  exists d, 0 <= d < m
            /\ Z.of_nat n + d = wait_for m x j + m * times j (cycle m n x).
Proof.
  induction n as [|n IH]; intros x Hx Hj.
  - exists (wait_for m x j). unfold wait_for, times. simpl.
    destruct (Z.leb_spec x j); lia.
  - assert (Hx' : 0 <= (x + 1) mod m < m) by (apply Z.mod_pos_bound; lia).
    destruct (IH _ Hx' Hj) as (d & Hd & Heq). exists d. split; [exact Hd|].
    cbn [cycle]. rewrite times_cons, Nat2Z.inj_succ.
    rewrite next_slot in Heq |- * by exact Hx. unfold wait_for in *.
    destruct (Z.eq_dec x j); destruct (Z.ltb_spec (x + 1) m);
      destruct (Z.leb_spec x j);
      repeat match goal with
             | H : context [if ?a <=? ?b then _ else _] |- _ =>
                 destruct (Z.leb_spec a b)
             end; lia.
Qed.

Lemma cycle_fair m j n x :
  1 < m -> 0 <= x < m -> 0 <= j < m ->
  Z.of_nat n / m <= times j (cycle m n x) <= (Z.of_nat n + m - 1) / m.
Proof.
  intros Hm Hx Hj. destruct (cycle_balance m j n x Hx Hj) as (d & Hd & Heq).
  assert (Hw : 0 <= wait_for m x j < m).
  { unfold wait_for. destruct (Z.leb_spec x j); lia. }
  split.
  - assert (Z.of_nat n / m < times j (cycle m n x) + 1); [|lia].
    apply Z.div_lt_upper_bound; lia.
  - apply Z.div_le_lower_bound; lia.
Qed.

Lemma get_or_0_insert d k v : get_or_0 (<[k := v]> d) k = v.
Proof. unfold get_or_0. now rewrite lookup_insert_eq. Qed.

Lemma memory_step ro a M :
  1 < M -> redis_client ro = None ->
  get_rotation_index ro a M
  = (get_or_0 (agent_rotation_state ro) a,
     {| agent_rotation_state :=
          <[a := (get_or_0 (agent_rotation_state ro) a + 1) mod M]>
            (agent_rotation_state ro);
        redis_client := None |}).
Proof.
  intros HM Hrc. unfold get_rotation_index.
  destruct (Z.leb_spec M 1); [lia|]. now rewrite Hrc.
Qed.

Lemma durable_step ro r a M :
  1 < M -> redis_client ro = Some r -> reachable r = true ->
  get_or_0 (counters r) (rotation_key a) < i64_max ->
  get_rotation_index ro a M
  = ((get_or_0 (counters r) (rotation_key a) + 1) mod M,
     {| agent_rotation_state := agent_rotation_state ro;
        redis_client :=
          Some {| counters :=
                    <[rotation_key a := get_or_0 (counters r) (rotation_key a) + 1]>
                      (counters r);
                  entries := entries r;
                  reachable := true |} |}).
Proof.
  intros HM Hrc Hup Hroom. unfold get_rotation_index, incr.
  destruct (Z.leb_spec M 1); [lia|]. rewrite Hrc, Hup.
  destruct (Z.ltb_spec (get_or_0 (counters r) (rotation_key a)) i64_max); [|lia].
  reflexivity.
Qed.

(** The in-process counter hands out successive slots from the stored one. *)
Lemma memory_run_cycle a M n : forall ro,
  1 < M -> redis_client ro = None ->
  0 <= get_or_0 (agent_rotation_state ro) a < M ->
  rotation_run n ro a M = cycle M n (get_or_0 (agent_rotation_state ro) a).
Proof.
  induction n as [|n IH]; intros ro HM Hrc Hst; [reflexivity|].
  cbn [rotation_run cycle]. rewrite memory_step by assumption.
  f_equal. rewrite IH; cbn [agent_rotation_state redis_client];
    rewrite ?get_or_0_insert; try easy.
  apply Z.mod_pos_bound. lia.
Qed.

(** The durable counter hands out the slots of the successive counter values. *)
Lemma durable_run_cycle a M n : forall ro r,
  1 < M -> redis_client ro = Some r -> reachable r = true ->
  get_or_0 (counters r) (rotation_key a) + Z.of_nat n <= i64_max ->
  rotation_run n ro a M
  = cycle M n ((get_or_0 (counters r) (rotation_key a) + 1) mod M).
Proof.
  induction n as [|n IH]; intros ro r HM Hrc Hup Hroom; [reflexivity|].
  cbn [rotation_run cycle]. rewrite (durable_step ro r) by (assumption || lia).
  f_equal. erewrite IH; try reflexivity; try assumption;
    cbn [counters]; rewrite get_or_0_insert.
  - now rewrite Zplus_mod_idemp_l.
  - lia.
Qed.

(** Both backends, as far as the slots handed out go. *)
Lemma single_backend_cycle ro a M n :
  1 < M -> single_backend ro a M n ->
  exists x, 0 <= x < M /\ rotation_run n ro a M = cycle M n x.
Proof.
  intros HM Hb. unfold single_backend in Hb.
  destruct (redis_client ro) as [r|] eqn:Hrc.
  - destruct Hb as [Hup Hroom]. eexists. split; [|now apply (durable_run_cycle a M n ro r)].
    apply Z.mod_pos_bound. lia.
  - eexists. split; [exact Hb|]. now apply memory_run_cycle.
Qed.

Lemma ceil_div_spec n m :
  0 < m -> m * (ceil_div n m - 1) < n <= m * ceil_div n m.
Proof.
  intros Hm. unfold ceil_div.
  pose proof (Z.div_mod (n + m - 1) m ltac:(lia)) as Hd.
  pose proof (Z.mod_pos_bound (n + m - 1) m Hm) as Hb. lia.
Qed.

(** C7: for a pool of [M > 1] slots and [N > M] calls in a row served by
    one backend, every slot [j] of the pool is handed out at least
    [floor (N / M)] and at most [ceil (N / M)] times. *)
Theorem rotation_fair ro a M N j :
  1 < M -> M < Z.of_nat N -> 0 <= j < M ->
  single_backend ro a M N ->
  floor_div (Z.of_nat N) M <= times j (rotation_run N ro a M)
  <= ceil_div (Z.of_nat N) M.
Proof.
  intros HM _ Hj Hb.
  destruct (single_backend_cycle ro a M N HM Hb) as (x & Hx & ->).
  now apply cycle_fair.
Qed.

Lemma rotation_fair_witness :
  floor_div 30 3 <= times 1 (rotation_run 30 memory_backend "coding_agent" 3)
  <= ceil_div 30 3
  /\ floor_div 31 3 <= times 1 (rotation_run 31 durable_backend "coding_agent" 3)
     <= ceil_div 31 3.
Proof.
  split.
  - apply (rotation_fair memory_backend "coding_agent" 3 30 1); try lia.
    vm_compute. split; [discriminate | reflexivity].
  - apply (rotation_fair durable_backend "coding_agent" 3 31 1); try lia.
    split; [reflexivity | vm_compute; discriminate].
Defined.

Example fairness_scenario :
  map (fun j => times j (rotation_run 30 memory_backend "coding_agent" 3)) [0; 1; 2]
  = [10; 10; 10].
Proof. vm_compute. reflexivity. Qed.

Lemma cycle_closed M n : forall x,
  1 < M -> 0 <= x < M ->
  cycle M n x = map (fun k => (x + Z.of_nat k) mod M) (seq 0 n).
Proof.
  induction n as [|n IH]; intros x HM Hx; [reflexivity|].
  cbn [cycle seq map Z.of_nat]. rewrite Z.add_0_r, (Z.mod_small x M) by exact Hx.
  f_equal.
  rewrite IH by (try apply Z.mod_pos_bound; lia).
  rewrite <- seq_shift, map_map. apply map_ext. intros k.
  rewrite Zplus_mod_idemp_l. f_equal. lia.
Qed.

(** C6, as stated: the first index already differs, 0 from the in-process
    counter and 1 from the durable one. *)
Lemma backends_disagree :
  rotation_run 4 memory_backend "coding_agent" 3 = [0; 1; 2; 0]
  /\ rotation_run 4 durable_backend "coding_agent" 3 = [1; 2; 0; 1]
  /\ rotation_run 4 memory_backend "coding_agent" 3
     <> rotation_run 4 durable_backend "coding_agent" 3.
Proof. vm_compute. repeat split; discriminate. Qed.

(** C6, amended: from their initial states both backends advance by one
    slot modulo the pool size on every call and skip none, the in-process
    counter starting at slot 0 and the durable one at slot 1: call number
    [k] (from 0) gets [k mod M] from the former and [(k + 1) mod M] from the
    latter, so the durable sequence is the in-process sequence one call
    ahead. *)
Theorem backends_one_apart a M n :
  1 < M -> Z.of_nat n <= i64_max ->
  rotation_run n memory_backend a M = map (fun k => Z.of_nat k mod M) (seq 0 n)
  /\ rotation_run n durable_backend a M
     = map (fun k => (Z.of_nat k + 1) mod M) (seq 0 n)
  /\ rotation_run n durable_backend a M
     = tl (rotation_run (S n) memory_backend a M).
Proof.
  intros HM Hn.
  assert (Hmem : forall k, rotation_run k memory_backend a M = cycle M k 0).
  { intros k. rewrite memory_run_cycle; try easy. unfold get_or_0; cbn.
    rewrite lookup_empty. lia. }
  assert (Hdur : rotation_run n durable_backend a M = cycle M n 1).
  { erewrite durable_run_cycle; try reflexivity; try exact HM;
      unfold get_or_0; cbn; rewrite lookup_empty; [|lia].
    now rewrite Z.mod_small by lia. }
  split; [|split].
  - rewrite Hmem, cycle_closed by lia. reflexivity.
  - rewrite Hdur, cycle_closed by lia. apply map_ext. intros k. f_equal. lia.
  - rewrite Hdur, Hmem. cbn [cycle tl]. now rewrite Z.mod_small by lia.
Qed.

Lemma backends_one_apart_witness :
  rotation_run 7 memory_backend "coding_agent" 3
  = map (fun k => Z.of_nat k mod 3) (seq 0 7)
  /\ rotation_run 7 durable_backend "coding_agent" 3
     = map (fun k => (Z.of_nat k + 1) mod 3) (seq 0 7)
  /\ rotation_run 7 durable_backend "coding_agent" 3
     = tl (rotation_run 8 memory_backend "coding_agent" 3).
Proof.
  apply (backends_one_apart "coding_agent" 3 7); [lia | vm_compute; discriminate].
Defined.

End RotationFacts.

(** ** Python strings *)

Module PyStrFacts.
Import PyStr.

Example strip_sample :
  strip (String "009" " Hello world " ++ String "010" EmptyString)%string
  = "Hello world".
Proof. reflexivity. Qed.

Example strip_blank : strip "   " = "" /\ blank "   " = true /\ blank "" = true.
Proof. repeat split. Qed.

Example endswith_sample :
  endswith "}" "{x}" = true /\ endswith "}" "{x} " = false
  /\ endswith "abc" "bc" = false /\ startswith "{" "{x}" = true.
Proof. repeat split. Qed.

Example contains_sample :
  contains "Rate limit reached" "Error: Rate limit reached for model" = true
  /\ contains "Quota exceeded" "Hello" = false.
Proof. repeat split. Qed.

Example of_int_sample : of_int 429 = "429" /\ of_int 0 = "0".
Proof. repeat split. Qed.

Lemma lstrip_truthy s : truthy (lstrip s) = negb (blank s).
Proof.
  induction s as [|c s IH]; simpl; [reflexivity|].
  destruct (is_space c); simpl; [exact IH | reflexivity].
Qed.

Lemma rstrip_blank s : blank (rstrip s) = blank s.
Proof.
  induction s as [|c s IH]; simpl; [reflexivity|].
  destruct (rstrip s) as [|c' r] eqn:Hr.
  - simpl in IH. rewrite <- IH.
    destruct (is_space c) eqn:E; simpl; rewrite ?E; reflexivity.
  - cbn [blank]. cbn [blank] in IH. now rewrite IH.
Qed.

Lemma strip_truthy s : truthy (strip s) = negb (blank s).
Proof. unfold strip. now rewrite lstrip_truthy, rstrip_blank. Qed.

Lemma blank_append a b : blank (a ++ b)%string = blank a && blank b.
Proof.
  induction a as [|c a IH]; simpl; [reflexivity|].
  rewrite IH. now rewrite andb_assoc.
Qed.

End PyStrFacts.

(** ** Message normalization *)

Module NormalizationFacts.
Import Errors Normalization.

(** The cases of [tests/core/providers/utils/test_normalization.py]. *)
Example test_normalize_for_openai_basic :
  normalize_for_openai [user "Hi"; user "There"; assistant "Hello"]
  = Return [user (join_lines "Hi" "There"); assistant "Hello"].
Proof. reflexivity. Qed.

Example test_normalize_for_openai_empty_cleanup :
  normalize_for_openai
    [ user "Valid"; assistant ""; assistant "   ";
      {| role := Some "user"; content := CNone; others := [] |};
      user "Also Valid" ]
  = Return [user (join_lines "Valid" "Also Valid")].
Proof. reflexivity. Qed.

Example test_normalize_for_gemini_start_with_assistant :
  normalize_for_gemini [system "Sys"; assistant "Prefill"]
  = Return [system "Sys"; user "..."; assistant "Prefill"].
Proof. reflexivity. Qed.

Example test_normalize_for_gemini_consecutive_users :
  normalize_for_gemini [user "1"; user "2"; assistant "A"; assistant "B"]
  = Return [user (join_lines "1" "2"); assistant (join_lines "A" "B")].
Proof. reflexivity. Qed.

Example test_merge_contents_mixed :
  _merge_contents (CStr "Hello")
    (CList [{| part_type := Some "image_url"; part_text := None;
               part_rest := [("url", "...")] |}])
  = Return (CList [text_part "Hello";
                   {| part_type := Some "image_url"; part_text := None;
                      part_rest := [("url", "...")] |}]).
Proof. reflexivity. Qed.

Example test_merge_contents_lists_optimization :
  _merge_contents (CList [text_part "Part A"]) (CList [text_part "Part B"])
  = Return (CList [text_part (join_lines "Part A" "Part B")]).
Proof. reflexivity. Qed.

Lemma last_item_snoc {A} (l : list A) x : last_item (l ++ [x]) = Some x.
Proof.
  induction l as [|a l IH]; [reflexivity|].
  simpl. destruct (l ++ [x]) eqn:E; [now destruct l | exact IH].
Qed.

Lemma merge_loop_from rest : forall init cur,
  merge_loop (init ++ [cur]) rest = prepend init (merge_from cur rest).
Proof.
  induction rest as [|msg rest IH]; intros init cur; simpl.
  - reflexivity.
  - rewrite last_item_snoc. destruct (same_role msg cur).
    + destruct (_merge_contents _ _); [|reflexivity].
      rewrite removelast_last. apply IH.
    + rewrite IH. destruct (merge_from msg rest); simpl; [|reflexivity].
      now rewrite <- app_assoc.
Qed.

Lemma merge_loop_start m rest : merge_loop [] (m :: rest) = merge_from m rest.
Proof.
  change (merge_loop [] (m :: rest)) with (merge_loop ([] ++ [m]) rest).
  rewrite merge_loop_from. now destruct (merge_from m rest).
Qed.

Lemma same_role_ext a a' b : role a = role a' -> same_role a b = same_role a' b.
Proof. unfold same_role. now intros ->. Qed.

(** Merging into a message that has content leaves it with content. *)
Lemma merged_has_content cur msg c :
  has_content cur = true ->
  _merge_contents (content cur) (content msg) = Return c ->
  has_content (with_content c cur) = true.
Proof.
  unfold has_content, with_content; simpl. intros Hc Hm.
  assert (Hlist : forall ca cb,
             (forall a b, ca = CStr a -> cb = CStr b -> False) ->
             _merge_contents ca cb = Return c -> exists l, c = CList l).
  { intros ca cb Hns H. unfold _merge_contents in H.
    destruct ca, cb; try (exfalso; eapply Hns; reflexivity);
      repeat match type of H with
             | context [match ?x with _ => _ end] => destruct x
             end;
      try discriminate; injection H as <-; eauto. }
  destruct (content cur) as [| a | la | ra] eqn:Ecur;
    destruct (content msg) as [| b | lb | rb] eqn:Emsg;
    try (match type of Hm with
         | _merge_contents ?ca ?cb = _ =>
             destruct (Hlist ca cb ltac:(intros; discriminate) Hm) as [l ->]
         end; reflexivity).
  simpl in Hm. injection Hm as <-. cbv beta iota.
  rewrite PyStrFacts.strip_truthy in *. unfold join_lines.
  rewrite PyStrFacts.blank_append. destruct (PyStr.blank a); [discriminate | reflexivity].
Qed.

(** What the merge loop produces has content throughout, no two neighbours
    of one role, and starts with the role it started from. *)
Lemma merge_from_settled rest : forall cur r,
  merge_from cur rest = Return r ->
  has_content cur = true -> forallb has_content rest = true ->
  forallb has_content r = true /\ alternating r = true
  /\ exists cur' r', r = cur' :: r' /\ role cur' = role cur.
Proof.
  induction rest as [|msg rest IH]; intros cur r Hr Hc Hall; simpl in Hr.
  - injection Hr as <-. simpl. rewrite Hc.
    split; [reflexivity|]. split; [reflexivity|]. now exists cur, [].
  - simpl in Hall. apply andb_prop in Hall. destruct Hall as [Hm Hall].
    destruct (same_role msg cur) eqn:Hs.
    + destruct (_merge_contents _ _) as [c|] eqn:Hmc; [|discriminate].
      destruct (IH _ _ Hr (merged_has_content _ _ _ Hc Hmc) Hall)
        as (H1 & H2 & cur' & r' & -> & Hrole).
      split; [exact H1|]. split; [exact H2|]. now exists cur', r'.
    + destruct (merge_from msg rest) as [l|] eqn:Hl; [|discriminate].
      injection Hr as <-.
      destruct (IH _ _ Hl Hm Hall) as (H1 & H2 & cur' & r' & -> & Hrole).
      split; [simpl in *; now rewrite Hc|].
      split; [|now exists cur, (cur' :: r')].
      cbn [alternating]. rewrite (same_role_ext cur' msg cur Hrole), Hs. exact H2.
Qed.

(** On a list with no two neighbours of one role the merge loop changes
    nothing. *)
Lemma merge_from_alternating rest : forall cur,
  alternating (cur :: rest) = true -> merge_from cur rest = Return (cur :: rest).
Proof.
  induction rest as [|msg rest IH]; intros cur Ha; [reflexivity|].
  cbn [alternating] in Ha. apply andb_prop in Ha. destruct Ha as [Hs Ha].
  simpl. destruct (same_role msg cur); [discriminate|]. now rewrite IH.
Qed.

Lemma filter_all {A} (f : A -> bool) l : forallb f l = true -> List.filter f l = l.
Proof.
  induction l as [|a l IH]; simpl; [reflexivity|].
  intros H. apply andb_prop in H. destruct H as [-> H]. now rewrite IH.
Qed.

Lemma forallb_filter {A} (f : A -> bool) l : forallb f (List.filter f l) = true.
Proof.
  induction l as [|a l IH]; simpl; [reflexivity|].
  destruct (f a) eqn:E; simpl; rewrite ?E; exact IH.
Qed.

Lemma openai_settled x y :
  normalize_for_openai x = Return y ->
  forallb has_content y = true /\ alternating y = true.
Proof.
  unfold normalize_for_openai. intros H.
  pose proof (forallb_filter has_content x) as Hall.
  destruct (List.filter has_content x) as [|m rest]; [now injection H as <-|].
  rewrite merge_loop_start in H. simpl in Hall. apply andb_prop in Hall.
  destruct (merge_from_settled _ _ _ H (proj1 Hall) (proj2 Hall)) as (H1 & H2 & _).
  auto.
Qed.

Lemma openai_fixed y :
  forallb has_content y = true -> alternating y = true ->
  normalize_for_openai y = Return y.
Proof.
  intros H1 H2. unfold normalize_for_openai. rewrite (filter_all _ _ H1).
  destruct y as [|m rest]; [reflexivity|].
  rewrite merge_loop_start. now apply merge_from_alternating.
Qed.

Lemma has_role_iff r m : has_role r m = true <-> role m = Some r.
Proof.
  unfold has_role. destruct (role m) as [x|]; [|split; discriminate].
  rewrite String.eqb_eq. split; congruence.
Qed.

Lemma start_correction_started l : start_correction true l = l.
Proof.
  induction l as [|m l IH]; simpl; [reflexivity|].
  destruct (has_role "system" m); now rewrite IH.
Qed.

Lemma start_correction_content b l :
  forallb has_content l = true -> forallb has_content (start_correction b l) = true.
Proof.
  revert b. induction l as [|m l IH]; intros b H; simpl in *; [reflexivity|].
  apply andb_prop in H. destruct H as [Hm Hl].
  destruct (has_role "system" m); [simpl; now rewrite Hm, IH|].
  destruct b; [simpl; now rewrite Hm, IH|].
  destruct (has_role "assistant" m); simpl; now rewrite Hm, IH.
Qed.

Lemma start_correction_after_system l : forall prev,
  has_role "system" prev = true ->
  alternating (prev :: l) = true ->
  alternating (prev :: start_correction false l) = true.
Proof.
  induction l as [|m l IH]; intros prev Hp Ha; [reflexivity|].
  cbn [alternating] in Ha. apply andb_prop in Ha. destruct Ha as [Hs Ha].
  apply has_role_iff in Hp. simpl.
  destruct (has_role "system" m) eqn:Hm.
  - apply has_role_iff in Hm. unfold same_role in Hs. rewrite Hm, Hp in Hs.
    discriminate.
  - destruct (has_role "assistant" m) eqn:Hasst; rewrite start_correction_started.
    + apply has_role_iff in Hasst. cbn [alternating].
      unfold same_role at 1 2. rewrite Hp, Hasst. simpl. exact Ha.
    + cbn [alternating]. now rewrite Hs.
Qed.

Lemma start_correction_alternating l :
  alternating l = true -> alternating (start_correction false l) = true.
Proof.
  destruct l as [|m l]; [reflexivity|]. intros Ha. simpl.
  destruct (has_role "system" m) eqn:Hm.
  - now apply start_correction_after_system.
  - destruct (has_role "assistant" m) eqn:Hasst; rewrite start_correction_started;
      [|exact Ha].
    apply has_role_iff in Hasst. cbn [alternating].
    unfold same_role at 1. rewrite Hasst. simpl. exact Ha.
Qed.

Lemma start_correction_idem l :
  start_correction false (start_correction false l) = start_correction false l.
Proof.
  induction l as [|m l IH]; [reflexivity|]. simpl.
  destruct (has_role "system" m) eqn:Hm; simpl; [now rewrite Hm, IH|].
  destruct (has_role "assistant" m) eqn:Hasst; simpl;
    rewrite ?Hm, ?Hasst, !start_correction_started; reflexivity.
Qed.

Lemma gemini_settled x y :
  normalize_for_gemini x = Return y ->
  forallb has_content y = true /\ alternating y = true
  /\ start_correction false y = y.
Proof.
  unfold normalize_for_gemini. intros H.
  pose proof (forallb_filter has_content x) as Hall.
  destruct (List.filter has_content x) as [|m rest]; [now injection H as <-|].
  rewrite merge_loop_start in H.
  destruct (merge_from m rest) as [merged|] eqn:Hm; [|discriminate].
  injection H as <-. simpl in Hall. apply andb_prop in Hall.
  destruct (merge_from_settled _ _ _ Hm (proj1 Hall) (proj2 Hall)) as (H1 & H2 & _).
  split; [now apply start_correction_content|].
  split; [now apply start_correction_alternating | apply start_correction_idem].
Qed.

Lemma gemini_fixed y :
  forallb has_content y = true -> alternating y = true ->
  start_correction false y = y ->
  normalize_for_gemini y = Return y.
Proof.
  intros H1 H2 H3. unfold normalize_for_gemini. rewrite (filter_all _ _ H1).
  destruct y as [|m rest]; [reflexivity|].
  rewrite merge_loop_start, merge_from_alternating by exact H2. now rewrite H3.
Qed.

(** C8: normalizing a normalized list of messages gives it back, for the
    OpenAI shape and for the Gemini shape; where the first pass raises (a
    text part without its text), so does the double pass. *)
Theorem normalization_idempotent x :
  twice normalize_for_openai x = normalize_for_openai x
  /\ twice normalize_for_gemini x = normalize_for_gemini x.
Proof.
  unfold twice. split.
  - destruct (normalize_for_openai x) as [y|e] eqn:H; [|reflexivity].
    destruct (openai_settled x y H). now apply openai_fixed.
  - destruct (normalize_for_gemini x) as [y|e] eqn:H; [|reflexivity].
    destruct (gemini_settled x y H) as (H1 & H2 & H3). now apply gemini_fixed.
Qed.

End NormalizationFacts.

(** ** Router and execution engine *)

Module EngineFacts.
Import Errors KeyManager Rotation CacheValidator Engine.

(** Scenario 2 of the specification: groq answers 429 before the first
    chunk; its key is quarantined and the client gets the stream of the
    next profile from its first chunk on. *)
Example fail_fast_429 :
  let '(r, w) := stream_chain (groq_fails 429) sample_cfg providers [] "fast_chat"
                   ["groq-p"; "mistral-p"] None sample_world in
  match r with
  | Streamed name body =>
      name = "mistral-p"
      /\ fst (fst (consume (groq_fails 429) 5 body w)) = ["Hel"; "lo"]
      /\ option_map (fun p => map fst (quarantined p)) (pools (key_manager w) !! "groq")
         = Some ["gsk-1"]
  | _ => False
  end.
Proof. vm_compute. auto. Qed.

(** Scenario 3: groq yields a chunk and then fails; the client gets the
    chunk and the error, the next profile is not asked, the key is released. *)
Example mid_stream_failure :
  let '(r, w) := stream_chain groq_resets sample_cfg providers [] "fast_chat"
                   ["groq-p"; "mistral-p"] None sample_world in
  match r with
  | Streamed name body =>
      name = "groq-p"
      /\ (let '(cs, fin, w') := consume groq_resets 5 body w in
          cs = ["Hel"] /\ fin = Some (Raised (FromAdapter (OtherError "reset")))
          /\ calls w' = [("groq-p", "gsk-1")]
          /\ option_map available (pools (key_manager w') !! "groq")
             = Some ["gsk-2"; "gsk-3"; "gsk-1"])
  | _ => False
  end.
Proof. vm_compute. auto. Qed.

(** *** Streaming: fallback before the first chunk only *)

(** The first item of the wrapper is a chunk, the end of an empty stream,
    or [ProviderUnavailableError]; in each case the wrapper has left its
    initial state. *)
Lemma stream_attempts_first up profile provider ma left : forall last w ev st w',
  stream_attempts up profile provider ma left last w = (ev, st, w') ->
  st <> NotStarted
  /\ forall e, ev = Raised e -> st = Over /\ is_unavailable e = true.
Proof.
  induction left as [|left IH]; intros last w ev st w' H; simpl in H.
  - injection H as <- <- <-. split; [discriminate|]. now intros e [= <-].
  - destruct (get_key (key_manager w) provider) as [[k| |] km];
      try (eapply IH; exact H).
    destruct (chat_stream up profile k _) as [[|c cs] [|e]]; simpl in H;
      try (injection H as <- <- <-; split; [discriminate | intros ? [=]]).
    unfold raised_before_start in H.
    destruct e as [code msg| |]; try (eapply IH; exact H).
    destruct (PyStr.truthy k && (code =? 429)); [|eapply IH; exact H].
    injection H as <- <- <-. split; [discriminate|]. now intros e [= <-].
Qed.

Lemma generator_next_commits up g w ev g' w' :
  generator_next up g w = (ev, g', w') -> committed g' = true.
Proof.
  destruct g as [profile prov st|s]; simpl.
  - destruct (rotation_aware_stream_wrapper up profile prov st w) as [[ev0 st'] w0] eqn:Hn.
    intros [= <- <- <-]. destruct st as [|k s|]; simpl in Hn.
    + apply stream_attempts_first in Hn. destruct Hn as [Hn _]. now destruct st'.
    + destruct (chunks s), (ending s); now injection Hn as <- <- <-.
    + now injection Hn as <- <- <-.
  - destruct (stream_next s). now intros [= <- <- <-].
Qed.

(** Past its first item a generator calls no adapter any more. *)
Lemma committed_calls up g w ev g' w' :
  committed g = true -> generator_next up g w = (ev, g', w') -> calls w' = calls w.
Proof.
  destruct g as [profile prov st|s]; simpl.
  - destruct st as [|k s|]; [discriminate| |]; intros _; simpl.
    + destruct (chunks s), (ending s); intros [= <- <- <-]; try reflexivity.
      unfold key_lifecycle. destruct (PyStr.truthy k); [|reflexivity].
      destruct e as [code msg| |]; try reflexivity.
      destruct (code =? 429); [reflexivity|].
      destruct ((code =? 401) || (code =? 403)); [reflexivity|].
      destruct (500 <=? code); reflexivity.
    + now intros [= <- <- <-].
  - intros _. destruct (stream_next s). now intros [= <- <- <-].
Qed.

Lemma consume_calls up fuel : forall body w,
  committed (iterator body) = true ->
  calls (snd (consume up fuel body w)) = calls w.
Proof.
  induction fuel as [|fuel IH]; intros body w Hc; [reflexivity|].
  simpl. unfold chained_generator.
  assert (Hrelay : forall g0 w0 cs fin w1,
             committed g0 = true -> calls w0 = calls w ->
             (let '(ev, c', w') :=
                let '(ev, g, w') := generator_next up g0 w0 in
                (ev, {| first_chunk := None; iterator := g |}, w') in
              match ev with
              | Yield chunk =>
                  let '(cs, fin, w'') := consume up fuel c' w' in (chunk :: cs, fin, w'')
              | _ => ([], Some ev, w')
              end) = (cs, fin, w1) -> calls w1 = calls w).
  { intros g0 w0 cs fin w1 Hg Hw H.
    destruct (generator_next up g0 w0) as [[ev g1] w2] eqn:Hn.
    pose proof (committed_calls _ _ _ _ _ _ Hg Hn) as Hcalls.
    pose proof (generator_next_commits _ _ _ _ _ _ Hn) as Hg1.
    destruct ev.
    - specialize (IH {| first_chunk := None; iterator := g1 |} w2 Hg1).
      destruct (consume up fuel _ w2) as [[cs' fin'] w3]. simpl in IH.
      injection H as <- <- <-. congruence.
    - injection H as <- <- <-. congruence.
    - injection H as <- <- <-. congruence. }
  destruct (first_chunk body) as [chunk|].
  - destruct (PyStr.truthy chunk).
    + specialize (IH {| first_chunk := None; iterator := iterator body |} w Hc).
      destruct (consume up fuel _ w) as [[cs fin] w3]. exact IH.
    + match goal with |- calls (snd ?x) = _ => destruct x as [[cs fin] w1] eqn:E end.
      simpl. eapply Hrelay; [exact Hc | reflexivity | exact E].
  - match goal with |- calls (snd ?x) = _ => destruct x as [[cs fin] w1] eqn:E end.
    simpl. eapply Hrelay; [exact Hc | reflexivity | exact E].
Qed.

(** C1 does not hold on the agent path.  A streaming request that the
    dispatcher hands to an agent driver does not go through [route_request]
    but through [_execute_llm_step], which has no guard on chunks already
    yielded.  With groq yielding one chunk and then failing, the LLM step
    yields that chunk, asks groq again with its other keys, and then falls
    back onto cerebras, the next profile, whose chunks follow the ones of
    groq: a fallback after the first chunk, which the stream wrapper of
    [route_request] excludes by its [stream_started] flag. *)
Lemma agent_step_goes_on_after_chunk :
  let chain := ["groq-react"; "cerebras-react"; "sambanova-react"; "mistral-react"] in
  fst (handle_unified_chat_completions groq_resets sample_cfg sample_cfg
         providers providers [] (ask "coding_agent" true) sample_world)
  = ToAgent chain
  /\ (let '(cs, fin, w) :=
        _execute_llm_step groq_resets sample_cfg [] chain None sample_world in
      cs = ["Hel"; "Hel"; "Hel"; "Hel"; "lo"] /\ fin = Return tt
      /\ calls w = [("cerebras-react", "csk-1"); ("groq-react", "gsk-3");
                    ("groq-react", "gsk-2"); ("groq-react", "gsk-1")]).
Proof. vm_compute. auto. Qed.

(** The first chunk decides, for the requests [route_request] serves:
    [route_request] asks the generator of a profile for its first item
    before it returns.  If
    that raises, the loop goes on with the rest of the chain under a
    [ProviderUnavailableError] (the one raised, if it is one) and nothing of
    this profile reaches the client.  If it yields a chunk or ends, the
    generator of this profile is what the HTTP layer gets, whatever the rest
    of the chain is; from then on the generator calls no adapter again, and
    an error of the adapter ends it with that error. *)
Theorem fallback_only_before_first_chunk
    up cfg provider_map provider_keys alias name rest last w model_config :
  get_model_config_by_name cfg name = Some model_config ->
  existsb (String.eqb (provider model_config)) provider_map = true ->
  (let '(g, w1) :=
     execute_streaming_request_with_key_rotation up model_config provider_keys w in
   let '(ev, g', w2) := generator_next up g w1 in
   committed g' = true
   /\ stream_chain up cfg provider_map provider_keys alias (name :: rest) last w
      = match ev with
        | Yield chunk =>
            (Streamed name {| first_chunk := Some chunk; iterator := g' |}, w2)
        | StopIteration =>
            (Streamed name {| first_chunk := None; iterator := g' |}, w2)
        | Raised e =>
            stream_chain up cfg provider_map provider_keys alias rest
              (Some (if is_unavailable e then e
                     else ProviderUnavailableError
                            ("Stream startup failed: " ++ str (Some e))%string)) w2
        end)
  /\ (forall fuel body w3,
        committed (iterator body) = true ->
        calls (snd (consume up fuel body w3)) = calls w3)
  /\ (forall profile prov api_key e w3,
        rotation_aware_stream_wrapper up profile prov
          (Streaming api_key {| chunks := []; ending := Broken e |}) w3
        = (Raised (FromAdapter e), Over, key_lifecycle prov api_key e w3)).
Proof.
  intros Hcfg Hmap. split; [|split].
  - destruct (execute_streaming_request_with_key_rotation up model_config
                provider_keys w) as [g w1] eqn:Hex.
    destruct (generator_next up g w1) as [[ev g'] w2] eqn:Hn.
    split; [exact (generator_next_commits _ _ _ _ _ _ Hn)|].
    cbn [stream_chain]. rewrite Hcfg, Hmap. cbn [negb]. rewrite Hex, Hn.
    destruct ev; reflexivity.
  - intros fuel body w3. apply consume_calls.
  - reflexivity.
Qed.

Lemma fallback_only_before_first_chunk_witness :
  (let '(g, w1) :=
     execute_streaming_request_with_key_rotation (groq_fails 429)
       (profile "groq-p" "groq" None) [] sample_world in
   let '(ev, g', w2) := generator_next (groq_fails 429) g w1 in
   committed g' = true
   /\ stream_chain (groq_fails 429) sample_cfg providers [] "fast_chat"
        ("groq-p" :: ["mistral-p"]) None sample_world
      = match ev with
        | Yield chunk =>
            (Streamed "groq-p" {| first_chunk := Some chunk; iterator := g' |}, w2)
        | StopIteration =>
            (Streamed "groq-p" {| first_chunk := None; iterator := g' |}, w2)
        | Raised e =>
            stream_chain (groq_fails 429) sample_cfg providers [] "fast_chat"
              ["mistral-p"]
              (Some (if is_unavailable e then e
                     else ProviderUnavailableError
                            ("Stream startup failed: " ++ str (Some e))%string)) w2
        end)
  /\ (forall fuel body w3,
        committed (iterator body) = true ->
        calls (snd (consume (groq_fails 429) fuel body w3)) = calls w3)
  /\ (forall profile prov api_key e w3,
        rotation_aware_stream_wrapper (groq_fails 429) profile prov
          (Streaming api_key {| chunks := []; ending := Broken e |}) w3
        = (Raised (FromAdapter e), Over, key_lifecycle prov api_key e w3)).
Proof.
  apply (fallback_only_before_first_chunk (groq_fails 429) sample_cfg providers []
           "fast_chat" "groq-p" ["mistral-p"] None sample_world
           (profile "groq-p" "groq" None)); reflexivity.
Defined.

(** *** Providers without a pool *)

Lemma with_keys_same w : with_keys (fun _ => key_manager w) w = w.
Proof. now destruct w. Qed.

Lemma max_attempts_unknown w p :
  is_local p = false -> pools (key_manager w) !! p = None ->
  max_attempts_for w p = 1.
Proof.
  intros Hloc Hl. unfold max_attempts_for, status_total_keys. now rewrite Hloc, Hl.
Qed.

(** C10: for a provider that has no pool and whose name does not start with
    "local", [get_key] returns [None] and leaves the manager as it is;
    [GetKeyTimeoutError] comes only from a configured pool whose queue is
    empty once the retired keys in it are dropped; and each caller ends its
    attempts on such a provider with [ProviderUnavailableError]: the unary
    loop and the streaming wrapper of [services.py] by raising it, the
    agent's LLM step by recording it for the chain. *)
Theorem missing_pool_is_unavailable up m p :
  is_local p = false -> pools m !! p = None ->
  get_key m p = (NoKey, m)
  /\ (forall m' q,
        fst (get_key m' q) = KeyTimeout ->
        is_local q = false
        /\ exists pool pool',
             pools m' !! q = Some pool
             /\ (forall k, In k (available pool) -> PyDict.mem k (retired pool) = true)
             /\ pools (snd (get_key m' q)) !! q = Some pool'
             /\ available pool' = [])
  /\ (forall w model_config,
        key_manager w = m -> provider model_config = p ->
        exists detail,
          execute_request_with_key_rotation up model_config [] w
          = (Raise (ProviderUnavailableError detail), w))
  /\ (forall w profile,
        key_manager w = m ->
        exists detail,
          rotation_aware_stream_wrapper up profile p NotStarted w
          = (Raised (ProviderUnavailableError detail), Over, w))
  /\ (forall w profile left last,
        key_manager w = m ->
        step_attempts up profile p (S left) last w
        = ([], None,
           Some (ProviderUnavailableError ("No keys for '" ++ p ++ "'")%string), w)).
Proof.
  intros Hloc Hl.
  pose proof (PoolFacts.get_key_unknown m p Hloc Hl) as Hget.
  split; [exact Hget|]. split; [|split; [|split]].
  - intros m' q Ht. pose proof Ht as Ht'. apply PoolFacts.get_key_timeout_iff in Ht'.
    destruct Ht' as (Hq & pool & Hpool & Hall). split; [exact Hq|].
    unfold get_key in *. rewrite Hq, Hpool in *.
    pose proof (PoolFacts.take_key_none_empty (retired pool) (available pool)) as He.
    destruct (take_key (retired pool) (available pool)) as [[k|] q'];
      [discriminate|]. simpl in *.
    exists pool, (with_available q' pool).
    split; [reflexivity|]. split; [exact Hall|].
    split; [apply lookup_insert_eq | now apply He].
  - intros w mc Hw Hp. subst m p. unfold execute_request_with_key_rotation.
    cbn [user_key_for PyDict.get].
    rewrite (max_attempts_unknown w _ Hloc Hl). change (Z.to_nat 1) with 1%nat.
    cbn [unary_attempts].
    rewrite Hget, with_keys_same. eexists. reflexivity.
  - intros w profile Hw. subst m. cbn [rotation_aware_stream_wrapper].
    rewrite (max_attempts_unknown w _ Hloc Hl). change (Z.to_nat 1) with 1%nat.
    cbn [stream_attempts].
    rewrite Hget, with_keys_same. eexists. reflexivity.
  - intros w profile left last Hw. subst m. cbn [step_attempts].
    rewrite Hget, with_keys_same. reflexivity.
Qed.

Lemma missing_pool_is_unavailable_witness :
  get_key sample_keys "sambanova" = (NoKey, sample_keys)
  /\ exists detail,
       execute_request_with_key_rotation quiet
         (profile "sambanova-p" "sambanova" None) [] sample_world
       = (Raise (ProviderUnavailableError detail), sample_world).
Proof.
  destruct (missing_pool_is_unavailable quiet sample_keys "sambanova")
    as (H1 & _ & H3 & _); [reflexivity | reflexivity |].
  split; [exact H1|].
  exact (H3 sample_world (profile "sambanova-p" "sambanova" None) eq_refl eq_refl).
Defined.

(** *** HTTP 400 *)

(** The unary path raises nothing but [ProviderUnavailableError]. *)
Lemma unary_attempts_raise up profile prov ma left : forall last w e w',
  unary_attempts up profile prov ma left last w = (Raise e, w') ->
  is_unavailable e = true.
Proof.
  induction left as [|left IH]; intros last w e w' H; simpl in H.
  - now injection H as <- <-.
  - destruct (get_key (key_manager w) prov) as [[k| |] km];
      try (eapply IH; exact H).
    destruct (chat up profile k _) as [r|[code msg| |]];
      try discriminate; try (eapply IH; exact H).
    destruct ((code =? 401) || (code =? 403)); [eapply IH; exact H|].
    destruct (code =? 429); [now injection H as <- <-|].
    match type of H with
    | (if ?c then _ else _) = _ => destruct c; eapply IH; exact H
    end.
Qed.

Lemma unary_raises_unavailable up model_config provider_keys w e w' :
  execute_request_with_key_rotation up model_config provider_keys w = (Raise e, w') ->
  is_unavailable e = true.
Proof.
  unfold execute_request_with_key_rotation.
  destruct (user_key_for provider_keys (provider model_config)) as [uk|].
  - destruct (chat up _ uk _); [discriminate|]. now intros [= <- <-].
  - apply unary_attempts_raise.
Qed.

(** Releasing a key that is neither retired nor quarantined puts it at the
    end of the queue and changes nothing else. *)
Lemma release_key_requeues m p pool k :
  is_local p = false -> pools m !! p = Some pool ->
  PyDict.mem k (retired pool) = false -> PyDict.mem k (quarantined pool) = false ->
  pools (release_key m p k) !! p = Some (with_available (available pool ++ [k]) pool).
Proof.
  intros Hloc Hl Hr Hq. unfold release_key. rewrite Hloc, Hl, Hr, Hq.
  apply PoolFacts.set_pool_lookup.
Qed.

(** C5, as stated: with groq answering 400 to every call, the unary path
    asks it four times, once more than it has keys, and ends with
    [ProviderUnavailableError], not with a bad-request error; the keys are
    back in the queue. *)
Lemma unary_400_is_retried :
  exists detail w,
    execute_request_with_key_rotation (groq_fails 400)
      (profile "groq-p" "groq" None) [] sample_world
    = (Raise (ProviderUnavailableError detail), w)
    /\ calls w = [("groq-p", "gsk-1"); ("groq-p", "gsk-3"); ("groq-p", "gsk-2");
                   ("groq-p", "gsk-1")]
    /\ option_map available (pools (key_manager w) !! "groq")
       = Some ["gsk-2"; "gsk-3"; "gsk-1"]
    /\ forall d, ProviderUnavailableError detail <> bad_request d.
Proof.
  eexists. eexists. split; [vm_compute; reflexivity|].
  split; [reflexivity|]. split; [reflexivity | discriminate].
Qed.

(** C5, amended: on HTTP 400 for the key it acquired, the unary loop hands
    the key back with [release_key] (no quarantine, no retirement) and goes
    on to its next attempt; what the unary path raises in the end is
    [ProviderUnavailableError], never a bad-request error.  The agent's LLM
    step is the place where HTTP 400 releases the key and raises
    [LLMBadRequestError] to the driver, without a further attempt. *)
Theorem http_400_releases_key up profile prov api_key km message w :
  get_key (key_manager w) prov = (GotKey api_key, km) ->
  (forall ma left last,
     chat up profile api_key (call_number w) = Failure (HTTPStatusError 400 message) ->
     unary_attempts up profile prov ma (S left) last w
     = unary_attempts up profile prov ma left
         (Some (FromAdapter (HTTPStatusError 400 message)))
         (release prov api_key (called profile api_key (with_keys (fun _ => km) w))))
  /\ (forall model_config provider_keys w0 e w',
        execute_request_with_key_rotation up model_config provider_keys w0
        = (Raise e, w') ->
        is_unavailable e = true)
  /\ (forall left last cs,
        PyStr.truthy api_key = true ->
        chat_stream up profile api_key (call_number w)
        = {| chunks := cs; ending := Broken (HTTPStatusError 400 message) |} ->
        step_attempts up profile prov (S left) last w
        = (cs,
           Some (Raise (bad_request
                          ("Provider returned 400 Bad Request: " ++ message)%string)),
           last,
           release prov api_key (called profile api_key (with_keys (fun _ => km) w)))).
Proof.
  intros Hget. split; [|split].
  - intros ma left last Hchat. cbn [unary_attempts]. rewrite Hget.
    change (call_number (with_keys (fun _ => km) w)) with (call_number w).
    rewrite Hchat. reflexivity.
  - intros mc pk w0 e w'. apply unary_raises_unavailable.
  - intros left last cs Hk Hs. cbn [step_attempts]. rewrite Hget, Hk.
    change (call_number (with_keys (fun _ => km) w)) with (call_number w).
    rewrite Hs. reflexivity.
Qed.

Lemma http_400_releases_key_witness :
  unary_attempts (groq_fails 400) "groq-p" "groq" 4 (S 3) None sample_world
  = unary_attempts (groq_fails 400) "groq-p" "groq" 4 3
      (Some (FromAdapter (HTTPStatusError 400 "refused")))
      (release "groq" "gsk-1"
         (called "groq-p" "gsk-1"
            (with_keys (fun _ => snd (get_key sample_keys "groq")) sample_world))).
Proof.
  destruct (http_400_releases_key (groq_fails 400) "groq-p" "groq" "gsk-1"
              (snd (get_key sample_keys "groq")) "refused" sample_world)
    as (H & _); [vm_compute; reflexivity|].
  exact (H 4 3%nat None eq_refl).
Defined.

(** *** Which profiles are called *)





Lemma key_lifecycle_calls prov k e w : calls (key_lifecycle prov k e w) = calls w.
Proof.
  unfold key_lifecycle. destruct (PyStr.truthy k); [|reflexivity].
  destruct e as [code msg| |]; try reflexivity.
  destruct (code =? 429); [reflexivity|].
  destruct ((code =? 401) || (code =? 403)); [reflexivity|].
  destruct (500 <=? code); reflexivity.
Qed.









(** *** The chain of a request *)



Lemma py_index_in {A} (l : list A) i :
  0 <= i < py_len l ->
  exists x, nth_error l (Z.to_nat i) = Some x /\ py_index l i = Some x.
Proof.
  intros Hi. unfold py_index, py_len in *.
  destruct (Z.ltb_spec i 0); [lia|]. destruct (Z.ltb_spec i 0); [lia|].
  destruct (nth_error l (Z.to_nat i)) as [x|] eqn:Hn; [now exists x|].
  apply nth_error_None in Hn. lia.
Qed.






(** *** The response cache *)

Lemma existsb_false {A} (f : A -> bool) l :
  existsb f l = false <-> forall x, In x l -> f x = false.
Proof.
  induction l as [|a l IH]; simpl; [split; [intros _ ? [] | reflexivity]|].
  rewrite orb_false_iff, IH. split.
  - intros [Ha Hl] x [<-|Hx]; auto.
  - intros H. split; [apply H; now left | intros x Hx; apply H; now right].
Qed.

Lemma truthy_iff s : PyStr.truthy s = true <-> s <> "".
Proof. destruct s; simpl; split; congruence. Qed.

Lemma prefix_append p rest : String.prefix p (p ++ rest)%string = true.
Proof.
  induction p as [|c p IH]; simpl; [now destruct rest|].
  destruct (Ascii.ascii_dec c c); [exact IH | congruence].
Qed.

(** A text that occurs in another is found there by [in]. *)
Lemma occurs_contains sig content :
  occurs_in sig content -> PyStr.contains sig content = true.
Proof.
  intros (before & after & ->). induction before as [|c before IH].
  - change ("" ++ sig ++ after)%string with (sig ++ after)%string.
    destruct (sig ++ after)%string eqn:E; cbn [PyStr.contains];
      rewrite <- E, prefix_append; reflexivity.
  - change (String c before ++ sig ++ after)%string
      with (String c (before ++ sig ++ after))%string.
    cbn [PyStr.contains]. rewrite IH. apply orb_true_r.
Qed.

(** The signatures the specification knows are among those the validator
    looks for. *)
Lemma known_signature_listed sig :
  known_error_signature sig -> In sig error_signatures.
Proof.
  unfold known_error_signature, error_signatures.
  intros H; repeat destruct H as [->|H]; subst; simpl; tauto.
Qed.

(** No number from 400 on passes the validator's comparison. *)
Lemma ge_400_false v : ge_400 v = Some false -> ~ at_least_400 v.
Proof.
  destruct v as [|b|n|x|negative| |s|items|fields]; simpl; try discriminate; try tauto.
  - intros [= H]. apply Z.leb_gt in H. lia.
  - intros [= H] Hle. apply Qle_bool_iff in Hle. congruence.
  - intros [= H] ->. discriminate.
Qed.

(** What the validator lets pass is admissible by the rules. *)
Lemma safe_admissible jl content :
  objects_in_braces jl ->
  is_content_safe_to_cache jl content = Return true -> admissible jl content.
Proof.
  intros Hbr. unfold is_content_safe_to_cache, admissible, non_blank,
    no_error_signature, no_json_error.
  rewrite PyStrFacts.strip_truthy, <- truthy_iff.
  destruct (PyStr.truthy content); cbn [negb orb]; [|discriminate].
  destruct (PyStr.blank content); cbn [negb orb]; [discriminate|].
  destruct (existsb _ error_signatures) eqn:Hsig; [discriminate|].
  assert (Hno : forall sig, known_error_signature sig -> ~ occurs_in sig content).
  { intros sig Hk Hocc. apply occurs_contains in Hocc.
    rewrite (proj1 (existsb_false _ _) Hsig sig (known_signature_listed sig Hk)) in Hocc.
    discriminate. }
  intros H. split; [split; reflexivity|]. split; [exact Hno|].
  intros data Hjl. destruct (Hbr content data Hjl) as [H1 H2].
  rewrite H1, H2, Hjl in H. cbn [andb] in H.
  destruct (PyDict.mem "error" data) eqn:Herr; [discriminate|].
  split; [now apply PyDictFacts.mem_false_iff|].
  intros v Hv. rewrite Hv in H. apply ge_400_false.
  destruct (ge_400 v) as [[|]|]; [discriminate | reflexivity | discriminate].
Qed.

Lemma cache_read_served up cfg chain w resp key :
  objects_in_braces (json_loads up) ->
  cache_read up cfg chain w = (Some resp, key) ->
  exists r k cached,
    redis_client (rotor w) = Some r
    /\ redis_get r k = Some (Some cached)
    /\ admissible (json_loads up) cached
    /\ model_validate_json up cached = Some resp.
Proof.
  intros Hbr. unfold cache_read.
  destruct (redis_client (rotor w)) as [r|]; [|discriminate].
  destruct chain as [|primary rest]; [discriminate|].
  destruct (get_model_config_by_name cfg primary); [|discriminate].
  destruct (create_cache_key up primary) as [k|]; [|discriminate].
  destruct (PyStr.truthy k); [|discriminate].
  destruct (redis_get r k) as [[cached|]|] eqn:Hget; try discriminate.
  destruct (PyStr.truthy cached); [|discriminate].
  destruct (is_content_safe_to_cache (json_loads up) cached) as [[|]|] eqn:Hsafe;
    try discriminate.
  intros [= Hv _]. exists r, k, cached. split; [reflexivity|]. split; [exact Hget|].
  split; [now apply safe_admissible | exact Hv].
Qed.

Lemma cache_read_ignored up cfg chain w r primary rest key cached :
  objects_in_braces (json_loads up) ->
  redis_client (rotor w) = Some r -> chain = primary :: rest ->
  create_cache_key up primary = Some key ->
  redis_get r key = Some (Some cached) ->
  ~ admissible (json_loads up) cached ->
  fst (cache_read up cfg chain w) = None.
Proof.
  intros Hbr Hr -> Hk Hget Hbad. unfold cache_read. rewrite Hr, Hk.
  destruct (get_model_config_by_name cfg primary); [|reflexivity].
  destruct (PyStr.truthy key); [|reflexivity]. rewrite Hget.
  destruct (PyStr.truthy cached); [|reflexivity].
  destruct (is_content_safe_to_cache (json_loads up) cached) as [[|]|] eqn:Hsafe;
    try reflexivity.
  apply safe_admissible in Hsafe; [contradiction | exact Hbr].
Qed.

Lemma unary_chain_not_cached up cfg pm pk alias ck chain : forall last w resp w',
  unary_chain up cfg pm pk alias ck chain last w <> (Replied resp true, w').
Proof.
  induction chain as [|name rest IH]; intros last w resp w'; simpl; [discriminate|].
  destruct (get_model_config_by_name cfg name) as [mc|]; [|apply IH].
  destruct (negb _); [apply IH|].
  destruct (execute_request_with_key_rotation up mc pk w) as [[result|e] w1].
  - destruct (cache_write up ck result w1) as [[u|e] w2]; discriminate.
  - destruct (is_unavailable e); [apply IH | discriminate].
Qed.

Lemma stream_chain_not_replied up cfg pm pk alias chain : forall last w resp b w',
  stream_chain up cfg pm pk alias chain last w <> (Replied resp b, w').
Proof.
  induction chain as [|name rest IH]; intros last w resp b w'; simpl; [discriminate|].
  destruct (get_model_config_by_name cfg name) as [mc|]; [|apply IH].
  destruct (negb _); [apply IH|].
  destruct (execute_streaming_request_with_key_rotation up mc pk w) as [g w1].
  destruct (generator_next up g w1) as [[[c| |e] g'] w2]; try discriminate. apply IH.
Qed.

(** C9: a response that [route_request] serves from the cache is the
    validated form of a cached text that passes the admission rules of the
    specification at that moment - not blank, free of the known error
    signatures, and, if it reads as a JSON object, without an [error] field
    and without a [status_code] of 400 or more; and a cached text that fails
    a rule is passed over: the request goes through the loop over the
    providers as if nothing were cached. *)
Theorem cache_serves_only_admissible up cfg provider_map provider_keys req :
  objects_in_braces (json_loads up) ->
  (forall w resp w',
     route_request up cfg provider_map provider_keys req w = (Replied resp true, w') ->
     exists r key cached,
       redis_client (rotor w') = Some r
       /\ redis_get r key = Some (Some cached)
       /\ admissible (json_loads up) cached
       /\ model_validate_json up cached = Some resp)
  /\ (forall w chain0 primary rest w1 r key cached,
        stream req = false ->
        model_group_alias cfg !! model req = Some chain0 -> chain0 <> [] ->
        load_balance cfg (model req) chain0 w = (Return (primary :: rest), w1) ->
        redis_client (rotor w1) = Some r ->
        create_cache_key up primary = Some key ->
        redis_get r key = Some (Some cached) ->
        ~ admissible (json_loads up) cached ->
        route_request up cfg provider_map provider_keys req w
        = unary_chain up cfg provider_map provider_keys (model req)
            (snd (cache_read up cfg (primary :: rest) w1)) (primary :: rest) None w1).
Proof.
  intros Hbr. split.
  - intros w resp w'. unfold route_request.
    destruct (model_group_alias cfg !! model req) as [[|name chain0]|];
      try discriminate.
    destruct (load_balance cfg (model req) (name :: chain0) w) as [[chain|e] w1];
      [|discriminate].
    destruct (stream req).
    + intros H. now apply stream_chain_not_replied in H.
    + destruct (cache_read up cfg chain w1) as [[cached_resp|] ck] eqn:Hread.
      * intros [= <- <-]. eapply cache_read_served; eassumption.
      * intros H. now apply unary_chain_not_cached in H.
  - intros w chain0 primary rest w1 r key cached Hs Hl Hne Hlb Hr Hk Hget Hbad.
    unfold route_request. rewrite Hl. destruct chain0 as [|n c]; [congruence|].
    rewrite Hlb, Hs.
    pose proof (cache_read_ignored up cfg _ w1 r primary rest key cached
                  Hbr Hr eq_refl Hk Hget Hbad) as Hnone.
    destruct (cache_read up cfg (primary :: rest) w1) as [[x|] ck]; [discriminate|].
    reflexivity.
Qed.

Lemma sample_loads_braces : objects_in_braces sample_loads.
Proof.
  intros s data. unfold sample_loads.
  destruct (String.eqb_spec (PyStr.strip s) good_text) as [->|_]; [now vm_compute|].
  destruct (String.eqb_spec (PyStr.strip s) error_text) as [->|_]; [now vm_compute|].
  destruct (String.eqb_spec (PyStr.strip s) status_text) as [->|_]; [now vm_compute|].
  discriminate.
Qed.

Lemma cache_serves_only_admissible_witness :
  (exists r key cached,
     redis_client (rotor (world_caching good_text)) = Some r
     /\ redis_get r key = Some (Some cached)
     /\ admissible sample_loads cached
     /\ model_validate_json caching cached = Some cached_hello).
Proof.
  destruct (cache_serves_only_admissible caching plain_cfg providers []
              (ask "plain" false) sample_loads_braces) as (H & _).
  apply (H (world_caching good_text) cached_hello (world_caching good_text)).
  vm_compute. reflexivity.
Defined.

Example validator_samples :
  is_content_safe_to_cache sample_loads "Hello" = Return true
  /\ is_content_safe_to_cache sample_loads "" = Return false
  /\ is_content_safe_to_cache sample_loads "   " = Return false
  /\ is_content_safe_to_cache sample_loads "Internal Server Error" = Return false
  /\ is_content_safe_to_cache sample_loads (" " ++ error_text)%string = Return false
  /\ is_content_safe_to_cache sample_loads status_text = Return false
  /\ is_content_safe_to_cache sample_loads good_text = Return true.
Proof. vm_compute. repeat split. Qed.

(** A cached error is passed over and the provider answers. *)
Example cached_error_is_ignored :
  fst (route_request caching plain_cfg providers [] (ask "plain" false)
         (world_caching error_text))
  = Replied hello false
  /\ fst (route_request caching plain_cfg providers [] (ask "plain" false)
            (world_caching status_text))
     = Replied hello false
  /\ fst (route_request caching plain_cfg providers [] (ask "plain" false)
            (world_caching good_text))
     = Replied cached_hello true.
Proof. vm_compute. auto. Qed.

End EngineFacts.

(** ** More on strings *)

Module StringFacts.
Import PyStr.

Lemma rstrip_lstrip s : rstrip (lstrip s) = lstrip (rstrip s).
Proof.
  induction s as [|c s IH]; [reflexivity|].
  cbn [lstrip]. destruct (is_space c) eqn:Hc.
  - rewrite IH. cbn [rstrip].
    destruct (rstrip s) as [|c' r]; cbn [lstrip]; rewrite Hc; reflexivity.
  - cbn [rstrip].
    destruct (rstrip s) as [|c' r]; rewrite ?Hc; cbn [lstrip]; rewrite Hc; reflexivity.
Qed.

Lemma lstrip_idem s : lstrip (lstrip s) = lstrip s.
Proof.
  induction s as [|c s IH]; [reflexivity|].
  cbn [lstrip]. destruct (is_space c) eqn:Hc; [exact IH|]. simpl. now rewrite Hc.
Qed.

Lemma rstrip_idem s : rstrip (rstrip s) = rstrip s.
Proof.
  induction s as [|c s IH]; [reflexivity|].
  cbn [rstrip]. destruct (rstrip s) as [|c' r] eqn:Hr.
  - destruct (is_space c) eqn:Hc; simpl; [reflexivity | now rewrite Hc].
  - cbn [rstrip]. cbn [rstrip] in IH. now rewrite IH.
Qed.

Lemma strip_idem s : strip (strip s) = strip s.
Proof.
  unfold strip. now rewrite rstrip_lstrip, rstrip_idem, lstrip_idem.
Qed.

Lemma append_cons c a b : (String c a ++ b)%string = String c (a ++ b)%string.
Proof. reflexivity. Qed.

Lemma length_append a b :
  String.length (a ++ b)%string = (String.length a + String.length b)%nat.
Proof. induction a as [|c a IH]; simpl; [reflexivity | now rewrite IH]. Qed.

Lemma substring_all s : substring 0 (String.length s) s = s.
Proof. induction s as [|c s IH]; simpl; [reflexivity | now rewrite IH]. Qed.

Lemma substring_skip a b n :
  substring (String.length a) n (a ++ b)%string = substring 0 n b.
Proof. induction a as [|c a IH]; simpl; [reflexivity | exact IH]. Qed.

Lemma substring_head a b :
  substring 0 (String.length a) (a ++ b)%string = a.
Proof. induction a as [|c a IH]; simpl; [now destruct b | now rewrite IH]. Qed.

Lemma substring_cut s n :
  (n <= String.length s)%nat ->
  s = (substring 0 n s ++ substring n (String.length s - n) s)%string.
Proof.
  revert n. induction s as [|c s IH]; intros n Hn; simpl in Hn.
  - destruct n; [reflexivity | lia].
  - destruct n as [|n]; simpl.
    + now rewrite substring_all.
    + rewrite append_cons. f_equal. apply IH. lia.
Qed.

(** [s.endswith(suffix)] holds exactly of the strings that are some text
    followed by [suffix]; the text is [s[:-len(suffix)]]. *)
Lemma endswith_append p suffix : endswith suffix (p ++ suffix)%string = true.
Proof.
  unfold endswith. rewrite length_append.
  replace (String.length p + String.length suffix - String.length suffix)%nat
    with (String.length p) by lia.
  rewrite substring_skip, substring_all, String.eqb_refl, andb_true_r.
  apply Nat.leb_le. lia.
Qed.

Lemma endswith_split suffix s :
  endswith suffix s = true ->
  s = (substring 0 (String.length s - String.length suffix) s ++ suffix)%string.
Proof.
  unfold endswith. intros H. apply andb_true_iff in H. destruct H as [Hl He].
  apply Nat.leb_le in Hl. apply String.eqb_eq in He.
  assert (Hc := substring_cut s (String.length s - String.length suffix)).
  replace (String.length s - (String.length s - String.length suffix))%nat
    with (String.length suffix) in Hc by lia.
  rewrite He in Hc. apply Hc. lia.
Qed.

Lemma append_inj_r a b suffix : (a ++ suffix)%string = (b ++ suffix)%string -> a = b.
Proof.
  intros H.
  assert (Hlen : String.length a = String.length b).
  { apply (f_equal String.length) in H. rewrite !length_append in H. lia. }
  rewrite <- (substring_head a suffix), H, Hlen. apply substring_head.
Qed.

End StringFacts.

(** ** More on the credential pool *)

Module KeyPoolFacts.
Import KeyManager KeyLoading.

Lemma del_filter {V} k (d : list (string * V)) :
  PyDict.del k d = List.filter (fun kv => negb (String.eqb k (fst kv))) d.
Proof.
  induction d as [|[k' v] d IH]; simpl; [reflexivity|].
  destruct (String.eqb k k'); simpl; now rewrite IH.
Qed.

Lemma del_all_filter {V} (ks : list string) (d : list (string * V)) :
  fold_left (fun d k => PyDict.del k d) ks d
  = List.filter (fun kv => negb (existsb (fun k => String.eqb k (fst kv)) ks)) d.
Proof.
  revert d. induction ks as [|k ks IH]; intros d; simpl.
  - induction d as [|kv d IHd]; simpl; congruence.
  - rewrite IH, del_filter.
    induction d as [|kv d IHd]; simpl; [reflexivity|].
    destruct (String.eqb k (fst kv)); simpl; [exact IHd|].
    destruct (existsb _ ks); simpl; congruence.
Qed.

Lemma same_key_same_entry {V} (d : list (string * V)) a b :
  List.NoDup (PyDict.keys d) -> In a d -> In b d -> fst a = fst b -> a = b.
Proof.
  induction d as [|kv d IH]; simpl; [tauto|].
  intros Hnd Ha Hb Hk. inversion Hnd as [|? ? Hnot Hnd']; subst.
  destruct Ha as [->|Ha], Hb as [->|Hb]; auto.
  - exfalso. apply Hnot. rewrite Hk. now apply in_map.
  - exfalso. apply Hnot. rewrite <- Hk. now apply in_map.
Qed.

Lemma selected_keys {V} (f : string * V -> bool) (d : list (string * V)) kv :
  List.NoDup (PyDict.keys d) -> In kv d ->
  existsb (fun k => String.eqb k (fst kv)) (map fst (List.filter f d)) = f kv.
Proof.
  intros Hnd Hin. destruct (f kv) eqn:Hf.
  - apply existsb_exists. exists (fst kv). split; [|apply String.eqb_refl].
    apply in_map. apply filter_In. auto.
  - apply not_true_is_false. intros H. apply existsb_exists in H.
    destruct H as (k & Hk & He). apply String.eqb_eq in He. subst k.
    apply in_map_iff in Hk. destruct Hk as (kv' & Hfst & Hin').
    apply filter_In in Hin'. destruct Hin' as [Hin' Hf'].
    rewrite (same_key_same_entry d kv' kv Hnd Hin' Hin Hfst) in Hf'. congruence.
Qed.

(** A round of [_check_quarantine] at clock reading [now] moves exactly the
    entries whose [end_time] has been reached: they leave the quarantine and
    join the queue at its end, in the order of the dictionary; the entries
    with a later [end_time] stay as they are, and nothing else changes. *)
Theorem sweep_releases_what_is_due m now p pool :
  is_local p = false ->
  pools m !! p = Some pool ->
  List.NoDup (PyDict.keys (quarantined pool)) ->
  exists pool',
    pools (_check_quarantine m now) !! p = Some pool'
    /\ quarantined pool'
       = List.filter (fun kv => now <? end_time (snd kv)) (quarantined pool)
    /\ available pool'
       = available pool
         ++ map fst (List.filter (fun kv => end_time (snd kv) <=? now)
                       (quarantined pool))
    /\ retired pool' = retired pool
    /\ total_keys pool' = total_keys pool.
Proof.
  intros Hloc Hl Hnd. exists (sweep_pool now pool).
  split; [rewrite (PoolFacts.check_quarantine_lookup _ _ _ Hloc), Hl; reflexivity|].
  unfold sweep_pool, keys_to_release; simpl. repeat split.
  rewrite del_all_filter. apply filter_ext_in. intros kv Hin.
  rewrite (selected_keys _ _ _ Hnd Hin). destruct (Z.leb_spec (end_time (snd kv)) now);
    destruct (Z.ltb_spec now (end_time (snd kv))); simpl; try reflexivity; lia.
Qed.

Lemma sweep_releases_what_is_due_witness :
  exists pool',
    pools (_check_quarantine waiting 1400) !! "groq" = Some pool'
    /\ quarantined pool'
       = List.filter (fun kv => 1400 <? end_time (snd kv)) (quarantined groq_waiting)
    /\ available pool'
       = available groq_waiting
         ++ map fst (List.filter (fun kv => end_time (snd kv) <=? 1400)
                       (quarantined groq_waiting))
    /\ retired pool' = retired groq_waiting
    /\ total_keys pool' = total_keys groq_waiting.
Proof.
  apply (sweep_releases_what_is_due waiting 1400 "groq" groq_waiting).
  - reflexivity.
  - reflexivity.
  - repeat constructor; simpl; intuition discriminate.
Defined.

Example sweep_sample :
  pools (_check_quarantine waiting 1400) !! "groq"
  = Some {| available := ["gsk-a"; "gsk-b"];
            quarantined := [("gsk-c", {| reason := "HTTP 500"; end_time := 1500 |})];
            retired := []; total_keys := 3;
            free_keys := ["gsk-a"; "gsk-b"]; paid_keys := ["gsk-c"] |}.
Proof. vm_compute. reflexivity. Qed.

(** A key its holder has handed to quarantine or to retirement cannot be
    put back into the queue by a later [release_key]: that call changes
    nothing. *)
Theorem release_after_hand_over_is_void m p k r d now :
  release_key (quarantine_key m p k r d now) p k = quarantine_key m p k r d now
  /\ release_key (retire_key m p k r) p k = retire_key m p k r.
Proof.
  split.
  - unfold quarantine_key. destruct (is_local p) eqn:Hloc.
    + unfold release_key. now rewrite Hloc.
    + simpl. destruct (pools m !! p) as [pool|] eqn:Hl.
      * unfold release_key at 1. rewrite Hloc, PoolFacts.set_pool_lookup. simpl.
        rewrite PyDictFacts.mem_set, String.eqb_refl. simpl. now rewrite orb_true_r.
      * unfold release_key. now rewrite Hloc, Hl.
  - unfold retire_key. destruct (is_local p) eqn:Hloc.
    + unfold release_key. now rewrite Hloc.
    + destruct (pools m !! p) as [pool|] eqn:Hl.
      * destruct (PyDict.mem k (retired pool)) eqn:Hr.
        -- unfold release_key. now rewrite Hloc, Hl, Hr.
        -- unfold release_key at 1. rewrite Hloc, PoolFacts.set_pool_lookup. simpl.
           now rewrite PyDictFacts.mem_set, String.eqb_refl.
      * unfold release_key. now rewrite Hloc, Hl.
Qed.

(** In a pool loaded with distinct keys and used by callers that hand back
    only what they hold, the key [get_key] gives out is a loaded key that no
    caller holds at that moment and that is neither quarantined nor
    retired. *)
Theorem checkout_is_exclusive P free paid shuffled ops t0 t k m' :
  is_local P = false ->
  List.NoDup (free ++ paid) ->
  loaded P free paid shuffled t0 ->
  run_tracked ops t0 = Some t ->
  get_key (mgr t) P = (GotKey k, m') ->
  In k (free ++ paid)
  /\ ~ In k (held_out t P)
  /\ exists pool,
       pools (mgr t) !! P = Some pool
       /\ PyDict.mem k (quarantined pool) = false
       /\ PyDict.mem k (retired pool) = false.
Proof.
  intros Hloc Hnd Hload Hrun Hg.
  destruct (PoolFacts.run_tracked_conserved P (free ++ paid) ops t0 t Hnd Hloc
              (PoolFacts.loaded_conserved _ _ _ _ _ Hload) Hrun) as (pool & Hl & Hc).
  unfold get_key in Hg. rewrite Hloc, Hl in Hg.
  rewrite (PoolFacts.take_key_conserved _ _ _ Hnd Hc) in Hg.
  destruct (available pool) as [|k' q] eqn:Ha; [discriminate|].
  injection Hg as -> _.
  pose proof (PoolFacts.conserved_nodup _ _ _ Hnd Hc) as Hn.
  pose proof (PoolFacts.sole_part _ _ _ _ k Hn) as Hk.
  rewrite Ha in Hk. simpl in Hk. destruct (String.string_dec k k); [|congruence].
  split; [|split].
  - destruct Hc as [Hp _]. eapply Permutation_in; [exact Hp|].
    unfold pool_keys. rewrite Ha. now left.
  - apply (count_occ_not_In String.string_dec). lia.
  - exists pool. split; [exact Hl|].
    split; apply PoolFacts.mem_count; lia.
Qed.

Lemma checkout_is_exclusive_witness :
  In "gsk-a" (["gsk-a"; "gsk-b"] ++ ["gsk-c"])
  /\ ~ In "gsk-a" (held_out (after [Acquire "groq"; Acquire "groq"] groq_start) "groq")
  /\ exists pool,
       pools (mgr (after [Acquire "groq"; Acquire "groq"] groq_start)) !! "groq"
       = Some pool
       /\ PyDict.mem "gsk-a" (quarantined pool) = false
       /\ PyDict.mem "gsk-a" (retired pool) = false.
Proof.
  eapply (checkout_is_exclusive "groq" ["gsk-a"; "gsk-b"] ["gsk-c"]
            ["gsk-b"; "gsk-c"; "gsk-a"] [Acquire "groq"; Acquire "groq"] groq_start).
  - reflexivity.
  - repeat constructor; simpl; intuition discriminate.
  - split; [reflexivity|]. split; [|reflexivity].
    apply Permutation_sym.
    exact (Permutation_cons_append ["gsk-b"; "gsk-c"] "gsk-a").
  - vm_compute. reflexivity.
  - vm_compute. reflexivity.
Defined.

(** What one operation does to the pool of a provider: the pool stays, its
    key lists stay, and its retirement record either stays or gains one key,
    [total_keys] going down by one but not below zero. *)
Lemma apply_op_pool m o p pool :
  pools m !! p = Some pool ->
  exists pool',
    pools (apply_op m o) !! p = Some pool'
    /\ free_keys pool' = free_keys pool
    /\ paid_keys pool' = paid_keys pool
    /\ ((retired pool' = retired pool /\ total_keys pool' = total_keys pool)
        \/ (length (retired pool') = S (length (retired pool))
            /\ total_keys pool' = Z.max 0 (total_keys pool - 1))).
Proof.
  intros Hl.
  assert (Hsame : exists pool', Some pool = Some pool'
            /\ free_keys pool' = free_keys pool /\ paid_keys pool' = paid_keys pool
            /\ ((retired pool' = retired pool /\ total_keys pool' = total_keys pool)
                \/ (length (retired pool') = S (length (retired pool))
                    /\ total_keys pool' = Z.max 0 (total_keys pool - 1))))
    by (exists pool; repeat split; left; split; reflexivity).
  destruct o as [q|q k|q k r d now|q k r|now]; cbn [apply_op].
  - destruct (String.eqb_spec q p) as [->|Hne];
      [|rewrite (PoolFacts.get_key_other _ _ _ Hne), Hl; exact Hsame].
    unfold get_key. destruct (is_local p); [simpl; rewrite Hl; exact Hsame|].
    rewrite Hl. destruct (take_key _ _) as [[k|] q']; simpl;
      rewrite lookup_insert_eq; eexists; (split; [reflexivity|]); simpl; auto.
  - destruct (String.eqb_spec q p) as [->|Hne];
      [|rewrite (PoolFacts.release_key_other _ _ _ _ Hne), Hl; exact Hsame].
    unfold release_key. destruct (is_local p); [rewrite Hl; exact Hsame|].
    rewrite Hl. destruct (_ || _); [rewrite Hl; exact Hsame|].
    rewrite PoolFacts.set_pool_lookup. eexists; (split; [reflexivity|]); simpl; auto.
  - destruct (String.eqb_spec q p) as [->|Hne];
      [|rewrite (PoolFacts.quarantine_key_other _ _ _ _ _ _ _ Hne), Hl; exact Hsame].
    unfold quarantine_key. destruct (is_local p); [rewrite Hl; exact Hsame|].
    simpl. rewrite Hl, PoolFacts.set_pool_lookup.
    eexists; (split; [reflexivity|]); simpl; auto.
  - destruct (String.eqb_spec q p) as [->|Hne];
      [|rewrite (PoolFacts.retire_key_other _ _ _ _ _ Hne), Hl; exact Hsame].
    unfold retire_key. destruct (is_local p); [rewrite Hl; exact Hsame|].
    rewrite Hl. destruct (PyDict.mem k (retired pool)) eqn:Hr; [rewrite Hl; exact Hsame|].
    rewrite PoolFacts.set_pool_lookup. eexists; (split; [reflexivity|]); simpl.
    repeat split. right. split; [|reflexivity].
    now apply PyDictFacts.length_set_fresh.
  - rewrite PoolFacts.check_quarantine_lookup_any, Hl. simpl.
    destruct (is_local p); [exact Hsame|].
    eexists; (split; [reflexivity|]); simpl; auto.
Qed.

Lemma get_full_status_lookup m p :
  get_full_status m !! p
  = (fun data => {| status_available := Z.of_nat (length (available data));
                    status_quarantined := Z.of_nat (length (quarantined data));
                    status_retired := Z.of_nat (length (retired data));
                    status_total := total_keys data |}) <$> pools m !! p.
Proof. unfold get_full_status. apply lookup_fmap. Qed.

(** Whatever callers do, in any order and whether or not they hold the keys
    they name, [get_full_status] keeps reporting a provider it has reported
    once, its retired count never goes down, and its [total_keys] is the
    number [n] it started from less the retired count, or zero when more
    keys were retired than that. *)
Theorem status_total_counts_down ops : forall m p n st0,
  get_full_status m !! p = Some st0 ->
  status_total st0 = Z.max 0 (n - status_retired st0) ->
  exists st,
    get_full_status (run_ops ops m) !! p = Some st
    /\ status_retired st0 <= status_retired st
    /\ status_total st = Z.max 0 (n - status_retired st).
Proof.
  induction ops as [|o ops IH]; intros m p n st0 Hs Ht; simpl.
  - exists st0. repeat split; [exact Hs | lia | exact Ht].
  - rewrite get_full_status_lookup in Hs.
    destruct (pools m !! p) as [pool|] eqn:Hl; [|discriminate].
    simpl in Hs. injection Hs as <-. simpl in Ht.
    destruct (apply_op_pool m o p pool Hl) as (pool1 & Hl1 & _ & _ & Hr).
    destruct (IH (apply_op m o) p n
                {| status_available := Z.of_nat (length (available pool1));
                   status_quarantined := Z.of_nat (length (quarantined pool1));
                   status_retired := Z.of_nat (length (retired pool1));
                   status_total := total_keys pool1 |})
      as (st & Hst & Hle & Htot).
    + rewrite get_full_status_lookup, Hl1. reflexivity.
    + simpl. destruct Hr as [[-> ->]|[Hlen ->]]; [exact Ht|]. rewrite Hlen. lia.
    + exists st. split; [exact Hst|]. split; [|exact Htot].
      simpl in *. destruct Hr as [[Hr _]|[Hlen _]]; [rewrite <- Hr; exact Hle | lia].
Qed.

Lemma status_total_counts_down_witness :
  exists st,
    get_full_status (run_ops groq_day (mgr groq_start)) !! "groq" = Some st
    /\ status_retired {| status_available := 3; status_quarantined := 0;
                         status_retired := 0; status_total := 3 |}
       <= status_retired st
    /\ status_total st = Z.max 0 (3 - status_retired st).
Proof.
  apply (status_total_counts_down groq_day (mgr groq_start) "groq" 3).
  - vm_compute. reflexivity.
  - reflexivity.
Defined.

(** A provider whose name starts with [local] needs no pool: [get_key]
    answers with the placeholder at once and changes nothing, and no
    operation on any provider changes what the manager holds for it. *)
Theorem local_provider_is_left_alone ops : forall m p,
  is_local p = true ->
  get_key (run_ops ops m) p = (GotKey "local-key-placeholder", run_ops ops m)
  /\ pools (run_ops ops m) !! p = pools m !! p.
Proof.
  intros m p Hloc. split; [unfold get_key; now rewrite Hloc|].
  revert m. induction ops as [|o ops IH]; intros m; simpl; [reflexivity|].
  rewrite IH. destruct o as [q|q k|q k r d now|q k r|now]; cbn [apply_op].
  - destruct (String.eqb_spec q p) as [->|Hne];
      [|now apply PoolFacts.get_key_other].
    unfold get_key. now rewrite Hloc.
  - destruct (String.eqb_spec q p) as [->|Hne];
      [|now apply PoolFacts.release_key_other].
    unfold release_key. now rewrite Hloc.
  - destruct (String.eqb_spec q p) as [->|Hne];
      [|now apply PoolFacts.quarantine_key_other].
    unfold quarantine_key. now rewrite Hloc.
  - destruct (String.eqb_spec q p) as [->|Hne];
      [|now apply PoolFacts.retire_key_other].
    unfold retire_key. now rewrite Hloc.
  - rewrite PoolFacts.check_quarantine_lookup_any, Hloc.
    now destruct (pools m !! p).
Qed.

Lemma local_provider_is_left_alone_witness :
  get_key (run_ops groq_day (mgr groq_start)) "local-llm"
  = (GotKey "local-key-placeholder", run_ops groq_day (mgr groq_start))
  /\ pools (run_ops groq_day (mgr groq_start)) !! "local-llm"
     = pools (mgr groq_start) !! "local-llm".
Proof.
  apply (local_provider_is_left_alone groq_day (mgr groq_start) "local-llm").
  reflexivity.
Defined.

(** [get_verification_key] looks at the key lists of the last load only: no
    operation on the pools changes its answer, so it goes on proposing a key
    after that key was quarantined or retired. *)
Theorem verification_key_ignores_pool_state choice ops : forall m p,
  get_verification_key choice (run_ops ops m) p = get_verification_key choice m p.
Proof.
  induction ops as [|o ops IH]; intros m p; simpl; [reflexivity|].
  rewrite IH. unfold get_verification_key.
  destruct (pools m !! p) as [pool|] eqn:Hl.
  - destruct (apply_op_pool m o p pool Hl) as (pool1 & -> & -> & -> & _). reflexivity.
  - assert (Hn : pools (apply_op m o) !! p = None); [|now rewrite Hn].
    destruct o as [q|q k|q k r d now|q k r|now]; cbn [apply_op].
    + destruct (String.eqb_spec q p) as [->|Hne];
        [|now rewrite (PoolFacts.get_key_other _ _ _ Hne)].
      unfold get_key. destruct (is_local p); [exact Hl|]. now rewrite Hl.
    + destruct (String.eqb_spec q p) as [->|Hne];
        [|now rewrite (PoolFacts.release_key_other _ _ _ _ Hne)].
      unfold release_key. destruct (is_local p); [exact Hl|]. now rewrite Hl.
    + destruct (String.eqb_spec q p) as [->|Hne];
        [|now rewrite (PoolFacts.quarantine_key_other _ _ _ _ _ _ _ Hne)].
      unfold quarantine_key. destruct (is_local p); [exact Hl|]. simpl. now rewrite Hl.
    + destruct (String.eqb_spec q p) as [->|Hne];
        [|now rewrite (PoolFacts.retire_key_other _ _ _ _ _ Hne)].
      unfold retire_key. destruct (is_local p); [exact Hl|]. now rewrite Hl.
    + now rewrite PoolFacts.check_quarantine_lookup_any, Hl.
Qed.

Example verification_key_of_retired :
  get_verification_key (fun l => List.last l "")
    (run_ops [Acquire "groq"; Retire "groq" "gsk-b" "HTTP 401"] (mgr groq_start)) "groq"
  = Some "gsk-b".
Proof. vm_compute. reflexivity. Qed.

End KeyPoolFacts.

(** ** Loading the pools *)

Module KeyLoadingFacts.
Import KeyManager KeyLoading.

Lemma truthy_ne s : PyStr.truthy s = true <-> s <> "".
Proof. destruct s; simpl; split; congruence. Qed.

(** Every key [_load_keys_from_file] returns is non-empty and has no white
    space around it, and it is the stripped text of a line of the file that
    does not begin with [#]. *)
Theorem loaded_keys_are_clean env file_path k :
  In k (_load_keys_from_file env file_path) ->
  k <> ""
  /\ PyStr.strip k = k
  /\ exists lines line,
       read env file_path = Some lines /\ In line lines
       /\ k = PyStr.strip line /\ PyStr.startswith "#" line = false.
Proof.
  unfold _load_keys_from_file. destruct (read env file_path) as [lines|]; [|intros []].
  intros Hin. apply in_map_iff in Hin. destruct Hin as (line & <- & Hin).
  apply filter_In in Hin. destruct Hin as [Hin Hk]. unfold kept_line in Hk.
  apply andb_true_iff in Hk. destruct Hk as [Ht Hc].
  split; [now apply truthy_ne|]. split; [apply StringFacts.strip_idem|].
  exists lines, line. repeat split; auto. now apply negb_true_iff.
Qed.

Lemma loaded_keys_are_clean_witness :
  "gsk-b" <> ""
  /\ PyStr.strip "gsk-b" = "gsk-b"
  /\ exists lines line,
       read sample_env "keys_pool/groq_free.env" = Some lines /\ In line lines
       /\ "gsk-b" = PyStr.strip line /\ PyStr.startswith "#" line = false.
Proof.
  apply (loaded_keys_are_clean sample_env "keys_pool/groq_free.env" "gsk-b").
  vm_compute. auto.
Defined.

Example load_sample :
  _load_keys_from_file sample_env "keys_pool/groq_free.env" = ["gsk-a"; "gsk-b"]
  /\ _load_keys_from_file sample_env "keys_pool/none.env" = []
  /\ found_keys sample_env "groq" = (["gsk-a"; "gsk-b"], ["gsk-c"])
  /\ found_keys sample_env "mistral" = (["msk-a"], [])
  /\ discovered_providers sample_env = ["groq"; "groq"].
Proof. vm_compute. repeat split. Qed.

Lemma drop_last_9_append P suffix :
  String.length suffix = 9%nat -> drop_last_9 (P ++ suffix)%string = P.
Proof.
  intros H. unfold drop_last_9. rewrite StringFacts.length_append, H.
  replace (String.length P + 9 - 9)%nat with (String.length P) by lia.
  apply StringFacts.substring_head.
Qed.

Lemma endswith_drop_last_9 suffix filename :
  String.length suffix = 9%nat -> PyStr.endswith suffix filename = true ->
  filename = (drop_last_9 filename ++ suffix)%string.
Proof.
  intros H He. apply StringFacts.endswith_split in He. rewrite H in He. exact He.
Qed.

(** The discovery phase finds a provider exactly when the listing has a file
    named after it: its name followed by [_free.env] or by [_paid.env]. *)
Theorem discovery_by_file_name env P :
  In P (discovered_providers env)
  <-> In (P ++ "_free.env")%string (listing env)
      \/ In (P ++ "_paid.env")%string (listing env).
Proof.
  unfold discovered_providers. rewrite in_flat_map. split.
  - intros (filename & Hin & HP).
    destruct (PyStr.endswith "_free.env" filename) eqn:Hf.
    + destruct HP as [<-|[]]. left.
      now rewrite <- (endswith_drop_last_9 "_free.env" filename eq_refl Hf).
    + destruct (PyStr.endswith "_paid.env" filename) eqn:Hp; [|destruct HP].
      destruct HP as [<-|[]]. right.
      now rewrite <- (endswith_drop_last_9 "_paid.env" filename eq_refl Hp).
  - intros [Hin|Hin]; eexists; (split; [exact Hin|]).
    + rewrite StringFacts.endswith_append. left. now apply drop_last_9_append.
    + rewrite StringFacts.endswith_append.
      destruct (PyStr.endswith "_free.env" _); left; now apply drop_last_9_append.
Qed.

Lemma init_pools_lookup l : forall pools P,
  fold_left _init_provider_pool l pools !! P
  = match pools !! P with
    | Some pool => Some pool
    | None => if existsb (String.eqb P) l then Some empty_pool else None
    end.
Proof.
  induction l as [|p l IH]; intros pools P; simpl; [now destruct (pools !! P)|].
  rewrite IH. unfold _init_provider_pool.
  destruct (pools !! p) as [pool|] eqn:Hp.
  - destruct (pools !! P) as [pool'|] eqn:HP; [reflexivity|].
    destruct (String.eqb_spec P p) as [->|Hne]; [congruence | reflexivity].
  - destruct (String.eqb_spec P p) as [->|Hne].
    + now rewrite lookup_insert_eq, Hp.
    + now rewrite lookup_insert_ne by congruence.
Qed.

Lemma init_lookup providers P :
  pools (init providers) !! P
  = if existsb (String.eqb P) providers then Some empty_pool else None.
Proof.
  unfold init; simpl. induction providers as [|p l IH]; simpl; [apply lookup_empty|].
  destruct (String.eqb_spec P p) as [->|Hne].
  - apply lookup_insert_eq.
  - rewrite lookup_insert_ne by congruence. exact IH.
Qed.

Lemma existsb_eqb_In P l : existsb (String.eqb P) l = true <-> In P l.
Proof.
  rewrite existsb_exists. split.
  - intros (x & Hin & He). apply String.eqb_eq in He. now subst.
  - intros Hin. exists P. split; [exact Hin | apply String.eqb_refl].
Qed.

Lemma load_all_keys_lookup env shuffle m P :
  pools (load_all_keys env shuffle m) !! P
  = (fun pool =>
       if is_local P then pool
       else load_keys (fst (found_keys env P)) (snd (found_keys env P))
              (shuffle P (fst (found_keys env P) ++ snd (found_keys env P))) pool)
    <$> fold_left _init_provider_pool (discovered_providers env) (pools m) !! P.
Proof.
  unfold load_all_keys; simpl. rewrite map_lookup_imap.
  destruct (fold_left _ _ _ !! P) as [pool|]; simpl; [|reflexivity].
  destruct (is_local P); [reflexivity|]. now destruct (found_keys env P).
Qed.

(** After [load_all_keys] on a manager just constructed, every provider that
    was named to the constructor or discovered under [keys_pool/] has its
    pool loaded: the queue holds the free and the paid keys found for it, in
    the order the shuffle gave them, nothing is quarantined or retired, and
    no key is checked out. *)
Theorem first_load_is_loaded env shuffle providers P :
  (forall p l, Permutation (shuffle p l) l) ->
  is_local P = false ->
  In P providers \/ In P (discovered_providers env) ->
  loaded P (fst (found_keys env P)) (snd (found_keys env P))
    (shuffle P (fst (found_keys env P) ++ snd (found_keys env P)))
    {| mgr := load_all_keys env shuffle (init providers); held := [] |}.
Proof.
  intros Hsh Hloc Hin. split; [|split; [apply Hsh | reflexivity]].
  cbn [mgr]. rewrite load_all_keys_lookup, init_pools_lookup, init_lookup, Hloc.
  destruct (existsb (String.eqb P) providers) eqn:Hp; [reflexivity|].
  destruct (existsb (String.eqb P) (discovered_providers env)) eqn:Hd; [reflexivity|].
  exfalso. destruct Hin as [Hin|Hin]; apply existsb_eqb_In in Hin; congruence.
Qed.

Lemma first_load_is_loaded_witness :
  loaded "groq" (fst (found_keys sample_env "groq")) (snd (found_keys sample_env "groq"))
    ((fun _ l => rev l) "groq"
       (fst (found_keys sample_env "groq") ++ snd (found_keys sample_env "groq")))
    {| mgr := load_all_keys sample_env (fun _ l => rev l) (init ["mistral"]);
       held := [] |}.
Proof.
  apply (first_load_is_loaded sample_env (fun _ l => rev l) ["mistral"] "groq").
  - intros p l. apply Permutation_sym, Permutation_rev.
  - reflexivity.
  - right. vm_compute. auto.
Defined.

(** [load_all_keys] on a manager that is in use: the pool of a provider it
    knows gets every key found in the files back into its queue and counts
    them all in [total_keys], while the quarantine and the retirement records
    stay as they were.  A key that is quarantined, retired or checked out at
    that moment is in the queue again. *)
Theorem reload_refills_the_queue env shuffle m P pool :
  (forall p l, Permutation (shuffle p l) l) ->
  is_local P = false ->
  pools m !! P = Some pool ->
  exists pool',
    pools (load_all_keys env shuffle m) !! P = Some pool'
    /\ Permutation (available pool')
         (fst (found_keys env P) ++ snd (found_keys env P))
    /\ total_keys pool'
       = Z.of_nat (length (fst (found_keys env P) ++ snd (found_keys env P)))
    /\ quarantined pool' = quarantined pool
    /\ retired pool' = retired pool.
Proof.
  intros Hsh Hloc Hl. eexists. split.
  - rewrite load_all_keys_lookup, init_pools_lookup, Hl, Hloc. reflexivity.
  - simpl. repeat split. apply Hsh.
Qed.

Lemma reload_refills_the_queue_witness :
  exists pool',
    pools (load_all_keys sample_env (fun _ l => rev l) waiting) !! "groq" = Some pool'
    /\ Permutation (available pool')
         (fst (found_keys sample_env "groq") ++ snd (found_keys sample_env "groq"))
    /\ total_keys pool'
       = Z.of_nat (length (fst (found_keys sample_env "groq")
                           ++ snd (found_keys sample_env "groq")))
    /\ quarantined pool' = quarantined groq_waiting
    /\ retired pool' = retired groq_waiting.
Proof.
  apply (reload_refills_the_queue sample_env (fun _ l => rev l) waiting "groq").
  - intros p l. apply Permutation_sym, Permutation_rev.
  - reflexivity.
  - reflexivity.
Defined.

End KeyLoadingFacts.

(** ** Model rotation inside a provider *)

Module ModelRotationFacts.
Import ModelRotation.

Lemma fold_insert_same {A} (m : gmap string A) :
  map_fold (fun k v d => <[k := v]> d) ∅ m = m.
Proof.
  induction m as [|k v m Hk Hfold IH] using map_first_key_ind.
  - apply map_fold_empty.
  - rewrite map_fold_insert_first_key by assumption. now rewrite IH.
Qed.

Lemma _initialize_state_lookup cfg st provider :
  _initialize_state cfg st !! provider
  = match cfg !! provider with
    | Some aliases => Some aliases
    | None => st !! provider
    end.
Proof.
  unfold _initialize_state.
  induction cfg as [|k v m Hk Hfold IH] using map_first_key_ind.
  - now rewrite map_fold_empty, lookup_empty.
  - rewrite map_fold_insert_first_key by assumption.
    destruct (String.eqb_spec k provider) as [->|Hne].
    + now rewrite !lookup_insert_eq, fold_insert_same.
    + rewrite !lookup_insert_ne by assumption. exact IH.
Qed.

Lemma get_next_model_head st provider provider_state alias_name model rest :
  st !! provider = Some provider_state ->
  provider_state !! alias_name = Some (model :: rest) ->
  get_next_model st provider alias_name
  = (model, <[provider := <[alias_name := rest ++ [model]]> provider_state]> st).
Proof.
  intros Hp Ha. unfold get_next_model. rewrite Hp.
  rewrite bool_decide_eq_false_2; [now rewrite Ha|].
  intros ->. now rewrite lookup_empty in Ha.
Qed.

Lemma mod_succ j L :
  (0 < L)%nat ->
  (S j mod L = if S (j mod L) =? L then 0 else S (j mod L))%nat.
Proof.
  intros HL. pose proof (Nat.div_mod_eq j L) as Hj.
  pose proof (Nat.mod_upper_bound j L ltac:(lia)) as Hr.
  destruct (Nat.eqb_spec (S (j mod L)) L) as [He|Hne].
  - symmetry. apply (Nat.mod_unique (S j) L (S (j / L)) 0); lia.
  - symmetry. apply (Nat.mod_unique (S j) L (j / L) (S (j mod L))); lia.
Qed.

Lemma skipn_nth (l : list string) r m :
  nth_error l r = Some m -> skipn r l = m :: skipn (S r) l.
Proof.
  revert r. induction l as [|x l IH]; intros [|r] H; simpl in *; try discriminate.
  - now injection H as ->.
  - now apply IH.
Qed.

Lemma firstn_nth (l : list string) r m :
  nth_error l r = Some m -> firstn (S r) l = firstn r l ++ [m].
Proof.
  revert r. induction l as [|x l IH]; intros [|r] H; simpl in *; try discriminate.
  - now injection H as ->.
  - f_equal. now apply IH.
Qed.

(** One [rotate(-1)] on the queue after [j] of them. *)
Lemma rotated_step models j :
  models <> [] ->
  exists model rest,
    rotated j models = model :: rest
    /\ nth_error models (j mod length models) = Some model
    /\ rest ++ [model] = rotated (S j) models.
Proof.
  intros Hne.
  assert (HL : (0 < length models)%nat) by (destruct models; simpl; [congruence | lia]).
  pose proof (Nat.mod_upper_bound j (length models) ltac:(lia)) as Hr.
  destruct (nth_error models (j mod length models)) as [model|] eqn:Hn;
    [|apply nth_error_None in Hn; lia].
  exists model, (skipn (S (j mod length models)) models
                 ++ firstn (j mod length models) models).
  split; [|split; [reflexivity|]].
  - unfold rotated. now rewrite (skipn_nth _ _ _ Hn).
  - unfold rotated. rewrite (mod_succ j _ HL).
    rewrite <- app_assoc, <- (firstn_nth _ _ _ Hn).
    destruct (Nat.eqb_spec (S (j mod length models)) (length models)) as [He|_];
      [|reflexivity].
    rewrite He, skipn_all, firstn_all. simpl. now rewrite app_nil_r.
Qed.

Lemma rotated_full models : rotated (length models) models = models.
Proof.
  unfold rotated. destruct models as [|x l]; [reflexivity|].
  rewrite Nat.Div0.mod_same. simpl. now rewrite app_nil_r.
Qed.

(** [n] calls on a queue that has been rotated [j] times. *)
Lemma next_models_from n : forall j st provider provider_state alias_name models,
  models <> [] ->
  st !! provider = Some provider_state ->
  provider_state !! alias_name = Some (rotated j models) ->
  next_models n st provider alias_name
  = (map (fun i => nth ((j + i) mod length models) models alias_name) (seq 0 n),
     <[provider := <[alias_name := rotated (j + n) models]> provider_state]> st).
Proof.
  induction n as [|n IH]; intros j st provider ps alias_name models Hne Hp Ha; simpl.
  - rewrite Nat.add_0_r. f_equal. symmetry.
    rewrite (insert_id ps alias_name _ Ha). now apply insert_id.
  - destruct (rotated_step models j Hne) as (model & rest & Hq & Hn & Hnext).
    rewrite Hq in Ha. rewrite (get_next_model_head _ _ _ _ _ _ Hp Ha).
    rewrite (IH (S j) _ provider (<[alias_name := rest ++ [model]]> ps) alias_name models Hne).
    + rewrite insert_insert_eq, insert_insert_eq. f_equal.
      * rewrite Nat.add_0_r. f_equal; [symmetry; now apply nth_error_nth|].
        rewrite <- seq_shift, map_map. apply map_ext. intros i.
        now rewrite Nat.add_succ_r.
      * now rewrite Nat.add_succ_r.
    + apply lookup_insert_eq.
    + rewrite lookup_insert_eq. now rewrite Hnext.
Qed.

(** [get_next_model] is a round robin over the models of an alias: from the
    state [_initialize_state] builds (at start, or when [update_aliases]
    replaces the configuration), call number [i] returns the model at
    position [i mod n] of the [n] configured ones, and after [n] calls the
    state is what it was. *)
Theorem get_next_model_round_robin cfg st0 provider aliases alias_name models n :
  cfg !! provider = Some aliases ->
  aliases !! alias_name = Some models ->
  models <> [] ->
  fst (next_models n (_initialize_state cfg st0) provider alias_name)
  = map (fun i => nth (i mod length models) models alias_name) (seq 0 n)
  /\ snd (next_models (length models) (_initialize_state cfg st0) provider alias_name)
     = _initialize_state cfg st0.
Proof.
  intros Hc Ha Hne.
  assert (Hp : _initialize_state cfg st0 !! provider = Some aliases)
    by now rewrite _initialize_state_lookup, Hc.
  assert (Hq : aliases !! alias_name = Some (rotated 0 models)).
  { rewrite Ha. f_equal. unfold rotated. rewrite Nat.Div0.mod_0_l. simpl.
    now rewrite app_nil_r. }
  split.
  - now rewrite (next_models_from n 0 _ _ _ _ _ Hne Hp Hq).
  - rewrite (next_models_from _ 0 _ _ _ _ _ Hne Hp Hq). simpl.
    rewrite rotated_full, (insert_id aliases alias_name _ Ha). now apply insert_id.
Qed.

Lemma get_next_model_round_robin_witness :
  fst (next_models 5 (_initialize_state sample_aliases ∅) "groq" "llama")
  = map (fun i => nth (i mod length ["llama-a"; "llama-b"; "llama-c"])
                    ["llama-a"; "llama-b"; "llama-c"] "llama") (seq 0 5)
  /\ snd (next_models (length ["llama-a"; "llama-b"; "llama-c"])
            (_initialize_state sample_aliases ∅) "groq" "llama")
     = _initialize_state sample_aliases ∅.
Proof.
  apply (get_next_model_round_robin sample_aliases ∅ "groq"
           {[ "llama" := ["llama-a"; "llama-b"; "llama-c"] ]}).
  - reflexivity.
  - reflexivity.
  - discriminate.
Defined.

Example round_robin_sample :
  fst (next_models 5 (_initialize_state sample_aliases ∅) "groq" "llama")
  = ["llama-a"; "llama-b"; "llama-c"; "llama-a"; "llama-b"]
  /\ fst (get_next_model (_initialize_state sample_aliases ∅) "groq" "mixtral")
     = "mixtral"
  /\ fst (get_next_model (_initialize_state sample_aliases ∅) "cohere" "command")
     = "command".
Proof. vm_compute. repeat split. Qed.

End ModelRotationFacts.

(** ** More on the rotation index *)

Module RotationRangeFacts.
Import Rotation.

Lemma get_rotation_index_range ro a M i ro' :
  0 < M ->
  0 <= get_or_0 (agent_rotation_state ro) a < M ->
  get_rotation_index ro a M = (i, ro') ->
  0 <= i < M /\ 0 <= get_or_0 (agent_rotation_state ro') a < M.
Proof.
  intros HM Hst. unfold get_rotation_index.
  destruct (Z.leb_spec M 1) as [Hle|Hgt].
  - intros H. injection H as <- <-. split; [lia | exact Hst].
  - assert (Hmem : forall rc,
              (let (i0, st) := memory_index (agent_rotation_state ro) a M in
               (i0, {| agent_rotation_state := st; redis_client := rc |})) = (i, ro') ->
              0 <= i < M /\ 0 <= get_or_0 (agent_rotation_state ro') a < M).
    { intros rc H. unfold memory_index in H. injection H as <- <-. simpl.
      split; [exact Hst|]. rewrite RotationFacts.get_or_0_insert.
      apply Z.mod_pos_bound. lia. }
    destruct (redis_client ro) as [r|]; [|apply Hmem].
    destruct (incr r (rotation_key a)) as [[val|] r']; [|apply Hmem].
    intros H. injection H as <- <-. simpl. split; [|exact Hst].
    apply Z.mod_pos_bound. lia.
Qed.

(** Every index [get_rotation_index] returns is a slot of the pool, from 0 to
    [pool_size - 1], as long as the in-process counter of the alias holds
    one: this stays so from call to call, whether the calls are served by
    the durable counter, by the in-process counter, or now by one and now by
    the other. *)
Theorem rotation_index_in_range n : forall ro alias_name pool_size,
  0 < pool_size ->
  0 <= get_or_0 (agent_rotation_state ro) alias_name < pool_size ->
  Forall (fun i => 0 <= i < pool_size) (rotation_run n ro alias_name pool_size).
Proof.
  induction n as [|n IH]; intros ro a M HM Hst; simpl; [constructor|].
  destruct (get_rotation_index ro a M) as [i ro'] eqn:Hg.
  destruct (get_rotation_index_range ro a M i ro' HM Hst Hg) as [Hi Hst'].
  constructor; [exact Hi|]. now apply IH.
Qed.

Lemma rotation_index_in_range_witness :
  Forall (fun i => 0 <= i < 3) (rotation_run 7 durable_backend "fast_chat" 3).
Proof.
  apply (rotation_index_in_range 7 durable_backend "fast_chat" 3).
  - lia.
  - vm_compute. split; [discriminate | reflexivity].
Defined.

End RotationRangeFacts.

(** ** The engine as a caller of the pool *)

Module DisciplineFacts.
Import Errors KeyManager Engine Discipline.

Lemma reaches_refl m h : reaches m h m h.
Proof. now exists []. Qed.

Lemma run_tracked_app ops1 : forall ops2 t t1 t2,
  run_tracked ops1 t = Some t1 -> run_tracked ops2 t1 = Some t2 ->
  run_tracked (ops1 ++ ops2) t = Some t2.
Proof.
  induction ops1 as [|o ops1 IH]; intros ops2 t t1 t2 H1 H2; simpl in *.
  - now injection H1 as ->.
  - destruct (tracked_step t o) as [t'|]; [|discriminate]. now apply (IH ops2 t' t1).
Qed.

Lemma reaches_trans m1 h1 m2 h2 m3 h3 :
  reaches m1 h1 m2 h2 -> reaches m2 h2 m3 h3 -> reaches m1 h1 m3 h3.
Proof.
  intros [ops1 H1] [ops2 H2]. exists (ops1 ++ ops2). now apply (run_tracked_app _ _ _ _ _ H1).
Qed.

Lemma reaches_acquire m p r m' h :
  get_key m p = (r, m') ->
  reaches m h m'
    match r with
    | GotKey k => if is_local p then h else (p, k) :: h
    | _ => h
    end.
Proof.
  intros Hg. exists [Acquire p]. simpl. now rewrite Hg.
Qed.

Lemma same_entry_refl p k : same_entry p k (p, k) = true.
Proof. unfold same_entry; simpl. now rewrite !String.eqb_refl. Qed.

(** Handing back the key just taken, by any of the three operations. *)
Lemma reaches_hand_back m p k h o :
  (o = Release p k \/ (exists r d now, o = Quarantine p k r d now)
   \/ exists r, o = Retire p k r) ->
  reaches m (if is_local p then h else (p, k) :: h) (apply_op m o) h.
Proof.
  intros Ho. exists [o].
  assert (Hb : hand_back {| mgr := m; held := if is_local p then h else (p, k) :: h |}
                 p k (apply_op m o)
               = Some {| mgr := apply_op m o; held := h |}).
  { unfold hand_back. destruct (is_local p) eqn:Hloc; [reflexivity|].
    unfold holds. cbn [held existsb]. rewrite same_entry_refl. cbn [orb drop_entry].
    now rewrite same_entry_refl. }
  destruct Ho as [->|[(r & d & now & ->)|(r & ->)]]; cbn [run_tracked tracked_step];
    cbn [mgr]; now rewrite Hb.
Qed.

Lemma reaches_taken m p k m1 h o :
  get_key m p = (GotKey k, m1) ->
  (o = Release p k \/ (exists r d now, o = Quarantine p k r d now)
   \/ exists r, o = Retire p k r) ->
  reaches m h (apply_op m1 o) h.
Proof.
  intros Hg Ho. eapply reaches_trans.
  - exact (reaches_acquire m p _ m1 h Hg).
  - now apply reaches_hand_back.
Qed.

(** *** Non-empty keys stay non-empty *)

Lemma usable_get_key m p r m' :
  usable m -> get_key m p = (r, m') ->
  usable m' /\ forall k, r = GotKey k -> PyStr.truthy k = true.
Proof.
  intros Hu. unfold get_key. destruct (is_local p).
  { intros H. injection H as <- <-. split; [exact Hu|]. intros k H. now injection H as <-. }
  destruct (pools m !! p) as [pool|] eqn:Hl.
  2:{ intros H. injection H as <- <-. split; [exact Hu | discriminate]. }
  destruct (take_key (retired pool) (available pool)) as [got q'] eqn:Ht.
  assert (Hsub : forall x, In x q' -> In x (available pool)).
  { intros x. pose proof (PoolFacts.take_key_sub (retired pool) (available pool) x) as H.
    now rewrite Ht in H. }
  assert (Hu' : usable (set_pool p (with_available q' pool) m)).
  { intros p0 pool0 k0 Hl0 Hin. destruct (String.eqb_spec p p0) as [<-|Hne].
    - rewrite PoolFacts.set_pool_lookup in Hl0. injection Hl0 as <-.
      apply (Hu p pool k0 Hl). now apply Hsub.
    - rewrite PoolFacts.set_pool_lookup_ne in Hl0 by assumption. now apply (Hu p0 pool0). }
  destruct got as [k|]; intros H; injection H as <- <-; (split; [exact Hu'|]);
    [|discriminate].
  intros k0 H. injection H as <-. apply (Hu p pool k Hl).
  pose proof (PoolFacts.take_key_usable (retired pool) (available pool) k) as Hk.
  rewrite Ht in Hk. now apply Hk.
Qed.

Lemma usable_release m p k :
  usable m -> PyStr.truthy k = true -> usable (release_key m p k).
Proof.
  intros Hu Hk. unfold release_key. destruct (is_local p); [exact Hu|].
  destruct (pools m !! p) as [pool|] eqn:Hl; [|exact Hu].
  destruct (_ || _); [exact Hu|].
  intros p0 pool0 k0 Hl0 Hin. destruct (String.eqb_spec p p0) as [<-|Hne].
  - rewrite PoolFacts.set_pool_lookup in Hl0. injection Hl0 as <-. simpl in Hin.
    apply in_app_or in Hin. destruct Hin as [Hin|[<-|[]]]; [|exact Hk].
    now apply (Hu p pool).
  - rewrite PoolFacts.set_pool_lookup_ne in Hl0 by assumption. now apply (Hu p0 pool0).
Qed.

Lemma usable_quarantine m p k r d now :
  usable m -> PyStr.truthy k = true -> usable (quarantine_key m p k r d now).
Proof.
  intros Hu Hk. unfold quarantine_key. destruct (is_local p); [exact Hu|]. simpl.
  destruct (pools m !! p) as [pool|] eqn:Hl; [|exact Hu].
  intros p0 pool0 k0 Hl0 Hin. destruct (String.eqb_spec p p0) as [<-|Hne].
  - rewrite PoolFacts.set_pool_lookup in Hl0. injection Hl0 as <-. simpl in Hin.
    now apply (Hu p pool).
  - rewrite PoolFacts.set_pool_lookup_ne in Hl0 by assumption. now apply (Hu p0 pool0).
Qed.

Lemma usable_retire m p k r :
  usable m -> usable (retire_key m p k r).
Proof.
  intros Hu. unfold retire_key. destruct (is_local p); [exact Hu|].
  destruct (pools m !! p) as [pool|] eqn:Hl; [|exact Hu].
  destruct (PyDict.mem k (retired pool)); [exact Hu|].
  intros p0 pool0 k0 Hl0 Hin. destruct (String.eqb_spec p p0) as [<-|Hne].
  - rewrite PoolFacts.set_pool_lookup in Hl0. injection Hl0 as <-. simpl in Hin.
    now apply (Hu p pool).
  - rewrite PoolFacts.set_pool_lookup_ne in Hl0 by assumption. now apply (Hu p0 pool0).
Qed.

(** *** The unary path *)

Lemma unary_attempts_disciplined up profile prov ma left : forall last w r w' h,
  usable (key_manager w) ->
  unary_attempts up profile prov ma left last w = (r, w') ->
  reaches (key_manager w) h (key_manager w') h /\ usable (key_manager w').
Proof.
  induction left as [|left IH]; intros last w r w' h Hu H; cbn [unary_attempts] in H.
  - injection H as <- <-. split; [apply reaches_refl | exact Hu].
  - destruct (get_key (key_manager w) prov) as [got km] eqn:Hg.
    destruct (usable_get_key _ _ _ _ Hu Hg) as [Hu1 Hk].
    pose proof (reaches_acquire _ _ _ _ h Hg) as Hacq.
    destruct got as [k| |].
    + specialize (Hk k eq_refl).
      assert (Hback : forall o,
                 (o = Release prov k \/ (exists r d now, o = Quarantine prov k r d now)
                  \/ exists r, o = Retire prov k r) ->
                 reaches (key_manager w) h (apply_op km o) h)
        by (intros o Ho; exact (reaches_taken _ _ _ _ h o Hg Ho)).
      assert (Hrel : reaches (key_manager w) h (release_key km prov k) h)
        by (apply (Hback (Release prov k)); auto).
      assert (Hqua : forall rsn now,
                 reaches (key_manager w) h
                   (quarantine_key km prov k rsn QUARANTINE_DURATION_SECONDS now) h)
        by (intros rsn now; apply (Hback (Quarantine prov k rsn _ now));
            right; left; eauto).
      assert (Hret : forall rsn, reaches (key_manager w) h (retire_key km prov k rsn) h)
        by (intros rsn; apply (Hback (Retire prov k rsn)); right; right; eauto).
      destruct (chat up profile k _) as [result|[code msg|d|d]].
      * injection H as <- <-. split; [exact Hrel | now apply usable_release].
      * destruct ((code =? 401) || (code =? 403)).
        { apply (IH _ _ _ _ h) in H; [|now apply usable_retire].
          destruct H as [Hr Hu']. split; [|exact Hu'].
          eapply reaches_trans; [apply Hret | exact Hr]. }
        destruct (code =? 429).
        { injection H as <- <-. split; [apply Hqua | now apply usable_quarantine]. }
        destruct (existsb (Z.eqb code) _).
        { apply (IH _ _ _ _ h) in H; [|now apply usable_quarantine].
          destruct H as [Hr Hu']. split; [|exact Hu'].
          eapply reaches_trans; [apply Hqua | exact Hr]. }
        apply (IH _ _ _ _ h) in H; [|now apply usable_release].
        destruct H as [Hr Hu']. split; [|exact Hu'].
        eapply reaches_trans; [apply Hrel | exact Hr].
      * rewrite Hk in H. apply (IH _ _ _ _ h) in H; [|now apply usable_release].
        destruct H as [Hr Hu']. split; [|exact Hu'].
        eapply reaches_trans; [apply Hrel | exact Hr].
      * rewrite Hk in H. apply (IH _ _ _ _ h) in H; [|now apply usable_release].
        destruct H as [Hr Hu']. split; [|exact Hu'].
        eapply reaches_trans; [apply Hrel | exact Hr].
    + apply (IH _ _ _ _ h) in H; [|exact Hu1].
      destruct H as [Hr Hu']. split; [|exact Hu'].
      eapply reaches_trans; [exact Hacq | exact Hr].
    + apply (IH _ _ _ _ h) in H; [|exact Hu1].
      destruct H as [Hr Hu']. split; [|exact Hu'].
      eapply reaches_trans; [exact Hacq | exact Hr].
Qed.

Lemma execute_request_disciplined up model_config provider_keys w r w' h :
  usable (key_manager w) ->
  execute_request_with_key_rotation up model_config provider_keys w = (r, w') ->
  reaches (key_manager w) h (key_manager w') h /\ usable (key_manager w').
Proof.
  intros Hu. unfold execute_request_with_key_rotation.
  destruct (user_key_for provider_keys (provider model_config)) as [user_key|].
  - destruct (chat up _ _ _); intros H; injection H as <- <-;
      (split; [apply reaches_refl | exact Hu]).
  - apply unary_attempts_disciplined. exact Hu.
Qed.

Lemma reaches_conserved P keys0 m h m' h' :
  List.NoDup keys0 -> is_local P = false ->
  reaches m h m' h' ->
  tracked_conserved P keys0 {| mgr := m; held := h |} ->
  tracked_conserved P keys0 {| mgr := m'; held := h' |}.
Proof.
  intros Hnd Hloc [ops Hrun] Hc.
  exact (PoolFacts.run_tracked_conserved P keys0 ops _ _ Hnd Hloc Hc Hrun).
Qed.

(** The unary engine checks out nothing for good: whatever the provider
    answers, every key [execute_request_with_key_rotation] takes from a pool
    it hands back before it returns or raises, by [release_key],
    [quarantine_key] or [retire_key].  So a pool whose keys were all
    accounted for before the call (in the queue, in quarantine, retired, or
    held by the callers recorded in [held]) has them all accounted for after
    it, with the same callers holding the same keys. *)
Theorem unary_hands_back_every_key up model_config provider_keys w r w' P keys0 held0 :
  List.NoDup keys0 ->
  is_local P = false ->
  usable (key_manager w) ->
  tracked_conserved P keys0 {| mgr := key_manager w; held := held0 |} ->
  execute_request_with_key_rotation up model_config provider_keys w = (r, w') ->
  tracked_conserved P keys0 {| mgr := key_manager w'; held := held0 |}.
Proof.
  intros Hnd Hloc Hu Hc H.
  destruct (execute_request_disciplined _ _ _ _ _ _ held0 Hu H) as [Hr _].
  exact (reaches_conserved P keys0 _ _ _ _ Hnd Hloc Hr Hc).
Qed.

Lemma usable_empty : usable {| pools := ∅ |}.
Proof. intros p pool k H. simpl in H. now rewrite lookup_empty in H. Qed.

Lemma usable_insert m p pool :
  usable {| pools := m |} ->
  Forall (fun k => PyStr.truthy k = true) (available pool) ->
  usable {| pools := <[p := pool]> m |}.
Proof.
  intros Hu Hall q pool' k Hl Hin. simpl in Hl.
  destruct (String.eqb_spec p q) as [<-|Hne].
  - rewrite lookup_insert_eq in Hl. injection Hl as <-.
    rewrite List.Forall_forall in Hall. now apply Hall.
  - rewrite lookup_insert_ne in Hl by assumption. now apply (Hu q pool').
Qed.

Lemma sample_keys_usable : usable sample_keys.
Proof.
  unfold sample_keys. repeat apply usable_insert; try apply usable_empty;
    repeat constructor.
Qed.

Lemma sample_keys_conserved :
  tracked_conserved "groq" ["gsk-1"; "gsk-2"; "gsk-3"]
    {| mgr := sample_keys; held := [] |}.
Proof.
  exists (pool_with ["gsk-1"; "gsk-2"; "gsk-3"]).
  split; [vm_compute; reflexivity|]. split; [apply Permutation_refl | reflexivity].
Qed.

Lemma three_keys : List.NoDup ["gsk-1"; "gsk-2"; "gsk-3"].
Proof. repeat constructor; simpl; intuition discriminate. Qed.

Lemma unary_hands_back_every_key_witness :
  tracked_conserved "groq" ["gsk-1"; "gsk-2"; "gsk-3"]
    {| mgr := key_manager
                (snd (execute_request_with_key_rotation (groq_fails 500)
                        (profile "groq-p" "groq" None) [] sample_world));
       held := [] |}.
Proof.
  apply (unary_hands_back_every_key (groq_fails 500) (profile "groq-p" "groq" None) []
           sample_world
           (fst (execute_request_with_key_rotation (groq_fails 500)
                   (profile "groq-p" "groq" None) [] sample_world))).
  - exact three_keys.
  - reflexivity.
  - exact sample_keys_usable.
  - exact sample_keys_conserved.
  - apply surjective_pairing.
Defined.

Example unary_500_quarantines_all :
  option_map (fun pool => (available pool, PyDict.keys (quarantined pool)))
    (pools (key_manager
              (snd (execute_request_with_key_rotation (groq_fails 500)
                      (profile "groq-p" "groq" None) [] sample_world))) !! "groq")
  = Some ([], ["gsk-1"; "gsk-2"; "gsk-3"]).
Proof. vm_compute. reflexivity. Qed.

(** *** The streaming path *)

Lemma key_lifecycle_disciplined prov k e w m h0 h :
  PyStr.truthy k = true ->
  usable (key_manager w) ->
  reaches m h0 (key_manager w) (if is_local prov then h else (prov, k) :: h) ->
  reaches m h0 (key_manager (key_lifecycle prov k e w)) h
  /\ usable (key_manager (key_lifecycle prov k e w)).
Proof.
  intros Hk Hu Hr. unfold key_lifecycle. rewrite Hk.
  assert (Hback : forall o,
             (o = Release prov k \/ (exists r d now, o = Quarantine prov k r d now)
              \/ exists r, o = Retire prov k r) ->
             reaches m h0 (apply_op (key_manager w) o) h)
    by (intros o Ho; eapply reaches_trans; [exact Hr | now apply reaches_hand_back]).
  assert (Hrel : reaches m h0 (key_manager (release prov k w)) h
                 /\ usable (key_manager (release prov k w))).
  { split; [apply (Hback (Release prov k)); auto | now apply usable_release]. }
  assert (Hqua : forall rsn, reaches m h0 (key_manager (quarantine prov k rsn w)) h
                             /\ usable (key_manager (quarantine prov k rsn w))).
  { intros rsn. split; [|now apply usable_quarantine].
    apply (Hback (Quarantine prov k rsn QUARANTINE_DURATION_SECONDS (clock w))).
    right; left; eauto. }
  assert (Hret : forall rsn, reaches m h0 (key_manager (retire prov k rsn w)) h
                             /\ usable (key_manager (retire prov k rsn w))).
  { intros rsn. split; [|now apply usable_retire].
    apply (Hback (Retire prov k rsn)). right; right; eauto. }
  destruct e as [code msg|d|d]; [|exact Hrel|exact Hrel].
  destruct (code =? 429); [apply Hqua|].
  destruct ((code =? 401) || (code =? 403)); [apply Hret|].
  destruct (500 <=? code); [apply Hqua | exact Hrel].
Qed.

Lemma holding_cons profile prov k s h :
  holding (Rotating profile prov (Streaming k s)) ++ h
  = if is_local prov then h else (prov, k) :: h.
Proof. simpl. now destruct (is_local prov). Qed.

Lemma stream_attempts_disciplined up profile prov ma left : forall last w ev st w' h,
  usable (key_manager w) ->
  stream_attempts up profile prov ma left last w = (ev, st, w') ->
  reaches (key_manager w) h (key_manager w') (holding (Rotating profile prov st) ++ h)
  /\ usable (key_manager w')
  /\ key_in_hand (Rotating profile prov st)
  /\ (final ev = true -> st = Over).
Proof.
  induction left as [|left IH]; intros last w ev st w' h Hu H; cbn [stream_attempts] in H.
  - injection H as <- <- <-. repeat split; [apply reaches_refl | exact Hu].
  - destruct (get_key (key_manager w) prov) as [got km] eqn:Hg.
    destruct (usable_get_key _ _ _ _ Hu Hg) as [Hu1 Hk].
    pose proof (reaches_acquire _ _ _ _ h Hg) as Hacq.
    destruct got as [k| |].
    + specialize (Hk k eq_refl). cbn [chunks ending] in H.
      destruct (chat_stream up profile k _) as [[|c cs] [|e]]; cbn [chunks ending] in H.
      * injection H as <- <- <-. repeat split; [|now apply usable_release].
        eapply reaches_trans; [exact Hacq|].
        apply (reaches_hand_back km prov k h (Release prov k)). auto.
      * destruct (key_lifecycle_disciplined prov k e
                    (called profile k (with_keys (fun _ => km) w)) (key_manager w) h h
                    Hk Hu1 Hacq) as [Hr Hu2].
        destruct (raised_before_start k e) as [x|].
        -- injection H as <- <- <-. repeat split; assumption.
        -- apply (IH _ _ _ _ _ h) in H; [|exact Hu2].
           destruct H as (Hr' & Hu' & Hkey & Hfin). repeat split; try assumption.
           eapply reaches_trans; [exact Hr | exact Hr'].
      * injection H as <- <- <-. rewrite holding_cons.
        repeat split; [exact Hacq | exact Hu1 | exact Hk | discriminate].
      * injection H as <- <- <-. rewrite holding_cons.
        repeat split; [exact Hacq | exact Hu1 | exact Hk | discriminate].
    + apply (IH _ _ _ _ _ h) in H; [|exact Hu1].
      destruct H as (Hr' & Hu' & Hkey & Hfin). repeat split; try assumption.
      eapply reaches_trans; [exact Hacq | exact Hr'].
    + apply (IH _ _ _ _ _ h) in H; [|exact Hu1].
      destruct H as (Hr' & Hu' & Hkey & Hfin). repeat split; try assumption.
      eapply reaches_trans; [exact Hacq | exact Hr'].
Qed.

Lemma generator_next_disciplined up g w ev g' w' h :
  usable (key_manager w) -> key_in_hand g ->
  generator_next up g w = (ev, g', w') ->
  reaches (key_manager w) (holding g ++ h) (key_manager w') (holding g' ++ h)
  /\ usable (key_manager w')
  /\ key_in_hand g'
  /\ (final ev = true -> holding g' = []).
Proof.
  intros Hu Hkey. destruct g as [profile prov st|s]; cbn [generator_next].
  - destruct (rotation_aware_stream_wrapper up profile prov st w) as [[ev0 st'] w0] eqn:Hw.
    intros H. injection H as <- <- <-. unfold rotation_aware_stream_wrapper in Hw.
    destruct st as [|k s|].
    + destruct (stream_attempts_disciplined _ _ _ _ _ _ _ _ _ _ h Hu Hw)
        as (Hr & Hu' & Hk' & Hfin).
      repeat split; try assumption. intros Hf. now rewrite (Hfin Hf).
    + destruct s as [[|c cs] [|e]]; cbn [chunks ending] in Hw; injection Hw as <- <- <-.
      * repeat split; [|now apply usable_release].
        rewrite holding_cons. apply (reaches_hand_back _ prov k h (Release prov k)). auto.
      * rewrite holding_cons.
        destruct (key_lifecycle_disciplined prov k e w (key_manager w)
                    (if is_local prov then h else (prov, k) :: h) h Hkey Hu) as [Hr Hu'].
        { apply reaches_refl. }
        repeat split; assumption.
      * repeat split; [apply reaches_refl | exact Hu | exact Hkey | discriminate].
      * repeat split; [apply reaches_refl | exact Hu | exact Hkey | discriminate].
    + injection Hw as <- <- <-. repeat split; [apply reaches_refl | exact Hu].
  - destruct (stream_next s) as [ev0 s'] eqn:Hs. intros H. injection H as <- <- <-.
    repeat split; [apply reaches_refl | exact Hu].
Qed.

Lemma chained_generator_disciplined up c w ev c' w' h :
  usable (key_manager w) -> key_in_hand (iterator c) ->
  chained_generator up c w = (ev, c', w') ->
  reaches (key_manager w) (holding (iterator c) ++ h)
    (key_manager w') (holding (iterator c') ++ h)
  /\ usable (key_manager w')
  /\ key_in_hand (iterator c')
  /\ (final ev = true -> holding (iterator c') = []).
Proof.
  intros Hu Hkey. unfold chained_generator.
  assert (Hrelay :
            (let '(ev0, g, w0) := generator_next up (iterator c) w in
             (ev0, {| first_chunk := None; iterator := g |}, w0)) = (ev, c', w') ->
            reaches (key_manager w) (holding (iterator c) ++ h)
              (key_manager w') (holding (iterator c') ++ h)
            /\ usable (key_manager w') /\ key_in_hand (iterator c')
            /\ (final ev = true -> holding (iterator c') = [])).
  { destruct (generator_next up (iterator c) w) as [[ev0 g] w0] eqn:Hg.
    intros H. injection H as <- <- <-.
    exact (generator_next_disciplined _ _ _ _ _ _ h Hu Hkey Hg). }
  destruct (first_chunk c) as [chunk|]; [|exact Hrelay].
  destruct (PyStr.truthy chunk); [|exact Hrelay].
  intros H. injection H as <- <- <-.
  repeat split; [apply reaches_refl | exact Hu | exact Hkey | discriminate].
Qed.

Lemma consume_disciplined up fuel : forall c w cs ev w' h,
  usable (key_manager w) -> key_in_hand (iterator c) ->
  consume up fuel c w = (cs, Some ev, w') ->
  reaches (key_manager w) (holding (iterator c) ++ h) (key_manager w') h
  /\ usable (key_manager w').
Proof.
  induction fuel as [|fuel IH]; intros c w cs ev w' h Hu Hkey H; cbn [consume] in H;
    [discriminate|].
  destruct (chained_generator up c w) as [[ev0 c1] w1] eqn:Hc.
  destruct (chained_generator_disciplined _ _ _ _ _ _ h Hu Hkey Hc)
    as (Hr & Hu1 & Hkey1 & Hfin).
  destruct ev0 as [chunk| |e].
  - destruct (consume up fuel c1 w1) as [[cs1 fin1] w2] eqn:Hrest.
    injection H as <- -> <-.
    destruct (IH _ _ _ _ _ h Hu1 Hkey1 Hrest) as [Hr2 Hu2].
    split; [|exact Hu2]. eapply reaches_trans; [exact Hr | exact Hr2].
  - injection H as <- <- <-. rewrite (Hfin eq_refl) in Hr. now split.
  - injection H as <- <- <-. rewrite (Hfin eq_refl) in Hr. now split.
Qed.

Lemma stream_chain_disciplined up cfg pm pk alias chain : forall last w r w' h,
  usable (key_manager w) ->
  stream_chain up cfg pm pk alias chain last w = (r, w') ->
  usable (key_manager w')
  /\ match r with
     | Streamed _ body =>
         reaches (key_manager w) h (key_manager w') (holding (iterator body) ++ h)
         /\ key_in_hand (iterator body)
     | _ => reaches (key_manager w) h (key_manager w') h
     end.
Proof.
  induction chain as [|name rest IH]; intros last w r w' h Hu H; cbn [stream_chain] in H.
  - injection H as <- <-. split; [exact Hu | apply reaches_refl].
  - destruct (get_model_config_by_name cfg name) as [model_config|];
      [|now apply (IH _ _ _ _ h) in H].
    destruct (negb _); [now apply (IH _ _ _ _ h) in H|].
    destruct (execute_streaming_request_with_key_rotation up model_config pk w)
      as [g w0] eqn:He.
    assert (Hg0 : key_manager w0 = key_manager w /\ holding g = [] /\ key_in_hand g).
    { unfold execute_streaming_request_with_key_rotation in He.
      destruct (user_key_for pk (provider model_config)); injection He as <- <-;
        repeat split. }
    destruct Hg0 as (Hkm & Hhold & Hkey).
    destruct (generator_next up g w0) as [[ev g'] w1] eqn:Hn.
    rewrite <- Hkm in Hu.
    destruct (generator_next_disciplined _ _ _ _ _ _ h Hu Hkey Hn)
      as (Hr & Hu1 & Hkey1 & Hfin).
    rewrite Hhold, Hkm in Hr. simpl in Hr.
    destruct ev as [chunk| |e].
    + injection H as <- <-. split; [exact Hu1|]. now split.
    + injection H as <- <-. split; [exact Hu1|]. now split.
    + apply (IH _ _ _ _ h) in H; [|exact Hu1]. destruct H as [Hu2 Hrest].
      split; [exact Hu2|]. rewrite (Hfin eq_refl) in Hr. simpl in Hr.
      destruct r as [p body|result b|e']; [destruct Hrest as [Hrest Hk]; split; [|exact Hk]| |];
        (eapply reaches_trans; [exact Hr | exact Hrest]).
Qed.

Lemma cache_write_keys up ck result w :
  key_manager (snd (cache_write up ck result w)) = key_manager w.
Proof.
  unfold cache_write. destruct (Rotation.redis_client (rotor w)); [|reflexivity].
  destruct ck as [key|]; [|reflexivity]. destruct (PyStr.truthy key); [|reflexivity].
  destruct (choices result); [reflexivity|].
  destruct (CacheValidator.is_content_safe_to_cache _ _) as [[|]|]; try reflexivity.
  now destruct (Rotation.redis_set _ _ _).
Qed.

Lemma unary_chain_disciplined up cfg pm pk alias ck chain : forall last w r w' h,
  usable (key_manager w) ->
  unary_chain up cfg pm pk alias ck chain last w = (r, w') ->
  usable (key_manager w') /\ reaches (key_manager w) h (key_manager w') h.
Proof.
  induction chain as [|name rest IH]; intros last w r w' h Hu H; cbn [unary_chain] in H.
  - injection H as <- <-. split; [exact Hu | apply reaches_refl].
  - destruct (get_model_config_by_name cfg name) as [model_config|];
      [|now apply (IH _ _ _ _ h) in H].
    destruct (negb _); [now apply (IH _ _ _ _ h) in H|].
    destruct (execute_request_with_key_rotation up model_config pk w)
      as [res w0] eqn:He.
    destruct (execute_request_disciplined _ _ _ _ _ _ h Hu He) as [Hr Hu0].
    destruct res as [result|e].
    + pose proof (cache_write_keys up ck result w0) as Hk.
      destruct (cache_write up ck result w0) as [[u|e] w1]; simpl in Hk;
        injection H as <- <-; rewrite Hk; now split.
    + destruct (is_unavailable e).
      * apply (IH _ _ _ _ h) in H; [|exact Hu0]. destruct H as [Hu1 Hr1].
        split; [exact Hu1|]. eapply reaches_trans; [exact Hr | exact Hr1].
      * injection H as <- <-. now split.
Qed.

Lemma load_balance_keys cfg alias chain w :
  key_manager (snd (load_balance cfg alias chain w)) = key_manager w.
Proof.
  unfold load_balance. destruct (agent_metadata cfg !! alias) as [[[n|]]|]; try reflexivity.
  now destruct (Rotation.get_rotation_index _ _ _).
Qed.

Lemma route_request_disciplined up cfg pm pk req w r w' h :
  usable (key_manager w) ->
  route_request up cfg pm pk req w = (r, w') ->
  usable (key_manager w')
  /\ match r with
     | Streamed _ body =>
         reaches (key_manager w) h (key_manager w') (holding (iterator body) ++ h)
         /\ key_in_hand (iterator body)
     | _ => reaches (key_manager w) h (key_manager w') h
     end.
Proof.
  intros Hu. unfold route_request.
  assert (Hstop : forall e, (Failed e, w) = (r, w') ->
            usable (key_manager w')
            /\ match r with
               | Streamed _ body =>
                   reaches (key_manager w) h (key_manager w') (holding (iterator body) ++ h)
                   /\ key_in_hand (iterator body)
               | _ => reaches (key_manager w) h (key_manager w') h
               end).
  { intros e H. injection H as <- <-. split; [exact Hu | apply reaches_refl]. }
  destruct (model_group_alias cfg !! model req) as [[|p chain]|]; [apply Hstop| |apply Hstop].
  pose proof (load_balance_keys cfg (model req) (p :: chain) w) as Hk.
  destruct (load_balance cfg (model req) (p :: chain) w) as [[chain'|e] w0]; simpl in Hk.
  2:{ intros H. injection H as <- <-. rewrite Hk. split; [exact Hu | apply reaches_refl]. }
  rewrite <- Hk in *. clear Hstop. destruct (stream req).
  - intros H. exact (stream_chain_disciplined _ _ _ _ _ _ _ _ _ _ h Hu H).
  - destruct (cache_read up cfg chain' w0) as [[cached|] ck].
    + intros H. injection H as <- <-. split; [exact Hu | apply reaches_refl].
    + intros H. destruct (unary_chain_disciplined _ _ _ _ _ _ _ _ _ _ _ h Hu H) as [Hu1 Hr].
      split; [exact Hu1|]. destruct r; [|exact Hr|exact Hr].
      exfalso. revert H. clear. revert w0. generalize (@None exn).
      induction chain' as [|name rest IH]; intros last w0; cbn [unary_chain];
        [discriminate|].
      destruct (get_model_config_by_name cfg name); [|apply IH].
      destruct (negb _); [apply IH|].
      destruct (execute_request_with_key_rotation _ _ _ _) as [[result|e] w1].
      * destruct (cache_write _ _ _ _) as [[u|e] w2]; discriminate.
      * destruct (is_unavailable e); [apply IH | discriminate].
Qed.

(** A request leaves no key checked out.  When [route_request] answers or
    fails, every key it took from a pool has been handed back; when it
    returns a stream, the key the stream holds is handed back as soon as the
    stream is iterated to its end, be that end the last chunk or an error
    raised half-way.  A pool whose keys were all accounted for before the
    request has them all accounted for then, with the same other callers
    holding the same keys. *)
Theorem request_hands_back_every_key
    up cfg provider_map provider_keys req w r w1 P keys0 held0 :
  List.NoDup keys0 ->
  is_local P = false ->
  usable (key_manager w) ->
  tracked_conserved P keys0 {| mgr := key_manager w; held := held0 |} ->
  route_request up cfg provider_map provider_keys req w = (r, w1) ->
  match r with
  | Streamed _ body =>
      forall fuel cs ev w2,
        consume up fuel body w1 = (cs, Some ev, w2) ->
        tracked_conserved P keys0 {| mgr := key_manager w2; held := held0 |}
  | _ => tracked_conserved P keys0 {| mgr := key_manager w1; held := held0 |}
  end.
Proof.
  intros Hnd Hloc Hu Hc H.
  destruct (route_request_disciplined _ _ _ _ _ _ _ _ held0 Hu H) as [Hu1 Hr].
  destruct r as [p body|result b|e].
  - destruct Hr as [Hr Hkey]. intros fuel cs ev w2 Hcons.
    destruct (consume_disciplined _ _ _ _ _ _ _ held0 Hu1 Hkey Hcons) as [Hr2 _].
    apply (reaches_conserved P keys0 _ _ _ _ Hnd Hloc (reaches_trans _ _ _ _ _ _ Hr Hr2) Hc).
  - exact (reaches_conserved P keys0 _ _ _ _ Hnd Hloc Hr Hc).
  - exact (reaches_conserved P keys0 _ _ _ _ Hnd Hloc Hr Hc).
Qed.

Lemma request_hands_back_every_key_witness :
  match fst (route_request groq_resets sample_cfg providers [] (ask "fast_chat" true)
               sample_world) with
  | Streamed _ body =>
      forall fuel cs ev w2,
        consume groq_resets fuel body
          (snd (route_request groq_resets sample_cfg providers [] (ask "fast_chat" true)
                  sample_world))
        = (cs, Some ev, w2) ->
        tracked_conserved "groq" ["gsk-1"; "gsk-2"; "gsk-3"]
          {| mgr := key_manager w2; held := [] |}
  | _ =>
      tracked_conserved "groq" ["gsk-1"; "gsk-2"; "gsk-3"]
        {| mgr := key_manager
                    (snd (route_request groq_resets sample_cfg providers []
                            (ask "fast_chat" true) sample_world));
           held := [] |}
  end.
Proof.
  apply (request_hands_back_every_key groq_resets sample_cfg providers []
           (ask "fast_chat" true) sample_world).
  - exact three_keys.
  - reflexivity.
  - exact sample_keys_usable.
  - exact sample_keys_conserved.
  - apply surjective_pairing.
Defined.

(** *** The agent step *)

Lemma step_attempts_disciplined up profile prov left : forall last w cs fin last' w' h,
  usable (key_manager w) ->
  step_attempts up profile prov left last w = (cs, fin, last', w') ->
  reaches (key_manager w) h (key_manager w') h /\ usable (key_manager w').
Proof.
  induction left as [|left IH]; intros last w cs fin last' w' h Hu H;
    cbn [step_attempts] in H.
  - injection H as <- <- <- <-. split; [apply reaches_refl | exact Hu].
  - destruct (get_key (key_manager w) prov) as [got km] eqn:Hg.
    destruct (usable_get_key _ _ _ _ Hu Hg) as [Hu1 Hk].
    pose proof (reaches_acquire _ _ _ _ h Hg) as Hacq.
    destruct got as [k| |].
    + specialize (Hk k eq_refl). rewrite Hk in H.
      assert (Hrel : reaches (key_manager w) h (release_key km prov k) h
                     /\ usable (release_key km prov k)).
      { split; [|now apply usable_release].
        apply (reaches_taken _ _ _ _ h (Release prov k) Hg). auto. }
      assert (Hqua : forall rsn now,
                 reaches (key_manager w) h
                   (quarantine_key km prov k rsn QUARANTINE_DURATION_SECONDS now) h
                 /\ usable (quarantine_key km prov k rsn QUARANTINE_DURATION_SECONDS now)).
      { intros rsn now. split; [|now apply usable_quarantine].
        apply (reaches_taken _ _ _ _ h (Quarantine prov k rsn _ now) Hg).
        right; left; eauto. }
      destruct (chat_stream up profile k _) as [chunks0 [|[code msg|d|d]]];
        cbn [chunks ending] in H.
      * injection H as <- <- <- <-. exact Hrel.
      * destruct (code =? 400); [injection H as <- <- <- <-; exact Hrel|].
        destruct (step_attempts up profile prov left _ _) as [[[cs1 fin1] last1] w1] eqn:Hs.
        injection H as <- <- <- <-.
        destruct (Hqua msg (clock (called profile k (with_keys (fun _ => km) w))))
          as [Hr Hu2].
        apply (IH _ _ _ _ _ _ h) in Hs; [|exact Hu2]. destruct Hs as [Hr' Hu'].
        split; [|exact Hu']. eapply reaches_trans; [exact Hr | exact Hr'].
      * injection H as <- <- <- <-. exact Hrel.
      * destruct (step_attempts up profile prov left _ _) as [[[cs1 fin1] last1] w1] eqn:Hs.
        injection H as <- <- <- <-.
        destruct (Hqua d (clock (called profile k (with_keys (fun _ => km) w))))
          as [Hr Hu2].
        apply (IH _ _ _ _ _ _ h) in Hs; [|exact Hu2]. destruct Hs as [Hr' Hu'].
        split; [|exact Hu']. eapply reaches_trans; [exact Hr | exact Hr'].
    + injection H as <- <- <- <-. now split.
    + injection H as <- <- <- <-. now split.
Qed.

Lemma execute_llm_step_disciplined up cfg pk chain : forall last w cs fin w' h,
  usable (key_manager w) ->
  _execute_llm_step up cfg pk chain last w = (cs, fin, w') ->
  reaches (key_manager w) h (key_manager w') h /\ usable (key_manager w').
Proof.
  induction chain as [|name rest IH]; intros last w cs fin w' h Hu H;
    cbn [_execute_llm_step] in H.
  - injection H as <- <- <-. split; [apply reaches_refl | exact Hu].
  - destruct (get_model_config_by_name cfg name) as [model_config|];
      [|now apply (IH _ _ _ _ _ h) in H].
    destruct (negb (existsb _ _)); [now apply (IH _ _ _ _ _ h) in H|].
    destruct (negb (pattern_found up name)); [now apply (IH _ _ _ _ _ h) in H|].
    destruct (user_key_for pk (provider model_config)) as [user_key|].
    + assert (Hnext : forall e,
                 (let '(cs0, fin0, w0) :=
                    _execute_llm_step up cfg pk rest e
                      (called name user_key w) in
                  (chunks (chat_stream up name user_key (call_number w)) ++ cs0, fin0, w0))
                 = (cs, fin, w') ->
                 reaches (key_manager w) h (key_manager w') h /\ usable (key_manager w')).
      { intros e H0.
        destruct (_execute_llm_step up cfg pk rest e (called name user_key w))
          as [[cs0 fin0] w0] eqn:Hs.
        injection H0 as <- <- <-. now apply (IH _ _ _ _ _ h) in Hs. }
      destruct (ending (chat_stream up name user_key (call_number w)))
        as [|[code msg|d|d]].
      * injection H as <- <- <-. split; [apply reaches_refl | exact Hu].
      * destruct (code =? 400); [|now apply Hnext in H].
        injection H as <- <- <-. split; [apply reaches_refl | exact Hu].
      * now apply Hnext in H.
      * now apply Hnext in H.
    + destruct (step_attempts up name (provider model_config) 3 last w)
        as [[[cs0 [fin0|]] last0] w0] eqn:Hs;
        destruct (step_attempts_disciplined _ _ _ _ _ _ _ _ _ _ h Hu Hs) as [Hr Hu0].
      * injection H as <- <- <-. now split.
      * destruct (_execute_llm_step up cfg pk rest last0 w0) as [[cs1 fin1] w1] eqn:Hn.
        injection H as <- <- <-.
        apply (IH _ _ _ _ _ h) in Hn; [|exact Hu0]. destruct Hn as [Hr1 Hu1].
        split; [|exact Hu1]. eapply reaches_trans; [exact Hr | exact Hr1].
Qed.

(** The LLM step of the agent drivers hands back every key it takes from a
    pool, too: by [release_key] when the stream ended or the request was
    refused as a bad one, by [quarantine_key] after any other failure.  When
    the step is over, with a result or with an exception, a pool whose keys
    were all accounted for before has them all accounted for. *)
Theorem agent_step_hands_back_every_key
    up cfg provider_keys chain last w cs fin w' P keys0 held0 :
  List.NoDup keys0 ->
  is_local P = false ->
  usable (key_manager w) ->
  tracked_conserved P keys0 {| mgr := key_manager w; held := held0 |} ->
  _execute_llm_step up cfg provider_keys chain last w = (cs, fin, w') ->
  tracked_conserved P keys0 {| mgr := key_manager w'; held := held0 |}.
Proof.
  intros Hnd Hloc Hu Hc H.
  destruct (execute_llm_step_disciplined _ _ _ _ _ _ _ _ _ held0 Hu H) as [Hr _].
  exact (reaches_conserved P keys0 _ _ _ _ Hnd Hloc Hr Hc).
Qed.

Lemma agent_step_hands_back_every_key_witness :
  tracked_conserved "groq" ["gsk-1"; "gsk-2"; "gsk-3"]
    {| mgr := key_manager
                (snd (_execute_llm_step groq_resets sample_cfg []
                        ["groq-react"; "mistral-react"] None sample_world));
       held := [] |}.
Proof.
  apply (agent_step_hands_back_every_key groq_resets sample_cfg []
           ["groq-react"; "mistral-react"] None sample_world
           (fst (fst (_execute_llm_step groq_resets sample_cfg []
                        ["groq-react"; "mistral-react"] None sample_world)))
           (snd (fst (_execute_llm_step groq_resets sample_cfg []
                        ["groq-react"; "mistral-react"] None sample_world)))).
  - exact three_keys.
  - reflexivity.
  - exact sample_keys_usable.
  - exact sample_keys_conserved.
  - vm_compute. reflexivity.
Defined.

End DisciplineFacts.

(** ** More on the execution engine *)

Module EngineMoreFacts.
Import Errors KeyManager Rotation CacheValidator Engine CacheState ValidatorSamples.

(** *** Attempts *)

Lemma unary_attempts_count up profile prov ma left : forall last w,
  exists new,
    calls (snd (unary_attempts up profile prov ma left last w)) = new ++ calls w
    /\ (length new <= left)%nat
    /\ Forall (fun c => fst c = profile) new.
Proof.
  induction left as [|left IH]; intros last w; cbn [unary_attempts].
  - exists []. repeat split; [simpl; lia | constructor].
  - destruct (get_key (key_manager w) prov) as [got km].
    assert (Hskip : forall last',
              exists new,
                calls (snd (unary_attempts up profile prov ma left last'
                              (with_keys (fun _ => km) w))) = new ++ calls w
                /\ (length new <= S left)%nat /\ Forall (fun c => fst c = profile) new).
    { intros last'. destruct (IH last' (with_keys (fun _ => km) w)) as (new & Hc & Hl & Hf).
      exists new. repeat split; [exact Hc | lia | exact Hf]. }
    assert (Hcall : forall k last' (w1 : World),
              calls w1 = (profile, k) :: calls w ->
              exists new,
                calls (snd (unary_attempts up profile prov ma left last' w1))
                = new ++ calls w
                /\ (length new <= S left)%nat /\ Forall (fun c => fst c = profile) new).
    { intros k last' w1 Hw1. destruct (IH last' w1) as (new & Hc & Hl & Hf).
      exists (new ++ [(profile, k)]). rewrite Hc, Hw1, <- app_assoc.
      repeat split; [rewrite length_app; simpl; lia|].
      apply Forall_app. split; [exact Hf | now repeat constructor]. }
    assert (Hone : forall k (w1 : World),
              calls w1 = (profile, k) :: calls w ->
              exists new,
                calls w1 = new ++ calls w
                /\ (length new <= S left)%nat /\ Forall (fun c => fst c = profile) new).
    { intros k w1 Hw1. exists [(profile, k)]. rewrite Hw1.
      repeat split; [simpl; lia | now repeat constructor]. }
    destruct got as [k| |]; [|apply Hskip|apply Hskip].
    destruct (chat up profile k _) as [result|[code msg|d|d]]; cbn [snd].
    + now apply (Hone k).
    + destruct ((code =? 401) || (code =? 403)); [now apply (Hcall k)|].
      destruct (code =? 429); [now apply (Hone k)|].
      destruct (existsb _ _); now apply (Hcall k).
    + apply (Hcall k). now destruct (PyStr.truthy k).
    + apply (Hcall k). now destruct (PyStr.truthy k).
Qed.

Lemma stream_attempts_count up profile prov ma left : forall last w,
  exists new,
    calls (snd (stream_attempts up profile prov ma left last w)) = new ++ calls w
    /\ (length new <= left)%nat
    /\ Forall (fun c => fst c = profile) new.
Proof.
  induction left as [|left IH]; intros last w; cbn [stream_attempts].
  - exists []. repeat split; [simpl; lia | constructor].
  - destruct (get_key (key_manager w) prov) as [got km].
    assert (Hskip : forall last',
              exists new,
                calls (snd (stream_attempts up profile prov ma left last'
                              (with_keys (fun _ => km) w))) = new ++ calls w
                /\ (length new <= S left)%nat /\ Forall (fun c => fst c = profile) new).
    { intros last'. destruct (IH last' (with_keys (fun _ => km) w)) as (new & Hc & Hl & Hf).
      exists new. repeat split; [exact Hc | lia | exact Hf]. }
    assert (Hone : forall k (w1 : World),
              calls w1 = (profile, k) :: calls w ->
              exists new,
                calls w1 = new ++ calls w
                /\ (length new <= S left)%nat /\ Forall (fun c => fst c = profile) new).
    { intros k w1 Hw1. exists [(profile, k)]. rewrite Hw1.
      repeat split; [simpl; lia | now repeat constructor]. }
    destruct got as [k| |]; [|apply Hskip|apply Hskip].
    destruct (chat_stream up profile k _) as [[|c cs] [|e]]; cbn [chunks ending snd].
    + now apply (Hone k).
    + destruct (raised_before_start k e) as [x|]; cbn [snd].
      * apply (Hone k). apply EngineFacts.key_lifecycle_calls.
      * destruct (IH (Some (FromAdapter e))
                    (key_lifecycle prov k e (called profile k (with_keys (fun _ => km) w))))
          as (new & Hc & Hl & Hf).
        exists (new ++ [(profile, k)]).
        rewrite Hc, EngineFacts.key_lifecycle_calls, <- app_assoc.
        repeat split; [rewrite length_app; simpl; lia|].
        apply Forall_app. split; [exact Hf | now repeat constructor].
    + now apply (Hone k).
    + now apply (Hone k).
Qed.

(** Retries are bounded.  For one profile, the unary engine and the stream
    wrapper (up to its first chunk) call the provider at most
    [total_keys + 1] times, once for a local provider, and with a key of the
    user exactly once, with that key; every call is for the profile asked
    for. *)
Theorem attempts_are_bounded up model_config provider_keys w :
  (exists new,
     calls (snd (execute_request_with_key_rotation up model_config provider_keys w))
     = new ++ calls w
     /\ Forall (fun c => fst c = model_name model_config) new
     /\ match user_key_for provider_keys (provider model_config) with
        | Some user_key => new = [(model_name model_config, user_key)]
        | None =>
            (length new <= Z.to_nat (max_attempts_for w (provider model_config)))%nat
        end)
  /\ (exists new,
        calls (snd (generator_next up
                      (Rotating (model_name model_config) (provider model_config)
                         NotStarted) w))
        = new ++ calls w
        /\ Forall (fun c => fst c = model_name model_config) new
        /\ (length new <= Z.to_nat (max_attempts_for w (provider model_config)))%nat).
Proof.
  split.
  - unfold execute_request_with_key_rotation.
    destruct (user_key_for provider_keys (provider model_config)) as [user_key|].
    + exists [(model_name model_config, user_key)].
      destruct (chat up _ _ _); repeat split; now repeat constructor.
    + destruct (unary_attempts_count up (model_name model_config) (provider model_config)
                  (max_attempts_for w (provider model_config))
                  (Z.to_nat (max_attempts_for w (provider model_config))) None w)
        as (new & Hc & Hl & Hf).
      exists new. now repeat split.
  - cbn [generator_next rotation_aware_stream_wrapper].
    destruct (stream_attempts_count up (model_name model_config) (provider model_config)
                (max_attempts_for w (provider model_config))
                (Z.to_nat (max_attempts_for w (provider model_config))) None w)
      as (new & Hc & Hl & Hf).
    exists new. destruct (stream_attempts _ _ _ _ _ _ _) as [[ev st] w'].
    now repeat split.
Qed.

(** *** What a request does to the rotation state and to the cache *)

Lemma unary_attempts_rotor up profile prov ma left : forall last w,
  rotor (snd (unary_attempts up profile prov ma left last w)) = rotor w.
Proof.
  induction left as [|left IH]; intros last w; cbn [unary_attempts]; [reflexivity|].
  destruct (get_key (key_manager w) prov) as [got km].
  destruct got as [k| |]; [|now rewrite IH|now rewrite IH].
  destruct (chat up profile k _) as [result|[code msg|d|d]]; cbn [snd].
  - reflexivity.
  - destruct ((code =? 401) || (code =? 403)); [now rewrite IH|].
    destruct (code =? 429); [reflexivity|].
    destruct (existsb _ _); now rewrite IH.
  - rewrite IH. now destruct (PyStr.truthy k).
  - rewrite IH. now destruct (PyStr.truthy k).
Qed.

Lemma execute_request_rotor up model_config provider_keys w :
  rotor (snd (execute_request_with_key_rotation up model_config provider_keys w))
  = rotor w.
Proof.
  unfold execute_request_with_key_rotation.
  destruct (user_key_for _ _); [now destruct (chat up _ _ _)|].
  apply unary_attempts_rotor.
Qed.

Lemma key_lifecycle_rotor prov k e w : rotor (key_lifecycle prov k e w) = rotor w.
Proof.
  unfold key_lifecycle. destruct (PyStr.truthy k); [|reflexivity].
  destruct e as [code msg|d|d]; try reflexivity.
  destruct (code =? 429); [reflexivity|].
  destruct ((code =? 401) || (code =? 403)); [reflexivity|].
  now destruct (500 <=? code).
Qed.

Lemma stream_attempts_rotor up profile prov ma left : forall last w,
  rotor (snd (stream_attempts up profile prov ma left last w)) = rotor w.
Proof.
  induction left as [|left IH]; intros last w; cbn [stream_attempts]; [reflexivity|].
  destruct (get_key (key_manager w) prov) as [got km].
  destruct got as [k| |]; [|now rewrite IH|now rewrite IH].
  destruct (chat_stream up profile k _) as [[|c cs] [|e]]; cbn [chunks ending snd];
    try reflexivity.
  destruct (raised_before_start k e); cbn [snd]; [now rewrite key_lifecycle_rotor|].
  rewrite IH. now rewrite key_lifecycle_rotor.
Qed.

Lemma generator_next_rotor up g w :
  rotor (snd (generator_next up g w)) = rotor w.
Proof.
  destruct g as [profile prov st|s]; cbn [generator_next].
  - destruct (rotation_aware_stream_wrapper up profile prov st w) as [[ev st'] w'] eqn:Hw.
    cbn [snd]. unfold rotation_aware_stream_wrapper in Hw. destruct st as [|k s|].
    + pose proof (stream_attempts_rotor up profile prov
                    (max_attempts_for w prov) (Z.to_nat (max_attempts_for w prov)) None w)
        as Hr.
      now rewrite Hw in Hr.
    + destruct s as [[|c cs] [|e]]; cbn [chunks ending] in Hw; injection Hw as <- <- <-;
        try reflexivity.
      apply key_lifecycle_rotor.
    + now injection Hw as <- <- <-.
  - now destruct (stream_next s).
Qed.

Lemma stream_chain_rotor up cfg pm pk alias chain : forall last w,
  rotor (snd (stream_chain up cfg pm pk alias chain last w)) = rotor w.
Proof.
  induction chain as [|name rest IH]; intros last w; cbn [stream_chain]; [reflexivity|].
  destruct (get_model_config_by_name cfg name) as [model_config|]; [|apply IH].
  destruct (negb _); [apply IH|].
  destruct (execute_streaming_request_with_key_rotation up model_config pk w)
    as [g w0] eqn:He.
  assert (H0 : rotor w0 = rotor w).
  { unfold execute_streaming_request_with_key_rotation in He.
    destruct (user_key_for _ _); now injection He as <- <-. }
  pose proof (generator_next_rotor up g w0) as Hn.
  destruct (generator_next up g w0) as [[ev g'] w1]. cbn [snd] in Hn.
  destruct ev; cbn [snd]; [congruence | congruence |].
  rewrite IH. congruence.
Qed.

Lemma cache_write_effect up ck result w :
  cache_of (snd (cache_write up ck result w)) = cache_of w
  \/ exists key content rest,
       ck = Some key /\ choices result = content :: rest
       /\ is_content_safe_to_cache (json_loads up) content = Return true
       /\ fst (cache_write up ck result w) = Return tt
       /\ cache_of (snd (cache_write up ck result w))
          = <[key := dump result]> (cache_of w).
Proof.
  unfold cache_write.
  destruct (redis_client (rotor w)) as [r|] eqn:Hr; [|now left].
  destruct ck as [key|]; [|now left].
  destruct (PyStr.truthy key); [|now left].
  destruct (choices result) as [|content rest]; [now left|].
  destruct (is_content_safe_to_cache (json_loads up) content) as [[|]|e] eqn:Hs;
    try now left.
  unfold redis_set. destruct (reachable r); [|now left].
  right. exists key, content, rest. repeat split; [exact Hs|].
  unfold cache_of. cbn. now rewrite Hr.
Qed.

Lemma cache_read_key up cfg chain w resp key :
  cache_read up cfg chain w = (resp, Some key) ->
  exists primary rest, chain = primary :: rest /\ create_cache_key up primary = Some key.
Proof.
  unfold cache_read. destruct (redis_client (rotor w)) as [r|]; [|discriminate].
  destruct chain as [|primary rest]; [discriminate|].
  destruct (get_model_config_by_name cfg primary); [|discriminate].
  destruct (create_cache_key up primary) as [ck|] eqn:Hk; [|discriminate].
  intros H. exists primary, rest. split; [reflexivity|].
  assert (ck = key); [|congruence].
  destruct (PyStr.truthy ck); [|now injection H].
  destruct (redis_get r ck) as [[cached|]|]; try now injection H.
  destruct (PyStr.truthy cached); [|now injection H].
  destruct (is_content_safe_to_cache _ _) as [[|]|]; now injection H.
Qed.

Lemma get_rotation_index_cache ro alias pool_size :
  match redis_client (snd (get_rotation_index ro alias pool_size)) with
  | Some r => entries r
  | None => ∅
  end
  = match redis_client ro with
    | Some r => entries r
    | None => ∅
    end.
Proof.
  unfold get_rotation_index. destruct (pool_size <=? 1); [reflexivity|].
  destruct (redis_client ro) as [r|] eqn:Hr; cbn [snd]; [|reflexivity].
  unfold incr. destruct (reachable r); [|reflexivity].
  now destruct (_ <? _).
Qed.

Lemma load_balance_cache cfg alias chain w :
  cache_of (snd (load_balance cfg alias chain w)) = cache_of w.
Proof.
  unfold load_balance, cache_of.
  destruct (agent_metadata cfg !! alias) as [[[n|]]|]; try reflexivity.
  pose proof (get_rotation_index_cache (rotor w) alias n) as H.
  now destruct (get_rotation_index (rotor w) alias n).
Qed.

Lemma unary_chain_cache up cfg pm pk alias ck chain : forall last w,
  cache_of (snd (unary_chain up cfg pm pk alias ck chain last w)) = cache_of w
  \/ exists result key content rest,
       fst (unary_chain up cfg pm pk alias ck chain last w) = Replied result false
       /\ ck = Some key /\ choices result = content :: rest
       /\ is_content_safe_to_cache (json_loads up) content = Return true
       /\ cache_of (snd (unary_chain up cfg pm pk alias ck chain last w))
          = <[key := dump result]> (cache_of w).
Proof.
  induction chain as [|name rest IH]; intros last w; cbn [unary_chain]; [now left|].
  destruct (get_model_config_by_name cfg name) as [model_config|]; [|apply IH].
  destruct (negb _); [apply IH|].
  pose proof (execute_request_rotor up model_config pk w) as Hr.
  destruct (execute_request_with_key_rotation up model_config pk w) as [[result|e] w0];
    cbn [snd] in Hr.
  - assert (Hc0 : cache_of w0 = cache_of w) by (unfold cache_of; now rewrite Hr).
    destruct (cache_write_effect up ck result w0)
      as [Hsame|(key & content & rest' & -> & Hch & Hsafe & Hret & Hnew)].
    + left. destruct (cache_write up ck result w0) as [[u|e] w1]; cbn [snd] in *; congruence.
    + destruct (cache_write up (Some key) result w0) as [[u|e] w1]; cbn [fst snd] in *;
        [|discriminate].
      right. exists result, key, content, rest'. repeat split; congruence.
  - assert (Hc0 : cache_of w0 = cache_of w) by (unfold cache_of; now rewrite Hr).
    destruct (is_unavailable e); [|left; exact Hc0].
    rewrite <- Hc0. apply IH.
Qed.

(** The cache is written only with what passed the validator.  A request
    leaves the entries of the cache as they were, unless it is a request
    without streaming that a provider has just answered: then the one entry
    written is the dump of that answer, under the cache key of the request,
    and the content of the first choice of the answer is safe to cache. *)
Theorem cache_is_written_only_with_safe_content
    up cfg provider_map provider_keys req w r w' :
  route_request up cfg provider_map provider_keys req w = (r, w') ->
  cache_of w' = cache_of w
  \/ exists result content rest primary key,
       r = Replied result false
       /\ stream req = false
       /\ create_cache_key up primary = Some key
       /\ choices result = content :: rest
       /\ is_content_safe_to_cache (json_loads up) content = Return true
       /\ cache_of w' = <[key := dump result]> (cache_of w).
Proof.
  unfold route_request.
  destruct (model_group_alias cfg !! model req) as [[|p chain]|];
    try (intros H; injection H as <- <-; now left).
  pose proof (load_balance_cache cfg (model req) (p :: chain) w) as Hlb.
  destruct (load_balance cfg (model req) (p :: chain) w) as [[chain'|e] w0];
    cbn [snd] in Hlb; [|intros H; injection H as <- <-; now left].
  destruct (stream req) eqn:Hstream.
  - intros H. left. rewrite <- Hlb.
    pose proof (stream_chain_rotor up cfg provider_map provider_keys (model req)
                  chain' None w0) as Hr.
    rewrite H in Hr. cbn [snd] in Hr. unfold cache_of. now rewrite Hr.
  - destruct (cache_read up cfg chain' w0) as [[cached|] ck] eqn:Hread.
    + intros H. injection H as <- <-. now left.
    + intros H.
      destruct (unary_chain_cache up cfg provider_map provider_keys (model req) ck
                  chain' None w0)
        as [Hsame|(result & key & content & rest & Hres & -> & Hch & Hsafe & Hnew)];
        rewrite H in *; cbn [fst snd] in *.
      * left. congruence.
      * right. destruct (cache_read_key _ _ _ _ _ _ Hread) as (primary & rest' & _ & Hk).
        exists result, content, rest, primary, key. rewrite <- Hlb. now repeat split.
Qed.

Lemma cache_is_written_only_with_safe_content_witness :
  cache_of (snd (route_request caching plain_cfg providers [] (ask "plain" false)
                   (world_caching error_text)))
  = cache_of (world_caching error_text)
  \/ exists result content rest primary key,
       fst (route_request caching plain_cfg providers [] (ask "plain" false)
              (world_caching error_text)) = Replied result false
       /\ stream (ask "plain" false) = false
       /\ create_cache_key caching primary = Some key
       /\ choices result = content :: rest
       /\ is_content_safe_to_cache (json_loads caching) content = Return true
       /\ cache_of (snd (route_request caching plain_cfg providers [] (ask "plain" false)
                           (world_caching error_text)))
          = <[key := dump result]> (cache_of (world_caching error_text)).
Proof.
  apply (cache_is_written_only_with_safe_content caching plain_cfg providers []
           (ask "plain" false) (world_caching error_text)).
  apply surjective_pairing.
Defined.

Example poisoned_entry_is_overwritten :
  cache_of (snd (route_request caching plain_cfg providers [] (ask "plain" false)
                   (world_caching error_text)))
  !! "magic_proxy:cache:0a1b" = Some "Hello".
Proof. vm_compute. reflexivity. Qed.

(** *** How a request can fail *)

Lemma stream_chain_fails up cfg pm pk alias chain : forall last w e w',
  stream_chain up cfg pm pk alias chain last w = (Failed e, w') ->
  exists d, e = HTTPException 503 d.
Proof.
  induction chain as [|name rest IH]; intros last w e w'; cbn [stream_chain].
  - intros H. injection H as <- _. eexists. reflexivity.
  - destruct (get_model_config_by_name cfg name) as [model_config|]; [|apply IH].
    destruct (negb _); [apply IH|].
    destruct (execute_streaming_request_with_key_rotation up model_config pk w) as [g w0].
    destruct (generator_next up g w0) as [[[chunk| |x] g'] w1]; try discriminate.
    apply IH.
Qed.

(** What the validator raises: the [TypeError] of comparing a
    [status_code] that is not a number, or what [json.loads] raised other
    than its [JSONDecodeError]. *)
Lemma validator_raises jl content e :
  is_content_safe_to_cache jl content = Raise e ->
  (e = TypeError
   /\ exists data v,
        jl (PyStr.strip content) = Parsed (JDict data)
        /\ PyDict.get "status_code" data = Some v
        /\ ge_400 v = None)
  \/ (exists x, jl (PyStr.strip content) = LoadsRaised x /\ e = FromLoads x).
Proof.
  unfold is_content_safe_to_cache.
  destruct (_ || _); [discriminate|]. destruct (existsb _ _); [discriminate|].
  destruct (_ && _); [|discriminate].
  destruct (jl _) as [value| |x] eqn:Hjl; [|discriminate|].
  - destruct value as [|b|n|q|negative| |s|items|data]; try discriminate.
    destruct (PyDict.mem _ _); [discriminate|].
    destruct (PyDict.get _ _) as [v|] eqn:Hv; [|discriminate].
    destruct (ge_400 v) as [[|]|] eqn:Hge; try discriminate.
    intros H. injection H as <-. left. split; [reflexivity|]. now exists data, v.
  - intros H. injection H as <-. right. now exists x.
Qed.

Lemma unary_chain_fails up cfg pm pk alias ck chain : forall last w e w',
  unary_chain up cfg pm pk alias ck chain last w = (Failed e, w') ->
  (exists d, e = HTTPException 503 d)
  \/ (exists result content rest,
        choices result = content :: rest
        /\ is_content_safe_to_cache (json_loads up) content = Raise e).
Proof.
  induction chain as [|name rest IH]; intros last w e w'; cbn [unary_chain].
  - intros H. injection H as <- _. left. eexists. reflexivity.
  - destruct (get_model_config_by_name cfg name) as [model_config|]; [|apply IH].
    destruct (negb _); [apply IH|].
    destruct (execute_request_with_key_rotation up model_config pk w)
      as [[result|x] w0] eqn:He.
    + unfold cache_write. destruct (redis_client (rotor w0)); [|discriminate].
      destruct ck as [key|]; [|discriminate]. destruct (PyStr.truthy key); [|discriminate].
      destruct (choices result) as [|content rest'] eqn:Hc; [discriminate|].
      destruct (is_content_safe_to_cache (json_loads up) content) as [[|]|x] eqn:Hs;
        try discriminate.
      * now destruct (redis_set _ _ _).
      * intros H. injection H as <- _. right. now exists result, content, rest'.
    + rewrite (EngineFacts.unary_raises_unavailable _ _ _ _ _ _ He). apply IH.
Qed.

Lemma select_chain_returns chain pool_size i :
  0 <= i -> exists chain', select_chain chain pool_size i = Return chain'.
Proof.
  intros Hi. unfold select_chain. destruct (pool_size <=? py_len chain); [|eauto].
  destruct (Z.ltb_spec i (py_len (py_take pool_size chain))) as [Hlt|]; [|eauto].
  destruct (EngineFacts.py_index_in (py_take pool_size chain) i) as (x & Hx & Hp);
    [lia|].
  rewrite Hp. eauto.
Qed.

(** Where the in-process rotation counter of the alias is not negative (the
    code writes no other number there), a request fails in one of three
    ways only: with HTTP 404 for an alias that is not configured, with HTTP
    503 when every profile of its chain was unavailable, or, for a request
    without streaming, with an exception of the cache validator, which is not
    caught on the write path: a provider has answered, and the validator
    raised on the content of the first choice of that answer, either the
    [TypeError] of a JSON object whose [status_code] is not a number or what
    [json.loads] raised other than its [JSONDecodeError] (a [ValueError] or
    a [RecursionError]). *)
Theorem request_fails_in_three_ways up cfg provider_map provider_keys req w e w' :
  0 <= get_or_0 (agent_rotation_state (rotor w)) (model req) ->
  route_request up cfg provider_map provider_keys req w = (Failed e, w') ->
  (exists d, e = HTTPException 404 d)
  \/ (exists d, e = HTTPException 503 d)
  \/ (stream req = false
      /\ exists result content rest,
           choices result = content :: rest
           /\ is_content_safe_to_cache (json_loads up) content = Raise e
           /\ ((e = TypeError
                /\ exists data v,
                     json_loads up (PyStr.strip content) = Parsed (JDict data)
                     /\ PyDict.get "status_code" data = Some v
                     /\ ge_400 v = None)
               \/ (exists x,
                     json_loads up (PyStr.strip content) = LoadsRaised x
                     /\ e = FromLoads x))).
Proof.
  intros Hst. unfold route_request.
  destruct (model_group_alias cfg !! model req) as [[|p chain]|];
    try (intros H; injection H as <- _; left; eexists; reflexivity).
  assert (Hlb : exists chain' w0,
            load_balance cfg (model req) (p :: chain) w = (Return chain', w0)).
  { unfold load_balance.
    destruct (agent_metadata cfg !! model req) as [[[n|]]|]; eauto.
    destruct (get_rotation_index (rotor w) (model req) n) as [i ro] eqn:Hg.
    assert (Hi : 0 <= i).
    { unfold get_rotation_index in Hg.
      destruct (Z.leb_spec n 1); [injection Hg as <- _; lia|].
      assert (Hmem : forall rc,
                (let (i0, st) := memory_index (agent_rotation_state (rotor w)) (model req) n in
                 (i0, {| agent_rotation_state := st; redis_client := rc |})) = (i, ro) ->
                0 <= i)
        by (intros rc H0; unfold memory_index in H0; now injection H0 as <- _).
      destruct (redis_client (rotor w)) as [r|]; [|now apply Hmem in Hg].
      destruct (incr r _) as [[val|] r']; [|now apply Hmem in Hg].
      injection Hg as <- _. apply Z.mod_pos_bound. lia. }
    destruct (select_chain_returns (p :: chain) n i Hi) as [chain' Hsel].
    rewrite Hsel. eauto. }
  destruct Hlb as (chain' & w0 & ->).
  destruct (stream req).
  - intros H. right. left. exact (stream_chain_fails _ _ _ _ _ _ _ _ _ _ H).
  - destruct (cache_read up cfg chain' w0) as [[cached|] ck]; [discriminate|].
    intros H. right.
    destruct (unary_chain_fails _ _ _ _ _ _ _ _ _ _ _ H)
      as [Hd | (result & content & rest & Hc & Hs)]; [now left|].
    right. split; [reflexivity|]. exists result, content, rest.
    split; [exact Hc|]. split; [exact Hs|]. exact (validator_raises _ _ _ Hs).
Qed.

Lemma request_fails_in_three_ways_witness :
  (exists d, FromLoads (ValueError "Exceeds the limit (4300 digits) for integer string conversion")
             = HTTPException 404 d)
  \/ (exists d, FromLoads (ValueError "Exceeds the limit (4300 digits) for integer string conversion")
                = HTTPException 503 d)
  \/ (stream (ask "plain" false) = false
      /\ exists result content rest,
           choices result = content :: rest
           /\ is_content_safe_to_cache (json_loads answering_huge) content
              = Raise (FromLoads (ValueError "Exceeds the limit (4300 digits) for integer string conversion"))
           /\ ((FromLoads (ValueError "Exceeds the limit (4300 digits) for integer string conversion")
                = TypeError
                /\ exists data v,
                     json_loads answering_huge (PyStr.strip content) = Parsed (JDict data)
                     /\ PyDict.get "status_code" data = Some v
                     /\ ge_400 v = None)
               \/ (exists x,
                     json_loads answering_huge (PyStr.strip content) = LoadsRaised x
                     /\ FromLoads (ValueError "Exceeds the limit (4300 digits) for integer string conversion")
                        = FromLoads x))).
Proof.
  apply (request_fails_in_three_ways answering_huge plain_cfg providers []
           (ask "plain" false) world_empty_cache _
           (snd (route_request answering_huge plain_cfg providers []
                   (ask "plain" false) world_empty_cache))).
  - vm_compute. discriminate.
  - vm_compute. reflexivity.
Defined.

(** A provider answers with a JSON text that holds a number of 4301 digits:
    the key is released and the provider was called, but the request fails
    with the [ValueError] of [json.loads], and nothing is cached. *)
Example answer_with_long_number_is_lost :
  fst (route_request answering_huge plain_cfg providers [] (ask "plain" false)
         world_empty_cache)
  = Failed (FromLoads (ValueError "Exceeds the limit (4300 digits) for integer string conversion"))
  /\ calls (snd (route_request answering_huge plain_cfg providers []
                   (ask "plain" false) world_empty_cache))
     = [("groq-p", "gsk-1")]
  /\ cache_of (snd (route_request answering_huge plain_cfg providers []
                      (ask "plain" false) world_empty_cache))
     = cache_of world_empty_cache.
Proof. vm_compute. repeat split. Qed.

End EngineMoreFacts.

(** ** More on message normalization *)

Module NormalizationMoreFacts.
Import Errors Normalization MessageShapes.

(** What both normalizers return has no message without content and no two
    neighbours with the same role. *)
Theorem normalized_messages_alternate x y :
  normalize_for_openai x = Return y \/ normalize_for_gemini x = Return y ->
  forallb has_content y = true /\ alternating y = true.
Proof.
  intros [H|H].
  - exact (NormalizationFacts.openai_settled x y H).
  - destruct (NormalizationFacts.gemini_settled x y H) as (H1 & H2 & _). now split.
Qed.

Lemma normalized_messages_alternate_witness :
  forallb has_content [user (join_lines "Hello" "How are you?"); assistant "Fine"] = true
  /\ alternating [user (join_lines "Hello" "How are you?"); assistant "Fine"] = true.
Proof.
  apply (normalized_messages_alternate
           [user "Hello"; user "  "; user "How are you?"; assistant "Fine"]).
  left. reflexivity.
Defined.

Lemma start_correction_first l m :
  first_non_system (start_correction false l) = Some m ->
  has_role "assistant" m = false.
Proof.
  unfold first_non_system. induction l as [|a l IH]; simpl; [discriminate|].
  destruct (has_role "system" a) eqn:Hs; simpl; rewrite ?Hs; simpl; [exact IH|].
  destruct (has_role "assistant" a) eqn:Ha; simpl; rewrite ?Hs; simpl.
  - intros H. now injection H as <-.
  - intros H. now injection H as <-.
Qed.

(** In what [normalize_for_gemini] returns, the conversation does not start
    with the assistant: the first message that is not a system message, if
    there is one, has another role. *)
Theorem gemini_conversation_starts_with_user x y m :
  normalize_for_gemini x = Return y ->
  first_non_system y = Some m ->
  has_role "assistant" m = false.
Proof.
  unfold normalize_for_gemini.
  destruct (List.filter has_content x) as [|a rest]; [intros H; now injection H as <-|].
  destruct (merge_loop [] (a :: rest)) as [merged|e]; [|discriminate].
  intros H. injection H as <-. apply start_correction_first.
Qed.

Lemma gemini_conversation_starts_with_user_witness :
  has_role "assistant" dummy_user = false.
Proof.
  apply (gemini_conversation_starts_with_user
           [system "Be brief."; assistant "Hi"; user "Hello"]
           [system "Be brief."; dummy_user; assistant "Hi"; user "Hello"]);
    reflexivity.
Defined.








Example text_part_without_text_raises :
  normalize_for_openai
    [ {| role := Some "user";
         content := CList [ {| part_type := Some "text"; part_text := None;
                               part_rest := [] |} ];
         others := [] |};
      user "Hello" ] = Raise (KeyError "text").
Proof. reflexivity. Qed.

End NormalizationMoreFacts.

(** ** Cache keys *)

Module CacheManagerFacts.
Import CacheValidator CacheManager.

Lemma included_from (request_dict : list (string * Json)) fields :
  forall (acc : gmap string Json) f,
  fold_left (fun key_dict field =>
               match PyDict.get field request_dict with
               | Some v => <[field := v]> key_dict
               | None => key_dict
               end) fields acc !! f
  = if existsb (String.eqb f) fields
    then match PyDict.get f request_dict with
         | Some v => Some v
         | None => acc !! f
         end
    else acc !! f.
Proof.
  induction fields as [|field fields IH]; intros acc f; simpl; [reflexivity|].
  rewrite IH. destruct (String.eqb_spec f field) as [->|Hne]; simpl.
  - destruct (PyDict.get field request_dict) as [v|] eqn:Hg.
    + rewrite lookup_insert_eq. now destruct (existsb _ fields).
    + now destruct (existsb _ fields).
  - destruct (existsb (String.eqb f) fields); [|destruct (PyDict.get field request_dict)];
      try reflexivity.
    + destruct (PyDict.get f request_dict); [reflexivity|].
      destruct (PyDict.get field request_dict); [|reflexivity].
      now rewrite lookup_insert_ne by congruence.
    + now rewrite lookup_insert_ne by congruence.
Qed.

Lemma included_lookup request_dict fields f :
  included request_dict fields !! f
  = if existsb (String.eqb f) fields then PyDict.get f request_dict else None.
Proof.
  unfold included. rewrite included_from, lookup_empty.
  destruct (existsb _ fields); [|reflexivity]. now destruct (PyDict.get f request_dict).
Qed.

(** The cache key of a request depends on the request only through the
    fields the matching rule includes: two requests that agree on these
    fields (each has the field with the same value, or neither has it) get
    the same key, or both get none. *)
Theorem cache_key_depends_on_included_fields
    dumps sha256_hex request_a request_b internal_model_name cfg matching_rule :
  List.find (applies_to internal_model_name) (rules cfg) = Some matching_rule ->
  (forall field,
     In field (include_in_key matching_rule) ->
     PyDict.get field request_a = PyDict.get field request_b) ->
  create_cache_key dumps sha256_hex request_a internal_model_name (Some cfg)
  = create_cache_key dumps sha256_hex request_b internal_model_name (Some cfg).
Proof.
  intros Hrule Hsame. unfold create_cache_key. rewrite Hrule.
  assert (Heq : included request_a (include_in_key matching_rule)
                = included request_b (include_in_key matching_rule)); [|now rewrite Heq].
  apply map_eq. intros f. rewrite !included_lookup.
  destruct (existsb (String.eqb f) (include_in_key matching_rule)) eqn:Hin; [|reflexivity].
  apply Hsame. apply existsb_exists in Hin. destruct Hin as (x & Hx & He).
  apply String.eqb_eq in He. now subst.
Qed.

Lemma cache_key_depends_on_included_fields_witness :
  create_cache_key (fun _ => Some "dump") (fun s => s) (sample_request "ann")
    "groq-p" (Some sample_cache_config)
  = create_cache_key (fun _ => Some "dump") (fun s => s) (sample_request "bob")
      "groq-p" (Some sample_cache_config).
Proof.
  apply (cache_key_depends_on_included_fields _ _ _ _ _ _
           {| model_names := ["*"]; include_in_key := ["messages"; "temperature"] |}).
  - reflexivity.
  - intros field [<-|[<-|[]]]; reflexivity.
Defined.

(** [create_cache_key] never makes a key out of the model name alone: when
    it returns one, caching is enabled, a rule applies to the model, and the
    request has at least one of the fields that rule includes.  The key is
    then the prefix followed by the digest of the dump of the dictionary
    that holds the model name and the included fields of the request; the
    prefix is the configured one, the default when the settings have no
    [key_prefix], and the text [None] when they have it with the value
    [None]. *)
Theorem cache_key_needs_an_included_field
    dumps sha256_hex request_dict internal_model_name cache_config key :
  create_cache_key dumps sha256_hex request_dict internal_model_name cache_config
  = Some key ->
  exists cfg matching_rule field v json_dump,
    cache_config = Some cfg /\ enabled cfg = true
    /\ List.find (applies_to internal_model_name) (rules cfg) = Some matching_rule
    /\ In field (include_in_key matching_rule)
    /\ field <> "internal_model_name"
    /\ PyDict.get field request_dict = Some v
    /\ dumps (<["internal_model_name" := JString internal_model_name]>
                (included request_dict (include_in_key matching_rule)))
       = Some json_dump
    /\ key = (match key_prefix cfg with
              | None => "magic_proxy:cache:"
              | Some None => "None"
              | Some (Some prefix) => prefix
              end ++ sha256_hex json_dump)%string.
Proof.
  unfold create_cache_key. destruct cache_config as [cfg|]; [|discriminate].
  destruct (enabled cfg) eqn:Hen; [|discriminate]. simpl.
  destruct (List.find _ (rules cfg)) as [rule|] eqn:Hrule; [|discriminate].
  destruct (bool_decide _) eqn:Hsize; [discriminate|].
  apply bool_decide_eq_false in Hsize.
  destruct (dumps _) as [json_dump|] eqn:Hdump; [|discriminate].
  intros H. injection H as <-.
  destruct (decide (delete "internal_model_name"
                      (included request_dict (include_in_key rule)) = ∅)) as [He|Hne].
  - exfalso. apply Hsize. rewrite <- insert_delete_eq, He.
    rewrite map_size_insert_None by apply lookup_empty. now rewrite map_size_empty.
  - apply map_choose in Hne. destruct Hne as (field & v & Hl).
    apply lookup_delete_Some in Hl. destruct Hl as [Hf Hl].
    rewrite included_lookup in Hl.
    destruct (existsb (String.eqb field) (include_in_key rule)) eqn:Hin; [|discriminate].
    apply existsb_exists in Hin. destruct Hin as (x & Hx & Hex).
    apply String.eqb_eq in Hex. subst x.
    exists cfg, rule, field, v, json_dump. repeat split; auto.
Qed.

Lemma cache_key_needs_an_included_field_witness :
  exists cfg matching_rule field v json_dump,
    Some sample_cache_config = Some cfg /\ enabled cfg = true
    /\ List.find (applies_to "groq-p") (rules cfg) = Some matching_rule
    /\ In field (include_in_key matching_rule)
    /\ field <> "internal_model_name"
    /\ PyDict.get field (sample_request "ann") = Some v
    /\ (fun _ : gmap string Json => Some "dump")
         (<["internal_model_name" := JString "groq-p"]>
            (included (sample_request "ann") (include_in_key matching_rule)))
       = Some json_dump
    /\ "magic_proxy:cache:dump"
       = (match key_prefix cfg with
          | None => "magic_proxy:cache:"
          | Some None => "None"
          | Some (Some prefix) => prefix
          end ++ (fun s : string => s) json_dump)%string.
Proof.
  apply (cache_key_needs_an_included_field (fun _ => Some "dump") (fun s => s)
           (sample_request "ann") "groq-p" (Some sample_cache_config)).
  vm_compute. reflexivity.
Defined.

(** A [key_prefix] that is there with the value [None] is printed as the
    text [None]; only a missing one gives the default. *)
Example none_prefix_is_printed :
  create_cache_key (fun _ => Some "dump") (fun s => s) (sample_request "ann") "groq-p"
    (Some {| enabled := true; rules := rules sample_cache_config;
             key_prefix := Some None |})
  = Some "Nonedump"
  /\ create_cache_key (fun _ => Some "dump") (fun s => s) (sample_request "ann") "groq-p"
       (Some {| enabled := true; rules := rules sample_cache_config;
                key_prefix := Some (Some "gw:") |})
     = Some "gw:dump".
Proof. vm_compute. split; reflexivity. Qed.

Example no_key_without_fields :
  create_cache_key (fun _ => Some "dump") (fun s => s) [("model", JString "fast_chat")]
    "groq-p" (Some sample_cache_config) = None.
Proof. vm_compute. reflexivity. Qed.

End CacheManagerFacts.

(** ** Session leases *)

Module SessionFacts.
Import Session.

Lemma owner_key_inj a b : _owner_key a = _owner_key b -> a = b.
Proof. unfold _owner_key. intros H. vm_compute in H. now injection H. Qed.

Lemma owner_ne_task a b : _owner_key a <> _task_key b.
Proof. unfold _owner_key, _task_key. intros H. vm_compute in H. discriminate. Qed.

Lemma hset_other db key mapping now db' k :
  hset db key mapping now = Some db' -> key <> k -> db' !! k = db !! k.
Proof.
  unfold hset. intros H Hne.
  destruct (lookup_live db key now) as [[[s|fields] exp]|]; try discriminate;
    injection H as <-; now apply lookup_insert_ne.
Qed.

Lemma expire_other db key seconds now k :
  key <> k -> expire db key seconds now !! k = db !! k.
Proof.
  unfold expire. intros Hne. destruct (lookup_live db key now); [|reflexivity].
  now apply lookup_insert_ne.
Qed.

Lemma hset_single db key f v now db' :
  hset db key [(f, v)] now = Some db' ->
  exists fields exp,
    db' !! key = Some {| value := Hash (<[f := v]> fields); expires := exp |}
    /\ forall k, k <> key -> db' !! k = db !! k.
Proof.
  unfold hset. intros H.
  destruct (lookup_live db key now) as [[[s|fields] exp]|]; try discriminate;
    injection H as <-; eexists; eexists; (split; [apply lookup_insert_eq|]);
    intros k Hk; now apply lookup_insert_ne.
Qed.

Lemma hget_after db key fields exp f t :
  db !! key = Some {| value := Hash fields; expires := exp |} ->
  exists_key db key t = true ->
  hget db key f t = Some (fields !! f).
Proof.
  unfold exists_key, hget, lookup_live. intros ->.
  now destruct (live t _).
Qed.

(** The owner key of a session holds worker [w] until [exp]. *)
Lemma lease_kept db c sid w exp :
  db !! _owner_key sid = Some {| value := Str w; expires := Some exp |} ->
  time_of c < exp -> releases sid w c = false ->
  run_call db c !! _owner_key sid
  = Some {| value := Str w; expires := Some exp |}.
Proof.
  intros Hheld Ht Hrel.
  assert (Hlive : forall now, now < exp ->
            lookup_live db (_owner_key sid) now
            = Some {| value := Str w; expires := Some exp |}).
  { intros now Hnow. unfold lookup_live. rewrite Hheld. unfold live. simpl.
    destruct (Z.ltb_spec now exp); [reflexivity | lia]. }
  destruct c as [sid' w' g t now|sid' w' now|sid' now|sid' content now];
    simpl in Ht; cbn [run_call].
  - unfold acquire_lease.
    destruct (set_nx_px db (_owner_key sid') w' OWNER_LEASE_TTL_MS now)
      as [acquired db1] eqn:Hset.
    assert (H1 : db1 !! _owner_key sid = db !! _owner_key sid).
    { unfold set_nx_px in Hset. destruct (String.eqb_spec sid' sid) as [->|Hne].
      - rewrite (Hlive now Ht) in Hset. now injection Hset as <- <-.
      - destruct (lookup_live db (_owner_key sid') now); injection Hset as <- <-;
          [reflexivity|].
        apply lookup_insert_ne. intros He. apply owner_key_inj in He. congruence. }
    destruct acquired; [|cbn; congruence].
    destruct (hset db1 (_task_key sid') _ now) as [db2|] eqn:Hh; cbn; [|congruence].
    rewrite expire_other by (intros He; symmetry in He; now apply owner_ne_task in He).
    rewrite (hset_other _ _ _ _ _ _ Hh)
      by (intros He; symmetry in He; now apply owner_ne_task in He).
    congruence.
  - unfold release_lease.
    destruct (delete_if_equal db (_owner_key sid') w' now) as [db1|] eqn:Hd; cbn;
      [|exact Hheld].
    assert (H1 : db1 !! _owner_key sid = db !! _owner_key sid).
    { unfold delete_if_equal in Hd. destruct (String.eqb_spec sid' sid) as [->|Hne].
      - rewrite (Hlive now Ht) in Hd. injection Hd as <-.
        simpl in Hrel. rewrite String.eqb_refl in Hrel. simpl in Hrel. now rewrite Hrel.
      - destruct (lookup_live db (_owner_key sid') now) as [[[s|fields] exp']|];
          try discriminate; injection Hd as <-; [|reflexivity].
        destruct (String.eqb s w'); [|reflexivity].
        apply lookup_delete_ne. intros He. apply owner_key_inj in He. congruence. }
    destruct (hset db1 (_task_key sid') _ now) as [db2|] eqn:Hh; cbn; [|congruence].
    rewrite (hset_other _ _ _ _ _ _ Hh)
      by (intros He; symmetry in He; now apply owner_ne_task in He).
    congruence.
  - unfold cancel_session. destruct (exists_key db _ now); [|exact Hheld].
    destruct (hset db (_task_key sid') _ now) as [db2|] eqn:Hh; cbn; [|exact Hheld].
    rewrite (hset_other _ _ _ _ _ _ Hh)
      by (intros He; symmetry in He; now apply owner_ne_task in He).
    exact Hheld.
  - unfold save_draft.
    destruct (hset db (_task_key sid') _ now) as [db2|] eqn:Hh; cbn; [|exact Hheld].
    rewrite (hset_other _ _ _ _ _ _ Hh)
      by (intros He; symmetry in He; now apply owner_ne_task in He).
    exact Hheld.
Qed.

Lemma acquire_lease_holds db sid w g c now db1 :
  acquire_lease (Some db) sid w g c now = (Some true, Some db1) ->
  db1 !! _owner_key sid
  = Some {| value := Str w; expires := Some (now + OWNER_LEASE_TTL_MS) |}.
Proof.
  unfold acquire_lease, set_nx_px.
  destruct (lookup_live db (_owner_key sid) now); [discriminate|].
  destruct (hset _ (_task_key sid) _ now) as [db2|] eqn:Hh; [|discriminate].
  intros H. injection H as <-.
  rewrite expire_other by (intros He; symmetry in He; now apply owner_ne_task in He).
  rewrite (hset_other _ _ _ _ _ _ Hh)
    by (intros He; symmetry in He; now apply owner_ne_task in He).
  apply lookup_insert_eq.
Qed.

(** The lease excludes.  Once [acquire_lease] has succeeded for a worker,
    no [acquire_lease] for the same session succeeds during the next
    [OWNER_LEASE_TTL_MS] milliseconds, whatever other workers do in between
    through the session store, unless the owner has called
    [release_lease]: the [release_lease] of a worker that does not own the
    lease leaves it in place. *)
Theorem lease_is_exclusive db sid owner g c t0 db1 calls :
  acquire_lease (Some db) sid owner g c t0 = (Some true, Some db1) ->
  Forall (fun call => time_of call < t0 + OWNER_LEASE_TTL_MS
                      /\ releases sid owner call = false) calls ->
  forall worker g' c' t,
    t < t0 + OWNER_LEASE_TTL_MS ->
    acquire_lease (Some (run_calls calls db1)) sid worker g' c' t
    = (Some false, Some (run_calls calls db1)).
Proof.
  intros Hacq Hcalls worker g' c' t Ht.
  apply acquire_lease_holds in Hacq.
  assert (Hheld : run_calls calls db1 !! _owner_key sid
                  = Some {| value := Str owner;
                            expires := Some (t0 + OWNER_LEASE_TTL_MS) |}).
  { clear Ht. revert db1 Hacq. unfold run_calls.
    induction Hcalls as [|call calls [Hc Hr] _ IH]; intros db1 Hacq; simpl; [exact Hacq|].
    apply IH. now apply lease_kept. }
  unfold acquire_lease, set_nx_px, lookup_live. rewrite Hheld. unfold live. simpl.
  destruct (Z.ltb_spec t (t0 + OWNER_LEASE_TTL_MS)); [reflexivity | lia].
Qed.

Lemma lease_is_exclusive_witness :
  acquire_lease
    (Some (run_calls [ReleaseLease "s1" "worker-b" 2000; CancelSession "s1" 3000]
             started))
    "s1" "worker-b" "g" "0.5" 4000
  = (Some false,
     Some (run_calls [ReleaseLease "s1" "worker-b" 2000; CancelSession "s1" 3000]
             started)).
Proof.
  apply (lease_is_exclusive ∅ "s1" "worker-a" "g" "0.5" 1000 started
           [ReleaseLease "s1" "worker-b" 2000; CancelSession "s1" 3000]).
  - vm_compute. reflexivity.
  - repeat constructor; vm_compute; reflexivity.
  - vm_compute. reflexivity.
Defined.

(** The owner frees the lease.  When the owner key of a session holds a
    worker and that worker calls [release_lease], the next [acquire_lease]
    for the session succeeds, at whatever time and for whatever worker. *)
Theorem lease_is_freed_by_its_owner db sid owner exp now db' :
  lookup_live db (_owner_key sid) now = Some {| value := Str owner; expires := exp |} ->
  release_lease (Some db) sid owner now = (Some tt, Some db') ->
  forall worker g c t, fst (acquire_lease (Some db') sid worker g c t) = Some true.
Proof.
  intros Hheld. unfold release_lease, delete_if_equal. rewrite Hheld, String.eqb_refl.
  destruct (hset (delete (_owner_key sid) db) (_task_key sid) _ now) as [db2|] eqn:Hh;
    [|discriminate].
  intros H worker g c t. injection H as <-.
  destruct (hset_single _ _ _ _ _ _ Hh) as (fields & exp' & Htask & Hother).
  unfold acquire_lease, set_nx_px, lookup_live.
  rewrite (Hother (_owner_key sid)) by apply owner_ne_task.
  rewrite lookup_delete_eq.
  destruct (hset _ (_task_key sid) _ t) as [db3|] eqn:Hh3; [reflexivity|].
  exfalso. unfold hset, lookup_live in Hh3.
  rewrite lookup_insert_ne in Hh3 by apply owner_ne_task. rewrite Htask in Hh3.
  now destruct (live t _).
Qed.

Lemma lease_is_freed_by_its_owner_witness :
  fst (acquire_lease
         (Some (server_after (snd (release_lease (Some started) "s1" "worker-a" 2000))
                  ∅))
         "s1" "worker-b" "g" "0.5" 2001) = Some true.
Proof.
  apply (lease_is_freed_by_its_owner started "s1" "worker-a" (Some 61000) 2000).
  - vm_compute. reflexivity.
  - vm_compute. reflexivity.
Defined.

(** What is written to a session is read back.  After [cancel_session] has
    found the session and [save_draft] has stored a draft in it,
    [is_cancelled] answers yes and [get_draft] returns that draft for as
    long as the task entry lasts: the later write leaves the earlier one in
    place. *)
Theorem session_writes_are_read_back db sid content now now' db1 db2 t :
  cancel_session db sid now = (Some true, db1) ->
  exists_key db1 (_task_key sid) now' = true ->
  save_draft (Some db1) sid content now' = (Some tt, Some db2) ->
  exists_key db2 (_task_key sid) t = true ->
  is_cancelled (Some db2) sid t = Some true
  /\ get_draft (Some db2) sid t = Some content.
Proof.
  unfold cancel_session, save_draft.
  destruct (exists_key db (_task_key sid) now) eqn:Hex; [|discriminate].
  destruct (hset db (_task_key sid) _ now) as [dbc|] eqn:Hc; [|discriminate].
  intros H. injection H as <-. intros Hstill.
  destruct (hset dbc (_task_key sid) _ now') as [dbd|] eqn:Hd; [|discriminate].
  intros H. injection H as <-. intros Hlive.
  destruct (hset_single _ _ _ _ _ _ Hc) as (f1 & e1 & Ht1 & _).
  assert (Hdb : dbd !! _task_key sid
                = Some {| value := Hash (<["draft" := content]>
                                           (<["status" := "cancelled"]> f1));
                          expires := e1 |}).
  { unfold hset, lookup_live in Hd. unfold exists_key, lookup_live in Hstill.
    rewrite Ht1 in Hd, Hstill. destruct (live now' _); [|discriminate].
    injection Hd as <-. now rewrite lookup_insert_eq. }
  unfold is_cancelled, get_draft.
  rewrite !(hget_after _ _ _ _ _ _ Hdb Hlive).
  rewrite lookup_insert_eq, lookup_insert_ne by discriminate.
  now rewrite lookup_insert_eq.
Qed.

Lemma session_writes_are_read_back_witness :
  is_cancelled
    (Some (server_after
             (snd (save_draft (Some (snd (cancel_session started "s1" 2000))) "s1"
                     "Thought: search first." 3000)) ∅))
    "s1" 4000 = Some true
  /\ get_draft
       (Some (server_after
                (snd (save_draft (Some (snd (cancel_session started "s1" 2000))) "s1"
                        "Thought: search first." 3000)) ∅))
       "s1" 4000 = Some "Thought: search first.".
Proof.
  apply (session_writes_are_read_back started "s1" "Thought: search first." 2000 3000
           (snd (cancel_session started "s1" 2000))).
  - vm_compute. reflexivity.
  - vm_compute. reflexivity.
  - vm_compute. reflexivity.
  - vm_compute. reflexivity.
Defined.

End SessionFacts.

(** ** Merging user overrides into the configuration *)

Module ConfigManagerFacts.
Import CacheValidator ConfigManager.

Lemma get_set {V} k k' (v : V) d :
  PyDict.get k (PyDict.set k' v d) = if String.eqb k k' then Some v else PyDict.get k d.
Proof.
  induction d as [|[k2 v2] d IH]; simpl.
  - now destruct (String.eqb k k').
  - destruct (String.eqb_spec k' k2) as [->|Hne]; simpl.
    + now destruct (String.eqb k k2).
    + rewrite IH. destruct (String.eqb_spec k k2) as [->|?]; [|reflexivity].
      destruct (String.eqb_spec k2 k'); [congruence | reflexivity].
Qed.

Lemma keys_set {V} k (v : V) d :
  PyDict.keys (PyDict.set k v d)
  = if PyDict.mem k d then PyDict.keys d else PyDict.keys d ++ [k].
Proof.
  induction d as [|[k2 v2] d IH]; simpl; [reflexivity|].
  destruct (String.eqb_spec k k2) as [->|Hne]; simpl; [reflexivity|].
  rewrite IH. now destruct (PyDict.mem k d).
Qed.

Lemma get_none_mem {V} k (d : list (string * V)) :
  PyDict.get k d = None <-> PyDict.mem k d = false.
Proof.
  induction d as [|[k2 v2] d IH]; simpl; [tauto|].
  destruct (String.eqb k k2); [split; discriminate | exact IH].
Qed.

Lemma get_none_keys {V} k (d : list (string * V)) :
  ~ In k (PyDict.keys d) -> PyDict.get k d = None.
Proof. intros H. apply get_none_mem. now apply PyDictFacts.mem_false_iff. Qed.

Lemma deep_merge_nil base : deep_merge base [] = base.
Proof. reflexivity. Qed.

Lemma deep_merge_cons base key value rest :
  deep_merge base ((key, value) :: rest)
  = deep_merge (PyDict.set key (merged_value (PyDict.get key base) value) base) rest.
Proof.
  unfold deep_merge, merged_value. simpl.
  destruct (PyDict.get key base) as [[]|]; destruct value; reflexivity.
Qed.

(** [deep_merge], key by key.  For overrides with distinct keys: a key the
    overrides do not have keeps the value of the base; a key under which
    both hold a dictionary gets the [deep_merge] of the two; any other key
    of the overrides gets the value of the overrides.  The keys of the base
    keep their order and the new keys follow in the order of the
    overrides. *)
Theorem deep_merge_key_by_key overrides : forall base,
  List.NoDup (PyDict.keys overrides) ->
  (forall key,
     PyDict.get key (deep_merge base overrides)
     = match PyDict.get key overrides with
       | None => PyDict.get key base
       | Some value => Some (merged_value (PyDict.get key base) value)
       end)
  /\ PyDict.keys (deep_merge base overrides)
     = PyDict.keys base
       ++ List.filter (fun key => negb (PyDict.mem key base)) (PyDict.keys overrides).
Proof.
  induction overrides as [|[k0 v0] rest IH]; intros base Hnd.
  - rewrite deep_merge_nil. simpl. split; [reflexivity | now rewrite app_nil_r].
  - simpl in Hnd. inversion Hnd as [|? ? Hnot Hnd']; subst.
    rewrite deep_merge_cons.
    destruct (IH (PyDict.set k0 (merged_value (PyDict.get k0 base) v0) base) Hnd')
      as [Hget Hkeys].
    split.
    + intros key. rewrite Hget, get_set. simpl.
      destruct (String.eqb_spec key k0) as [->|Hne]; [|reflexivity].
      now rewrite (get_none_keys _ _ Hnot).
    + rewrite Hkeys, keys_set. simpl.
      assert (Hrest : List.filter
                        (fun key => negb (PyDict.mem key
                                            (PyDict.set k0 (merged_value (PyDict.get k0 base) v0)
                                               base)))
                        (PyDict.keys rest)
                      = List.filter (fun key => negb (PyDict.mem key base))
                          (PyDict.keys rest)).
      { apply filter_ext_in. intros key Hin. rewrite PyDictFacts.mem_set.
        destruct (String.eqb_spec key k0) as [->|Hne]; [contradiction | reflexivity]. }
      rewrite Hrest. destruct (PyDict.mem k0 base); simpl; [reflexivity|].
      now rewrite <- app_assoc.
Qed.

Lemma deep_merge_key_by_key_witness :
  (forall key,
     PyDict.get key (deep_merge sample_global sample_overrides)
     = match PyDict.get key sample_overrides with
       | None => PyDict.get key sample_global
       | Some value => Some (merged_value (PyDict.get key sample_global) value)
       end)
  /\ PyDict.keys (deep_merge sample_global sample_overrides)
     = PyDict.keys sample_global
       ++ List.filter (fun key => negb (PyDict.mem key sample_global))
            (PyDict.keys sample_overrides).
Proof.
  apply (deep_merge_key_by_key sample_overrides sample_global).
  repeat constructor; simpl; intuition discriminate.
Defined.

Example user_overrides_one_alias :
  deep_merge sample_global sample_overrides
  = [ ("router_settings",
       JDict [ ("model_group_alias",
                JDict [ ("fast_chat", JList [JString "mistral-p"]);
                        ("coder", JList [JString "cerebras-p"]) ]);
               ("agent_metadata", JDict []) ]);
      ("cache_settings", JDict [("enabled", JBool true)]);
      ("theme", JString "dark") ].
Proof. reflexivity. Qed.

End ConfigManagerFacts.

(** ** Choice of a model for a tier *)

Module ModelGarageFacts.
Import Errors ModelGarage.

Section Shuffled.
Variable shuffle : list Profile -> list Profile.
Hypothesis shuffle_permutes : forall l, Permutation l (shuffle l).

Lemma shuffled_in l c : In c (shuffle l) <-> In c l.
Proof.
  split; intros H.
  - eapply Permutation_in; [apply Permutation_sym, shuffle_permutes | exact H].
  - eapply Permutation_in; [apply shuffle_permutes | exact H].
Qed.

(** [get_model_for_tier], whatever the shuffle: the answer is [None] exactly
    when no profile has the tier; a name it returns is the name of a profile
    of that tier, and of a verified one whenever some profile of the tier is
    verified; it raises only [KeyError] for a profile of the tier without a
    name. *)
Theorem tier_gets_a_verified_model garage_data tier_name model_list :
  match get_model_for_tier shuffle garage_data tier_name model_list with
  | Return None => forall m, In m model_list -> of_tier tier_name m = false
  | Return (Some name) =>
      exists m, In m model_list /\ of_tier tier_name m = true
                /\ model_name m = Some name
                /\ ((exists m', In m' model_list /\ of_tier tier_name m' = true
                                /\ verified garage_data m' = true)
                    -> verified garage_data m = true)
  | Raise e =>
      e = KeyError "model_name"
      /\ exists m, In m model_list /\ of_tier tier_name m = true /\ model_name m = None
  end.
Proof.
  unfold get_model_for_tier.
  destruct (List.filter (of_tier tier_name) model_list) as [|c0 cs] eqn:Hf.
  - intros m Hin. destruct (of_tier tier_name m) eqn:Ht; [|reflexivity].
    assert (Hm : In m (List.filter (of_tier tier_name) model_list))
      by (apply filter_In; auto).
    rewrite Hf in Hm. destruct Hm.
  - assert (Hcand : forall c, In c (shuffle (c0 :: cs)) ->
                              In c model_list /\ of_tier tier_name c = true).
    { intros c Hc. apply (proj1 (shuffled_in _ _)) in Hc. rewrite <- Hf in Hc.
      now apply filter_In in Hc. }
    destruct (List.find (verified garage_data) (shuffle (c0 :: cs))) as [c|] eqn:Hfind.
    + apply find_some in Hfind. destruct Hfind as [Hin Hv].
      destruct (Hcand c Hin) as [Hl Ht]. unfold name_of.
      destruct (model_name c) as [n|] eqn:Hn.
      * exists c. auto.
      * split; [reflexivity|]. exists c. auto.
    + assert (Hnone : forall m', In m' model_list -> of_tier tier_name m' = true ->
                                 verified garage_data m' = false).
      { intros m' Hin Ht. apply (find_none _ _ Hfind).
        apply (proj2 (shuffled_in _ _)). rewrite <- Hf. apply filter_In. auto. }
      destruct (shuffle (c0 :: cs)) as [|first rest] eqn:Hs.
      * exfalso. assert (Hin : In c0 (shuffle (c0 :: cs)))
          by (apply (proj2 (shuffled_in _ _)); now left).
        rewrite Hs in Hin. destruct Hin.
      * destruct (Hcand first (or_introl eq_refl)) as [Hl Ht]. unfold name_of.
        destruct (model_name first) as [n|] eqn:Hn.
        -- exists first. repeat split; auto.
           intros (m' & Hin' & Ht' & Hv'). rewrite (Hnone m' Hin' Ht') in Hv'.
           discriminate.
        -- split; [reflexivity|]. exists first. auto.
Qed.

End Shuffled.

Lemma tier_gets_a_verified_model_witness :
  exists m, In m sample_profiles /\ of_tier "lite" m = true
            /\ model_name m = Some "groq-lite"
            /\ ((exists m', In m' sample_profiles /\ of_tier "lite" m' = true
                            /\ verified sample_garage m' = true)
                -> verified sample_garage m = true).
Proof.
  exact (tier_gets_a_verified_model (@rev Profile) (@Permutation_rev Profile)
           sample_garage "lite" sample_profiles).
Defined.

Example unverified_tier_falls_back :
  get_model_for_tier (@rev Profile) ∅ "lite" sample_profiles = Return (Some "cerebras-lite")
  /\ get_model_for_tier (@rev Profile) sample_garage "max" sample_profiles = Return None.
Proof. split; reflexivity. Qed.

End ModelGarageFacts.
